(** * Strongin's global search (modules/task_3/kandrin_a_strongin_method)

    A shallow embedding of [strongin_method.cpp] and the properties of its
    work splitter, of its two scans over the segment collection, of their
    distributed forms and of the optimisation loop.

    Conventions of the embedding.
    - [double] is IEEE 754 binary64, Rocq's primitive [float]: the operators
      [+ - * /], [abs] and the comparisons are those of the hardware, NaN,
      infinities and rounding to nearest even included.
    - [size_t] is an unsigned 64-bit integer and [int] a signed 32-bit one;
      both are carried by [Z], the wrap-around and the conversions between
      them are written out.
    - What C++ leaves undefined (an unchecked subscript past the end, a
      division by zero on integers) is the result [Err UndefinedBehaviour];
      [std::vector::at] past the end is [Err OutOfRange]; a failed [assert] is
      [Err AssertionFailed].
    - The processes of the MPI world run the same function with their own
      rank.  Point-to-point messages are deterministic here (one sender, one
      receiver, one tag), so the value a process receives is the value the
      matching process computes and sends; [MPI_Bcast] and [MPI_Reduce] are
      modelled by the value they leave on every process and on the root.
    - Every operation on doubles is rounded to binary64 on its own (no
      fused multiply-add, no extended precision), [assert] is compiled in,
      and the tracing calls are left out.
    - The loops [for (int i = 0; i < y.size(); ++i)] are folds over the
      vector; they are the source's loops for vectors of at most [INT_MAX]
      elements, which the loop of [GetMin], capped at 100000 passes, never
      exceeds. *)

From Stdlib Require Import ZArith Lia Floats.
From stdpp Require Import base tactics option list.

Local Open Scope Z_scope.

(** ** Machine integers *)

Definition SIZE_MAX : Z := 2 ^ 64 - 1.
Definition INT_MAX : Z := 2 ^ 31 - 1.
Definition INT_MIN : Z := - 2 ^ 31.

(** Arithmetic on [size_t] is modulo 2^64. *)
Definition size_t_wrap (z : Z) : Z := z mod 2 ^ 64.

(** Conversion of an [int] to [size_t] (the usual arithmetic conversions). *)
Definition int_to_size_t (i : Z) : Z := i mod 2 ^ 64.

(** Conversion of a [size_t] to [int]: the value modulo 2^32, read as signed. *)
Definition size_t_to_int (z : Z) : Z := (z + 2 ^ 31) mod 2 ^ 32 - 2 ^ 31.

(** ** Results of fallible code *)

Inductive error : Type :=
  | UndefinedBehaviour   (* unchecked subscript past the end, integer division by zero *)
  | OutOfRange           (* std::out_of_range thrown by std::vector::at *)
  | AssertionFailed      (* a failed assert *)
  | Deadlock             (* a receive that no send matches *)
  | OutOfFuel.           (* the embedding's loop bound was reached: never a result of the program *)

Inductive result (A : Type) : Type :=
  | Ok (a : A)
  | Err (e : error).
Arguments Ok {A} a.
Arguments Err {A} e.

#[export] Instance result_ret : MRet result := fun A a => Ok a.
#[export] Instance result_bind : MBind result := fun A B k r =>
  match r with
  | Ok a => k a
  | Err e => Err e
  end.

(** ** Vectors *)

Definition size {A} (v : list A) : Z := Z.of_nat (length v).

(** [v[i]], unchecked. *)
Definition vec_get {A} (v : list A) (i : Z) : result A :=
  if bool_decide (0 <= i < size v)
  then match v !! Z.to_nat i with Some x => Ok x | None => Err UndefinedBehaviour end
  else Err UndefinedBehaviour.

(** [v[i] = x], unchecked. *)
Definition vec_set {A} (v : list A) (i : Z) (x : A) : result (list A) :=
  if bool_decide (0 <= i < size v) then Ok (<[Z.to_nat i := x]> v)
  else Err UndefinedBehaviour.

(** [v.at(i)]. *)
Definition vec_at {A} (v : list A) (i : Z) : result A :=
  if bool_decide (0 <= i < size v)
  then match v !! Z.to_nat i with Some x => Ok x | None => Err OutOfRange end
  else Err OutOfRange.

(** [v.at(i) = x]. *)
Definition vec_at_set {A} (v : list A) (i : Z) (x : A) : result (list A) :=
  if bool_decide (0 <= i < size v) then Ok (<[Z.to_nat i := x]> v)
  else Err OutOfRange.

(** ** Loops *)

Section Loops.
Context {St : Type}.

(** [for (i = lo; i < hi; ++i) body]: the counter is not written by the
    body, so the passes are those of [lo, lo + 1, ..., hi - 1]. *)
Fixpoint for_each (body : Z -> St -> result St) (indices : list Z) (s : St) : result St :=
  match indices with
  | [] => Ok s
  | i :: rest => s' ← body i s; for_each body rest s'
  end.

Definition for_range (lo hi : Z) (body : Z -> St -> result St) (s : St) : result St :=
  for_each body (seqZ lo (hi - lo)) s.

Variable cond : St -> bool.
Variable body : St -> result St.

(** [while (cond) body], run for at most [fuel] passes. *)
Fixpoint while (fuel : nat) (s : St) : result St :=
  if cond s then
    match fuel with
    | O => Err OutOfFuel
    | S fuel' => s' ← body s; while fuel' s'
    end
  else Ok s.

(** The states in which the body of that loop is entered, in order. *)
Fixpoint while_passes (fuel : nat) (s : St) : list St :=
  if cond s then
    match fuel with
    | O => []
    | S fuel' =>
        s :: match body s with
             | Ok s' => while_passes fuel' s'
             | Err _ => []
             end
    end
  else [].
End Loops.

(** ** WorkSplitter (lines 16-53) *)

Record WorkSplitter : Type := { m_workDistribution : list Z }.

(** The variables of the second loop of the constructor. *)
Record split_state : Type := {
  st_distribution : list Z;
  st_work : Z;
  st_workerCount : Z;
  st_currentWorker : Z;
}.

Definition split_cond (s : split_state) : bool := negb (st_work s =? 0).

Definition split_body (s : split_state) : result split_state :=
  if st_workerCount s =? 0 then Err UndefinedBehaviour
  else
    let workForCurrentWorker := st_work s / st_workerCount s in
    dist ← vec_set (st_distribution s) (st_currentWorker s) (st_work s / st_workerCount s);
    Ok {| st_distribution := dist;
          st_work := size_t_wrap (st_work s - workForCurrentWorker);
          st_workerCount := size_t_wrap (st_workerCount s - 1);
          st_currentWorker := size_t_wrap (st_currentWorker s + 1) |}.

Definition split_init (work workerCount : Z) : split_state :=
  {| st_distribution := replicate (Z.to_nat workerCount) 0;
     st_work := work;
     st_workerCount := workerCount;
     st_currentWorker := 0 |}.

(** The second loop is given [workerCount + 1] passes: a pass decrements
    [workerCount], and the pass that finds it zero divides by zero. *)
Definition split_fuel (workerCount : Z) : nat := S (Z.to_nat workerCount).

Definition WorkSplitter_new (work workerCount : Z) : result WorkSplitter :=
  if work <=? workerCount then
    dist ← for_range 0 work (fun currentWorker dist => vec_set dist currentWorker 1)
                     (replicate (Z.to_nat workerCount) 0);
    Ok {| m_workDistribution := dist |}
  else
    s ← while split_cond split_body (split_fuel workerCount) (split_init work workerCount);
    Ok {| m_workDistribution := st_distribution s |}.

Definition GetPartWork (ws : WorkSplitter) (workerNumber : Z) : result Z :=
  vec_get (m_workDistribution ws) workerNumber.

Definition GetPrevPartWork (ws : WorkSplitter) (workerNumber : Z) : result Z :=
  for_range 0 workerNumber
    (fun i work => w ← vec_at (m_workDistribution ws) i; Ok (size_t_wrap (work + w)))
    0.

(** ** Doubles and segments *)

Abbreviation double := float.

(** From <cfloat> and <cmath>. *)
Definition DBL_MAX : double := 0x1.fffffffffffffp+1023%float.
Definition NAN : double := nan.

(** Modelled from the spec: the header strongin_method.h, which declares
    [Segment], is not among the sources.  The spec's data model gives it as
    the pair [(begin, end)] of reals, and the code builds it as
    [Segment{begin, end}] and reads the members [.begin] and [.end]. *)
Record Segment : Set := { seg_begin : double; seg_end : double }.

(** Modelled from the spec: [Function] is declared in the same header; it is
    the objective, "a pure, side-effect-free real-to-real function". *)
Definition Function : Set := double -> double.

(** ** Calculate_M, sequential (lines 85-102) *)

Definition M_ratio (f : Function) (seg : Segment) : double :=
  let y_begin := seg_begin seg in
  let y_end := seg_end seg in
  let zDif := (f y_end - f y_begin)%float in
  let yDif := (y_end - y_begin)%float in
  abs (zDif / yDif).

(** The loop over [i], started with the running maximum [M]; [y.at(i)] is in
    range on every pass. *)
Fixpoint Calculate_M_loop (f : Function) (y : list Segment) (M : double) : double :=
  match y with
  | [] => M
  | seg :: rest =>
      let currentMax := M_ratio f seg in
      Calculate_M_loop f rest (if (M <? currentMax)%float then currentMax else M)
  end.

Definition Calculate_M_Sequential (f : Function) (y : list Segment) : double :=
  Calculate_M_loop f y 0%float.

(** ** Calculate_m (lines 159-163) *)

Definition Calculate_m (M r : double) : result double :=
  if negb (0 <=? M)%float then Err AssertionFailed
  else if negb (1 <? r)%float then Err AssertionFailed
  else Ok (if (M =? 0)%float then 1%float else (r * M)%float).

(** ** CalculateIndexOfMaxR, sequential (lines 183-208) *)

Definition characteristic (f : Function) (m : double) (seg : Segment) : double :=
  let y_begin := seg_begin seg in
  let y_end := seg_end seg in
  let yDif := (y_end - y_begin)%float in
  let zDif := (f y_end - f y_begin)%float in
  let zSum := (f y_end + f y_begin)%float in
  (m * yDif + zDif * zDif / (m * yDif) - 2 * zSum)%float.

(** The loop, with [i] the index of the head of [y] in the whole vector. *)
Fixpoint CalculateIndexOfMaxR_loop (f : Function) (m : double) (i : Z)
    (y : list Segment) (maxR_Index : double * Z) : double * Z :=
  match y with
  | [] => maxR_Index
  | seg :: rest =>
      let R := characteristic f m seg in
      let maxR := fst maxR_Index in
      CalculateIndexOfMaxR_loop f m (i + 1) rest
        (if (maxR <? R)%float then (R, i) else maxR_Index)
  end.

Definition no_maximum : double * Z := ((- DBL_MAX)%float, -1).

Definition CalculateIndexOfMaxR_Sequential (f : Function) (y : list Segment)
    (m : double) : double * Z :=
  CalculateIndexOfMaxR_loop f m 0 y no_maximum.

(** ** Message passing *)

(** The messages a process has sent, each with the rank it is addressed to. *)
Definition mailbox (A : Type) : Type := list (Z * A).

(** [MPI_Recv] by process [rank] from the owner of the mailbox: the first
    message addressed to [rank]. *)
Fixpoint MPI_Recv {A} (sent : mailbox A) (rank : Z) : result A :=
  match sent with
  | [] => Err Deadlock
  | (dest, msg) :: rest => if dest =? rank then Ok msg else MPI_Recv rest rank
  end.

(** The block of [count] segments that starts at [&y.at(first)]. *)
Definition segment_block (y : list Segment) (first count : Z) : result (list Segment) :=
  _ ← vec_at y first;
  if first + count <=? size y
  then Ok (take (Z.to_nat count) (drop (Z.to_nat first) y))
  else Err UndefinedBehaviour.

(** [std::vector<Segment>(y.begin(), y.begin() + count)]. *)
Definition segment_prefix (y : list Segment) (count : Z) : result (list Segment) :=
  if count <=? size y then Ok (take (Z.to_nat count) y) else Err UndefinedBehaviour.

(** [MPI_MAX] on two doubles. *)
Definition MPI_MAX (a b : double) : double := if (a <? b)%float then b else a.

(** ** Calculate_M, parallel (lines 109-148) *)

(** The coordinator's sends (lines 123-130). *)
Definition Calculate_M_sends (ws : WorkSplitter) (y : list Segment) (procCount : Z)
    : result (mailbox (list Segment)) :=
  for_range 1 procCount
    (fun procNum sent =>
       workForProc ← GetPartWork ws (int_to_size_t procNum);
       if workForProc =? 0 then Ok sent
       else
         workForPrevProc ← GetPrevPartWork ws (int_to_size_t procNum);
         block ← segment_block y workForPrevProc workForProc;
         Ok (sent ++ [(procNum, block)]))
    [].

(** [localY] of process [rank] (lines 117-139). *)
Definition Calculate_M_localY (procCount rank : Z) (y : list Segment)
    : result (list Segment) :=
  ws ← WorkSplitter_new (size y) (int_to_size_t procCount);
  workForThisProc ← GetPartWork ws (int_to_size_t rank);
  if rank =? 0 then
    _ ← Calculate_M_sends ws y procCount;
    segment_prefix y workForThisProc
  else if workForThisProc =? 0 then Ok []
  else
    ws0 ← WorkSplitter_new (size y) (int_to_size_t procCount);
    sent ← Calculate_M_sends ws0 y procCount;
    MPI_Recv sent rank.

(** The value of [M] on process [rank] (line 141). *)
Definition Calculate_M_local (procCount rank : Z) (f : Function) (y : list Segment)
    : result double :=
  localY ← Calculate_M_localY procCount rank y;
  Ok (Calculate_M_Sequential f localY).

(** What [MPI_Reduce] with [MPI_MAX] leaves on the root, process 0: the
    values of all processes combined in rank order. *)
Definition Calculate_M_Parallel (procCount : Z) (f : Function) (y : list Segment)
    : result double :=
  M0 ← Calculate_M_local procCount 0 f y;
  for_range 1 procCount
    (fun procNum acc => M ← Calculate_M_local procCount procNum f y; Ok (MPI_MAX acc M))
    M0.

(** ** CalculateIndexOfMaxR, parallel (lines 215-295) *)

(** The coordinator's sends (lines 232-242); the state is [distributedWork]
    and the messages sent so far. *)
Definition CalculateIndexOfMaxR_sends (ws : WorkSplitter) (y : list Segment)
    (procCount workForThisProc : Z) : result (Z * mailbox (list Segment)) :=
  for_range 1 procCount
    (fun procNum '(distributedWork, sent) =>
       workForProc ← GetPartWork ws (int_to_size_t procNum);
       sent' ← (if workForProc =? 0 then Ok sent
                else block ← segment_block y distributedWork workForProc;
                     Ok (sent ++ [(procNum, block)]));
       Ok (size_t_wrap (distributedWork + workForProc), sent'))
    (workForThisProc, []).

(** [localY] of process [rank] (lines 226-251). *)
Definition CalculateIndexOfMaxR_localY (procCount rank : Z) (y : list Segment)
    : result (list Segment) :=
  ws ← WorkSplitter_new (size y) (int_to_size_t procCount);
  workForThisProc ← GetPartWork ws (int_to_size_t rank);
  if rank =? 0 then
    _ ← CalculateIndexOfMaxR_sends ws y procCount workForThisProc;
    segment_prefix y workForThisProc
  else if workForThisProc =? 0 then Ok []
  else
    ws0 ← WorkSplitter_new (size y) (int_to_size_t procCount);
    workForProc0 ← GetPartWork ws0 (int_to_size_t 0);
    sends ← CalculateIndexOfMaxR_sends ws0 y procCount workForProc0;
    MPI_Recv (snd sends) rank.

(** [indexOfMaxR] of process [rank] (lines 253-254). *)
Definition CalculateIndexOfMaxR_local (procCount rank : Z) (f : Function)
    (y : list Segment) (m : double) : result (double * Z) :=
  localY ← CalculateIndexOfMaxR_localY procCount rank y;
  Ok (CalculateIndexOfMaxR_Sequential f localY m).

(** [std::max_element(first, last, comp)]: the iterator [largest], a
    position with the element it points to, moves to the head of [l], at
    position [i], when [comp] puts the element it points to before it. *)
Fixpoint max_element_from {A} (comp : A -> A -> bool) (largest : Z * A) (i : Z)
    (l : list A) : Z * A :=
  match l with
  | [] => largest
  | x :: rest =>
      max_element_from comp (if comp (snd largest) x then (i, x) else largest) (i + 1) rest
  end.

(** The position of the first greatest element; the position past the end
    for an empty range. *)
Definition max_element {A} (comp : A -> A -> bool) (l : list A) : Z :=
  match l with
  | [] => 0
  | x :: rest => fst (max_element_from comp (0, x) 1 rest)
  end.

(** The lambda of lines 277-279. *)
Definition first_less (a b : double * Z) : bool := (fst a <? fst b)%float.

(** The coordinator's receives (lines 263-268). *)
Definition CalculateIndexOfMaxR_gather (ws : WorkSplitter) (procCount : Z)
    (f : Function) (y : list Segment) (m : double) (results : list (double * Z))
    : result (list (double * Z)) :=
  for_range 1 procCount
    (fun procNum results =>
       workForProc ← GetPartWork ws (int_to_size_t procNum);
       if workForProc =? 0 then Ok results
       else
         received ← CalculateIndexOfMaxR_local procCount procNum f y m;
         vec_at_set results (int_to_size_t procNum) received)
    results.

(** The value returned on process [rank]. *)
Definition CalculateIndexOfMaxR_Parallel (procCount rank : Z) (f : Function)
    (y : list Segment) (m : double) : result (double * Z) :=
  ws ← WorkSplitter_new (size y) (int_to_size_t procCount);
  indexOfMaxR ← CalculateIndexOfMaxR_local procCount rank f y m;
  if rank =? 0 then
    results ← vec_at_set (replicate (Z.to_nat procCount) no_maximum) 0 indexOfMaxR;
    results ← CalculateIndexOfMaxR_gather ws procCount f y m results;
    let indexOfMaxElement := max_element first_less results in
    selected ← vec_at results indexOfMaxElement;
    offset ← GetPrevPartWork ws indexOfMaxElement;
    Ok (fst selected,
        size_t_to_int (size_t_wrap (int_to_size_t (snd selected) + offset)))
  else Ok (0%float, 0).

(** ** GetMin (lines 302-340) *)

Inductive ExecutionPolicy : Set :=
  | Sequential
  | Parallel (procCount : Z).

(** The two sub-computations as the loop sees them: the value after
    [MPI_Bcast] from process 0, which is the same on every process. *)
Definition Calculate_M (policy : ExecutionPolicy) (f : Function) (y : list Segment)
    : result double :=
  match policy with
  | Sequential => Ok (Calculate_M_Sequential f y)
  | Parallel procCount => Calculate_M_Parallel procCount f y
  end.

Definition CalculateIndexOfMaxR (policy : ExecutionPolicy) (f : Function)
    (y : list Segment) (m : double) : result (double * Z) :=
  match policy with
  | Sequential => Ok (CalculateIndexOfMaxR_Sequential f y m)
  | Parallel procCount => CalculateIndexOfMaxR_Parallel procCount 0 f y m
  end.

Definition r : double := 2%float.
Definition maxIterationCount : Z := 100000.

(** The segment [y.at(indexOfMaxR.second)] of one pass (lines 312-321). *)
Definition winning_segment (policy : ExecutionPolicy) (f : Function)
    (y : list Segment) : result (double * Z * Segment) :=
  _M ← Calculate_M policy f y;
  m ← Calculate_m _M r;
  indexOfMaxR ← CalculateIndexOfMaxR policy f y m;
  currentSegment ← vec_at y (int_to_size_t (snd indexOfMaxR));
  Ok (m, snd indexOfMaxR, currentSegment).

Definition new_point (f : Function) (m : double) (seg : Segment) : double :=
  let y_begin := seg_begin seg in
  let y_end := seg_end seg in
  (y_begin + (y_end - y_begin) / 2 + (f y_end - f y_begin) / (2 * m))%float.

(** How one pass of the loop ends. *)
Inductive pass : Set :=
  | Return (value : double)
  | Next (y : list Segment).

Definition GetMin_pass (policy : ExecutionPolicy) (f : Function) (epsilon : double)
    (y : list Segment) : result pass :=
  '(m, index, currentSegment) ← winning_segment policy f y;
  let y_begin := seg_begin currentSegment in
  let y_end := seg_end currentSegment in
  if (y_end - y_begin <? epsilon)%float then Ok (Return (f y_end))
  else
    let yn := new_point f m currentSegment in
    let y := y ++ [{| seg_begin := y_begin; seg_end := yn |}] in
    selected ← vec_at y (int_to_size_t index);
    y ← vec_at_set y (int_to_size_t index)
          {| seg_begin := yn; seg_end := seg_end selected |};
    Ok (Next y).

(** The loop with [remaining] passes to go; the result comes with the value
    of [iterationIndex] on exit. *)
Fixpoint GetMin_loop (policy : ExecutionPolicy) (f : Function) (epsilon : double)
    (remaining : nat) (iterationIndex : Z) (y : list Segment) : result double * Z :=
  match remaining with
  | O => (Ok NAN, iterationIndex)
  | S remaining' =>
      match GetMin_pass policy f epsilon y with
      | Ok (Return value) => (Ok value, iterationIndex)
      | Ok (Next y') => GetMin_loop policy f epsilon remaining' (iterationIndex + 1) y'
      | Err e => (Err e, iterationIndex)
      end
  end.

Definition GetMin_run (policy : ExecutionPolicy) (f : Function) (a b epsilon : double)
    : result double * Z :=
  GetMin_loop policy f epsilon (Z.to_nat maxIterationCount) 0
    [{| seg_begin := a; seg_end := b |}].

Definition GetMin (policy : ExecutionPolicy) (f : Function) (a b epsilon : double)
    : result double :=
  fst (GetMin_run policy f a b epsilon).

Definition GetMinSequential (f : Function) (a b epsilon : double) : result double :=
  GetMin Sequential f a b epsilon.

Definition GetMinParallel (procCount : Z) (f : Function) (a b epsilon : double)
    : result double :=
  GetMin (Parallel procCount) f a b epsilon.

(** The segment collection at the start of pass [k] (counted from 0), when
    the passes before it all went on to the next. *)
Fixpoint segments_at (policy : ExecutionPolicy) (f : Function) (epsilon : double)
    (k : nat) (y : list Segment) : option (list Segment) :=
  match k with
  | O => Some y
  | S k' =>
      match GetMin_pass policy f epsilon y with
      | Ok (Next y') => segments_at policy f epsilon k' y'
      | _ => None
      end
  end.

(** ** Definitions used to state the properties *)

(** *** The work splitter *)

Definition sum_Z (l : list Z) : Z := foldr Z.add 0 l.

(** [ceil (a / b)] on non-negative integers. *)
Definition ceil_div (a b : Z) : Z := (a + b - 1) / b.

(** The units the second loop of the constructor hands out, one entry per
    pass, when it starts with [work] units for [n] workers. *)
Fixpoint shares (work : Z) (n : nat) : list Z :=
  match n with
  | O => []
  | S n' => work / Z.of_nat n :: shares (work - work / Z.of_nat n) n'
  end.

(** The closed form of entry [i] of that list: the floor of the quotient for
    the first workers, one more for the last [work mod workerCount]. *)
Definition share (work workerCount i : Z) : Z :=
  if i <? workerCount - work mod workerCount
  then work / workerCount
  else work / workerCount + 1.

(** The distribution the constructor computes, by branch. *)
Definition distribution (work workerCount : Z) : list Z :=
  if work <=? workerCount
  then replicate (Z.to_nat work) 1 ++ replicate (Z.to_nat (workerCount - work)) 0
  else shares work (Z.to_nat workerCount).

(** What holds of the state on entry to a pass of the second loop of the
    constructor built for [workerCount] workers. *)
Definition pass_ok (workerCount : Z) (s : split_state) : Prop :=
  1 <= st_workerCount s /\
  1 <= st_work s / st_workerCount s /\
  st_work s - st_work s / st_workerCount s < st_work s /\
  0 <= st_currentWorker s < workerCount /\
  size (st_distribution s) = workerCount.

(** *** Maxima of doubles *)

(** A double that is not NaN: the only value that differs from itself. *)
Definition is_number (x : double) : bool := (x =? x)%float.


(** The quotients [|f(end_i) - f(begin_i)| / (end_i - begin_i)] of a
    collection, and those of a list of doubles that are numbers. *)
Definition ratios (f : Function) (y : list Segment) : list double := M_ratio f <$> y.

(** *** The blocks of the processes *)

(** The consecutive blocks of [y] of the lengths [d]. *)
Fixpoint slices (d : list Z) (y : list Segment) : list (list Segment) :=
  match d with
  | [] => []
  | n :: d' => take (Z.to_nat n) y :: slices d' (drop (Z.to_nat n) y)
  end.

(** The units of the workers before worker [k], and the block of worker [k]. *)
Definition prefix_sum (d : list Z) (k : nat) : Z := sum_Z (take k d).
Definition slice (d : list Z) (y : list Segment) (k : nat) : list Segment :=
  take (Z.to_nat (d !!! k)) (drop (Z.to_nat (prefix_sum d k)) y).

(** The messages the coordinator has sent once it has served the
    processes [1 .. c]: a block for each of them that has work. *)
Definition outbox (d : list Z) (y : list Segment) (c : nat) : mailbox (list Segment) :=
  j ← seq 1 c;
  if d !!! j =? 0 then [] else [(Z.of_nat j, slice d y j)].

(** The policies of an MPI world: the sequential one, and the parallel one
    for a count of processes that is an [int] of at least 1. *)
Definition policy_ok (policy : ExecutionPolicy) : Prop :=
  match policy with
  | Sequential => True
  | Parallel procCount => 1 <= procCount <= INT_MAX
  end.

(** *** The scan for the greatest characteristic *)

(** What holds of the running pair after the scan of [pre]: it is the
    starting pair and no characteristic is above [-DBL_MAX], or it holds
    the first position of [pre] whose characteristic is the greatest. *)
Definition scanned (f : Function) (m : double) (pre : list Segment) (acc : double * Z)
    : Prop :=
  (forall seg, seg ∈ pre -> (fst acc <? characteristic f m seg)%float = false) /\
  (acc = no_maximum \/
   0 <= snd acc < size pre /\
   (- DBL_MAX <? fst acc)%float = true /\
   (exists seg, pre !! Z.to_nat (snd acc) = Some seg /\
                characteristic f m seg = fst acc) /\
   (forall j seg, (j < Z.to_nat (snd acc))%nat -> pre !! j = Some seg ->
                  (fst acc <=? characteristic f m seg)%float = false)).

(** *** Partitions of the interval *)




(** The collection after the pass that refines the segment at position
    [i], which is [seg], at the point [yn]: the segment keeps its end and
    starts at [yn], and the segment from its old start to [yn] is appended. *)
Definition refine (y : list Segment) (i : nat) (seg : Segment) (yn : double)
    : list Segment :=
  <[i := {| seg_begin := yn; seg_end := seg_end seg |}]> y
  ++ [{| seg_begin := seg_begin seg; seg_end := yn |}].

(** The value of [m] in the first pass of [GetMin] on [[a, b]]. *)
Definition first_m (f : Function) (a b : double) : double :=
  let M := Calculate_M_Sequential f [{| seg_begin := a; seg_end := b |}] in
  if (M =? 0)%float then 1%float else (r * M)%float.

(** *** Inputs of the examples *)

(** The constant function 0, the segment between 1 and the next double, and
    the segment from 1 to 1. *)
Definition zero_function : Function := fun _ => 0%float.
Definition tight_segment : Segment :=
  {| seg_begin := 1%float; seg_end := 0x1.0000000000001p+0%float |}.
Definition point_segment : Segment :=
  {| seg_begin := 1%float; seg_end := 1%float |}.

(* ================================================================= *)
(** * Properties *)

(** ** The order of the doubles

    The comparisons of IEEE 754, through their specification on
    [spec_float]: [<] is a strict order, total on the numbers, and false as
    soon as one side is NaN. *)

Ltac sf_cases :=
  repeat match goal with
  | x : spec_float |- _ => destruct x as [[]|[]| |[] ? ?]
  end; simpl in *; try discriminate; try reflexivity; auto.

Ltac cmp_cases :=
  repeat match goal with
  | H : context [Z.compare ?a ?b] |- _ =>
      destruct (Z.compare_spec a b); simpl in H; try discriminate
  | |- context [Z.compare ?a ?b] =>
      destruct (Z.compare_spec a b); simpl; try lia
  | H : context [Pos.compare_cont Eq ?a ?b] |- _ =>
      change (Pos.compare_cont Eq a b) with (Pos.compare a b) in H;
      destruct (Pos.compare_spec a b); simpl in H; try discriminate
  | |- context [Pos.compare_cont Eq ?a ?b] =>
      change (Pos.compare_cont Eq a b) with (Pos.compare a b);
      destruct (Pos.compare_spec a b); simpl; try lia
  end; subst; try lia; try discriminate; auto.

Ltac sf_order := unfold SFltb, SFleb, SFeqb, SFcompare; intros; sf_cases; cmp_cases.

Lemma SFltb_trans x y z : SFltb x y = true -> SFltb y z = true -> SFltb x z = true.
Proof. sf_order. Qed.

Lemma SFltb_cotrans x y z :
  SFeqb y y = true -> SFltb x z = true -> SFltb x y = true \/ SFltb y z = true.
Proof. sf_order. Qed.

Lemma SFltb_irrefl x : SFltb x x = false.
Proof. sf_order. Qed.

Lemma SFltb_number_r x y : SFltb x y = true -> SFeqb y y = true.
Proof. sf_order. Qed.

Lemma SFltb_leb x y : SFltb x y = true -> SFleb x y = true.
Proof. sf_order. Qed.

Lemma SFleb_trans x y z : SFleb x y = true -> SFleb y z = true -> SFleb x z = true.
Proof. sf_order. Qed.

Lemma SFleb_refl x : SFeqb x x = true -> SFleb x x = true.
Proof. sf_order. Qed.

Lemma SFnot_ltb_leb x y :
  SFeqb x x = true -> SFeqb y y = true -> SFltb x y = false -> SFleb y x = true.
Proof. sf_order. Qed.

Lemma SFleb_not_ltb x y : SFleb x y = true -> SFltb y x = false.
Proof. sf_order. Qed.

Lemma SFleb_number_r x y : SFleb x y = true -> SFeqb y y = true.
Proof. sf_order. Qed.


Section DoubleOrder.
Local Open Scope float_scope.
Implicit Types x y z : double.

Lemma ltb_trans x y z : (x <? y) = true -> (y <? z) = true -> (x <? z) = true.
Proof. rewrite !ltb_spec. apply SFltb_trans. Qed.

Lemma ltb_cotrans x y z :
  is_number y = true -> (x <? z) = true -> (x <? y) = true \/ (y <? z) = true.
Proof. unfold is_number. rewrite !ltb_spec, FloatAxioms.eqb_spec. apply SFltb_cotrans. Qed.

Lemma ltb_irrefl x : (x <? x) = false.
Proof. rewrite ltb_spec. apply SFltb_irrefl. Qed.

Lemma ltb_number_r x y : (x <? y) = true -> is_number y = true.
Proof. unfold is_number. rewrite ltb_spec, FloatAxioms.eqb_spec. apply SFltb_number_r. Qed.

Lemma ltb_leb x y : (x <? y) = true -> (x <=? y) = true.
Proof. rewrite ltb_spec, leb_spec. apply SFltb_leb. Qed.

Lemma leb_trans x y z : (x <=? y) = true -> (y <=? z) = true -> (x <=? z) = true.
Proof. rewrite !leb_spec. apply SFleb_trans. Qed.

Lemma leb_refl x : is_number x = true -> (x <=? x) = true.
Proof. unfold is_number. rewrite leb_spec, FloatAxioms.eqb_spec. apply SFleb_refl. Qed.

Lemma not_ltb_leb x y :
  is_number x = true -> is_number y = true -> (x <? y) = false -> (y <=? x) = true.
Proof.
  unfold is_number. rewrite ltb_spec, leb_spec, !FloatAxioms.eqb_spec.
  apply SFnot_ltb_leb.
Qed.

Lemma leb_not_ltb x y : (x <=? y) = true -> (y <? x) = false.
Proof. rewrite ltb_spec, leb_spec. apply SFleb_not_ltb. Qed.

Lemma leb_number_r x y : (x <=? y) = true -> is_number y = true.
Proof. unfold is_number. rewrite leb_spec, FloatAxioms.eqb_spec. apply SFleb_number_r. Qed.

End DoubleOrder.

(** ** Rounding keeps a product of a double above 1 and a positive double
    positive *)

Lemma digits2_pos_size p : digits2_pos p = Pos.size p.
Proof. induction p; simpl; congruence. Qed.

Lemma Zdigits2_log2 p : Zpos (digits2_pos p) = Z.log2 (Zpos p) + 1.
Proof.
  rewrite digits2_pos_size. destruct p; simpl; rewrite ?Pos2Z.inj_succ; lia.
Qed.

Lemma Zdigits2_lower p : 2 ^ (Zpos (digits2_pos p) - 1) <= Zpos p.
Proof.
  rewrite Zdigits2_log2. replace (Z.log2 (Zpos p) + 1 - 1) with (Z.log2 (Zpos p)) by lia.
  apply Z.log2_spec. lia.
Qed.

Lemma Zdigits2_mul p q :
  Zpos (digits2_pos p) + Zpos (digits2_pos q) - 1 <= Zpos (digits2_pos (p * q)).
Proof.
  rewrite !Zdigits2_log2, Pos2Z.inj_mul.
  pose proof (Z.log2_mul_below (Zpos p) (Zpos q) ltac:(lia) ltac:(lia)). lia.
Qed.

Lemma shr_m_shr_1 mrs : 0 <= shr_m mrs -> shr_m (shr_1 mrs) = shr_m mrs / 2.
Proof.
  destruct mrs as [m rb sb]. cbn [shr_m]. intros Hm.
  destruct m as [|[p|p|]|p]; try lia; cbn [shr_1 shr_m].
  - reflexivity.
  - rewrite Pos2Z.inj_xI. apply (Z.div_unique_pos _ _ _ 1); lia.
  - rewrite Pos2Z.inj_xO. apply (Z.div_unique_pos _ _ _ 0); lia.
  - reflexivity.
Qed.

Lemma shr_m_iter p : forall mrs,
  0 <= shr_m mrs -> shr_m (SpecFloat.iter_pos shr_1 p mrs) = shr_m mrs / 2 ^ Zpos p.
Proof.
  induction p as [p IH|p IH|]; intros mrs Hm; cbn [SpecFloat.iter_pos].
  - assert (0 <= shr_m (shr_1 mrs)) by (rewrite shr_m_shr_1 by lia; apply Z.div_pos; lia).
    assert (0 <= shr_m (SpecFloat.iter_pos shr_1 p (shr_1 mrs)))
      by (rewrite IH by lia; apply Z.div_pos; lia).
    rewrite IH, IH, shr_m_shr_1 by lia.
    rewrite !Z.div_div by lia. f_equal.
    rewrite Pos2Z.inj_xI, <- Z.pow_add_r by lia.
    replace (2 * Z.pos p + 1) with (Z.succ (Z.pos p + Z.pos p)) by lia.
    now rewrite Z.pow_succ_r by lia.
  - assert (0 <= shr_m (SpecFloat.iter_pos shr_1 p mrs))
      by (rewrite IH by lia; apply Z.div_pos; lia).
    rewrite IH, IH by lia.
    rewrite !Z.div_div by lia. f_equal.
    rewrite Pos2Z.inj_xO, <- !Z.pow_add_r by lia. f_equal; lia.
  - now apply shr_m_shr_1.
Qed.

Lemma shr_m_record_of_loc m l : shr_m (shr_record_of_loc m l) = m.
Proof. now destruct l as [|[]]. Qed.

(** Shifting a positive mantissa to its format exponent leaves it positive,
    provided it has more digits than the shift, and leaves the exponent at or
    above [emin]. *)
Lemma shr_fexp_positive p e l :
  emin - e < Zpos (digits2_pos p) ->
  1 <= shr_m (fst (shr_fexp prec emax (Zpos p) e l)) /\
  emin <= snd (shr_fexp prec emax (Zpos p) e l).
Proof.
  intros Hd. unfold shr_fexp, shr, fexp. cbn [Zdigits2].
  set (d := Zpos (digits2_pos p)) in *.
  assert (Hemin : emin = -1074) by reflexivity.
  assert (Hprec : prec = 53) by reflexivity.
  destruct (Z.max (d + e - prec) (emin) - e) as [|n|n] eqn:En;
    cbn [fst snd]; rewrite ?shr_m_record_of_loc; try lia.
  rewrite shr_m_iter by (rewrite shr_m_record_of_loc; lia).
  rewrite shr_m_record_of_loc. split; [|lia].
  apply Z.div_le_lower_bound; [lia|]. rewrite Z.mul_1_r.
  pose proof (Zdigits2_lower p). fold d in H.
  assert (2 ^ Zpos n <= 2 ^ (d - 1)) by (apply Z.pow_le_mono_r; lia). lia.
Qed.

Lemma round_nearest_even_ge m l : m <= round_nearest_even m l.
Proof. destruct l as [|[]]; cbn; try lia. destruct (Z.even m); lia. Qed.

Lemma binary_round_aux_positive p e :
  emin - e < Zpos (digits2_pos p) ->
  SFltb (S754_zero false) (binary_round_aux prec emax false (Zpos p) e loc_Exact) = true.
Proof.
  intros Hd. unfold binary_round_aux.
  pose proof (shr_fexp_positive p e loc_Exact Hd) as [H1 He].
  destruct (shr_fexp prec emax (Zpos p) e loc_Exact) as [mrs' e']. cbn [fst snd] in *.
  pose proof (round_nearest_even_ge (shr_m mrs') (loc_of_shr_record mrs')) as Hr.
  destruct (round_nearest_even (shr_m mrs') (loc_of_shr_record mrs')) as [|q|q]; try lia.
  pose proof (shr_fexp_positive q e' loc_Exact ltac:(lia)) as [H2 _].
  destruct (shr_fexp prec emax (Zpos q) e' loc_Exact) as [mrs'' e'']. cbn [fst snd] in *.
  destruct (shr_m mrs'') as [|m|m]; try lia.
  now destruct (e'' <=? emax - prec).
Qed.

Lemma SFmul_positive sr sM :
  valid_binary sr = true -> valid_binary sM = true ->
  SFltb (Prim2SF 1) sr = true -> SFltb (S754_zero false) sM = true ->
  SFltb (S754_zero false) (SF64mul sr sM) = true.
Proof.
  intros Hvr HvM Hr HM.
  destruct sr as [[]|[]| |[] mr er]; try discriminate;
  destruct sM as [[]|[]| |[] mM eM]; try discriminate; try reflexivity.
  unfold SF64mul, SFmul. cbn [xorb].
  apply binary_round_aux_positive.
  cbn [valid_binary] in Hvr, HvM. unfold bounded, canonical_mantissa, fexp in Hvr, HvM.
  apply andb_prop in Hvr as [Hcr _]. apply andb_prop in HvM as [HcM _].
  apply Z.eqb_eq in Hcr, HcM.
  assert (Hemin : emin = -1074) by reflexivity.
  assert (Hprec : prec = 53) by reflexivity.
  assert (Her : -52 <= er).
  { change (Prim2SF 1) with (S754_finite false 4503599627370496 (-52)) in Hr.
    unfold SFltb, SFcompare in Hr.
    destruct (Z.compare (-52) er) eqn:E;
      [apply Z.compare_eq_iff in E; clear -E; lia
      |change (-52 < er) in E; clear -E; lia
      |discriminate]. }
  pose proof (Zdigits2_mul mr mM).
  assert (1 <= Zpos (digits2_pos mM)) by lia.
  lia.
Qed.

Lemma mul_positive (x M : double) :
  (1 <? x)%float = true -> (0 <? M)%float = true -> (0 <? x * M)%float = true.
Proof.
  rewrite !ltb_spec, mul_spec. apply SFmul_positive; apply Prim2SF_valid.
Qed.

Lemma leb_zero_cases (M : double) :
  (0 <=? M)%float = true -> (M =? 0)%float = true \/ (0 <? M)%float = true.
Proof.
  rewrite leb_spec, ltb_spec, FloatAxioms.eqb_spec.
  change (Prim2SF 0) with (S754_zero false). generalize (Prim2SF M). sf_order.
Qed.

(** ** Machine integers and vectors *)

Lemma size_t_wrap_small z : 0 <= z < 2 ^ 64 -> size_t_wrap z = z.
Proof. intros H. unfold size_t_wrap. apply Z.mod_small; lia. Qed.

Lemma int_to_size_t_small z : 0 <= z < 2 ^ 64 -> int_to_size_t z = z.
Proof. intros H. unfold int_to_size_t. apply Z.mod_small; lia. Qed.

Lemma vec_set_ok {A} (v : list A) i x :
  0 <= i < size v -> vec_set v i x = Ok (<[Z.to_nat i := x]> v).
Proof. intros H. unfold vec_set. rewrite bool_decide_eq_true_2; auto. Qed.

Lemma vec_at_set_ok {A} (v : list A) i x :
  0 <= i < size v -> vec_at_set v i x = Ok (<[Z.to_nat i := x]> v).
Proof. intros H. unfold vec_at_set. rewrite bool_decide_eq_true_2; auto. Qed.

Lemma vec_get_ok {A} (v : list A) i x :
  0 <= i -> v !! Z.to_nat i = Some x -> vec_get v i = Ok x.
Proof.
  intros Hi Hx. unfold vec_get, size.
  apply lookup_lt_Some in Hx as Hlt.
  rewrite bool_decide_eq_true_2 by lia. now rewrite Hx.
Qed.

Lemma vec_at_ok {A} (v : list A) i x :
  0 <= i -> v !! Z.to_nat i = Some x -> vec_at v i = Ok x.
Proof.
  intros Hi Hx. unfold vec_at, size.
  apply lookup_lt_Some in Hx as Hlt.
  rewrite bool_decide_eq_true_2 by lia. now rewrite Hx.
Qed.

Lemma vec_at_out {A} (v : list A) i :
  ~ (0 <= i < size v) -> vec_at v i = Err OutOfRange.
Proof. intros H. unfold vec_at. now rewrite bool_decide_eq_false_2. Qed.

Lemma vec_at_inv {A} (v : list A) i x :
  vec_at v i = Ok x -> 0 <= i < size v /\ v !! Z.to_nat i = Some x.
Proof.
  unfold vec_at. case_bool_decide; [|discriminate].
  destruct (v !! Z.to_nat i) eqn:E; [|discriminate].
  intros [= ->]. auto.
Qed.

(** ** Loops *)

Lemma for_each_app {St} (body : Z -> St -> result St) l1 l2 s :
  for_each body (l1 ++ l2) s = s' ← for_each body l1 s; for_each body l2 s'.
Proof.
  revert s. induction l1 as [|i l1 IH]; intros s; simpl; [reflexivity|].
  destruct (body i s) as [s'|e]; simpl; [apply IH|reflexivity].
Qed.

Lemma for_range_empty {St} (body : Z -> St -> result St) lo hi s :
  hi <= lo -> for_range lo hi body s = Ok s.
Proof.
  intros H. unfold for_range. now rewrite seqZ_nil by lia.
Qed.

Lemma for_range_snoc {St} (body : Z -> St -> result St) lo hi s :
  lo <= hi ->
  for_range lo (hi + 1) body s = s' ← for_range lo hi body s; body hi s'.
Proof.
  intros H. unfold for_range.
  replace (hi + 1 - lo) with ((hi - lo) + 1) by lia.
  rewrite seqZ_app by lia. rewrite for_each_app.
  rewrite (seqZ_cons _ 1) by lia. rewrite seqZ_nil by lia. simpl.
  replace (lo + (hi - lo)) with hi by lia.
  destruct (for_each body (seqZ lo (hi - lo)) s) as [s'|e]; simpl; [|reflexivity].
  now destruct (body hi s').
Qed.

(** ** WorkSplitter *)

Lemma sum_Z_app l1 l2 : sum_Z (l1 ++ l2) = sum_Z l1 + sum_Z l2.
Proof. unfold sum_Z. induction l1 as [|x l1 IH]; simpl; lia. Qed.

Lemma sum_Z_replicate n x : sum_Z (replicate n x) = Z.of_nat n * x.
Proof. unfold sum_Z. induction n as [|n IH]; simpl; lia. Qed.

Lemma sum_Z_nonneg l : Forall (fun x => 0 <= x) l -> 0 <= sum_Z l.
Proof. unfold sum_Z. induction 1; simpl; lia. Qed.

Lemma sum_Z_take_le l k :
  Forall (fun x => 0 <= x) l -> 0 <= sum_Z (take k l) <= sum_Z l.
Proof.
  intros H. rewrite <- (take_drop k l) at 3. rewrite sum_Z_app.
  pose proof (sum_Z_nonneg (take k l) (Forall_take _ _ _ H)).
  pose proof (sum_Z_nonneg (drop k l) (Forall_drop _ _ _ H)). lia.
Qed.

Lemma length_shares work n : length (shares work n) = n.
Proof. revert work. induction n as [|n IH]; intros work; simpl; auto. Qed.

(** The entries handed out add up to the work, whatever it is. *)
Lemma sum_shares work n : (1 <= n)%nat -> sum_Z (shares work n) = work.
Proof.
  revert work. induction n as [|n IH]; intros work Hn; [lia|].
  change (sum_Z (shares work (S n)))
    with (work / Z.of_nat (S n) + sum_Z (shares (work - work / Z.of_nat (S n)) n)).
  destruct n as [|n].
  - change (Z.of_nat 1) with 1. rewrite Z.div_1_r. unfold sum_Z. simpl. lia.
  - rewrite IH by lia. lia.
Qed.

(** One pass of the loop leaves the closed form of the later entries as it
    was. *)
Lemma share_step work wc j :
  2 <= wc <= work -> 1 <= j < wc ->
  share (work - work / wc) (wc - 1) (j - 1) = share work wc j.
Proof.
  intros Hwc Hj. unfold share.
  pose proof (Z.div_mod work wc ltac:(lia)) as Hdm.
  pose proof (Z.mod_pos_bound work wc ltac:(lia)) as Hr.
  set (q := work / wc) in *. set (rm := work mod wc) in *.
  destruct (Z.eq_dec rm (wc - 1)) as [Heq|Hne].
  - assert (Hw : work - q = (q + 1) * (wc - 1)) by nia.
    rewrite Hw, Z.div_mul, Z.mod_mul by lia.
    destruct (j - 1 <? wc - 1 - 0) eqn:E1, (j <? wc - rm) eqn:E2; lia.
  - assert (Hq : (work - q) / (wc - 1) = q).
    { symmetry. apply (Z.div_unique_pos _ _ _ rm); nia. }
    assert (Hm : (work - q) mod (wc - 1) = rm).
    { symmetry. apply (Z.mod_unique_pos _ _ q); nia. }
    rewrite Hq, Hm.
    destruct (j - 1 <? wc - 1 - rm) eqn:E1, (j <? wc - rm) eqn:E2; lia.
Qed.

Lemma work_after_pass work wc :
  2 <= wc <= work -> wc - 1 <= work - work / wc.
Proof.
  intros H.
  pose proof (Z.div_mod work wc ltac:(lia)).
  pose proof (Z.mod_pos_bound work wc ltac:(lia)).
  assert (1 <= work / wc) by (apply Z.div_le_lower_bound; lia).
  nia.
Qed.

Lemma lookup_shares n : forall work j,
  (1 <= n)%nat -> Z.of_nat n <= work -> (j < n)%nat ->
  shares work n !! j = Some (share work (Z.of_nat n) (Z.of_nat j)).
Proof.
  induction n as [|n IH]; intros work j Hn Hwork Hj; [lia|].
  destruct j as [|j].
  - simpl shares. simpl lookup. f_equal. unfold share.
    pose proof (Z.mod_pos_bound work (Z.of_nat (S n)) ltac:(lia)).
    destruct (Z.ltb_spec (Z.of_nat 0) (Z.of_nat (S n) - work `mod` Z.of_nat (S n)));
      [reflexivity|lia].
  - simpl shares. change ((?x :: ?l) !! S j) with (l !! j).
    destruct n as [|n]; [lia|].
    rewrite IH; [|lia| |lia].
    + f_equal. rewrite <- (share_step work (Z.of_nat (S (S n))) (Z.of_nat (S j))) by lia.
      f_equal; lia.
    + pose proof (work_after_pass work (Z.of_nat (S (S n))) ltac:(lia)). lia.
Qed.

Lemma ceil_div_spec work wc :
  0 < wc ->
  ceil_div work wc = work / wc + (if work mod wc =? 0 then 0 else 1).
Proof.
  intros Hwc. unfold ceil_div.
  pose proof (Z.div_mod work wc ltac:(lia)) as Hdm.
  pose proof (Z.mod_pos_bound work wc ltac:(lia)) as Hr.
  set (q := work / wc) in *. set (rm := work mod wc) in *.
  destruct (Z.eqb_spec rm 0) as [Hz|Hnz]; symmetry.
  - apply (Z.div_unique_pos _ _ _ (wc - 1)); nia.
  - apply (Z.div_unique_pos _ _ _ (rm - 1)); nia.
Qed.

Lemma share_bounds work wc i :
  0 < wc -> i < wc -> work / wc <= share work wc i <= ceil_div work wc.
Proof.
  intros Hwc Hi. unfold share, ceil_div.
  pose proof (Z.div_mod work wc ltac:(lia)) as Hdm.
  pose proof (Z.mod_pos_bound work wc ltac:(lia)) as Hr.
  set (q := work / wc) in *. set (rm := work mod wc) in *.
  destruct (Z.eq_dec rm 0) as [Hz|Hnz].
  - assert ((work + wc - 1) / wc = q) as ->.
    { symmetry. apply (Z.div_unique_pos _ _ _ (wc - 1)); nia. }
    destruct (i <? wc - rm) eqn:E; lia.
  - assert ((work + wc - 1) / wc = q + 1) as ->.
    { symmetry. apply (Z.div_unique_pos _ _ _ (rm - 1)); nia. }
    destruct (i <? wc - rm) eqn:E; lia.
Qed.

Lemma while_passes_done {St} (cond : St -> bool) body fuel s :
  cond s = false -> while_passes cond body fuel s = [].
Proof. intros H. destruct fuel; simpl; now rewrite H. Qed.

Lemma while_step {St} (cond : St -> bool) body fuel s s' :
  cond s = true -> body s = Ok s' ->
  while cond body (S fuel) s = while cond body fuel s'.
Proof. intros Hc Hb. simpl. now rewrite Hc, Hb. Qed.

Lemma while_passes_step {St} (cond : St -> bool) body fuel s s' :
  cond s = true -> body s = Ok s' ->
  while_passes cond body (S fuel) s = s :: while_passes cond body fuel s'.
Proof. intros Hc Hb. simpl. now rewrite Hc, Hb. Qed.

Lemma split_cond_true dist work wc cw :
  work <> 0 ->
  split_cond {| st_distribution := dist; st_work := work;
                st_workerCount := wc; st_currentWorker := cw |} = true.
Proof. intros H. unfold split_cond. cbn [st_work]. now destruct (Z.eqb_spec work 0). Qed.

Lemma split_body_ok dist work wc cw :
  1 <= wc <= work -> work < 2 ^ 64 -> 0 <= cw < size dist -> cw + 1 < 2 ^ 64 ->
  split_body {| st_distribution := dist; st_work := work;
                st_workerCount := wc; st_currentWorker := cw |}
  = Ok {| st_distribution := <[Z.to_nat cw := work / wc]> dist;
          st_work := work - work / wc;
          st_workerCount := wc - 1;
          st_currentWorker := cw + 1 |}.
Proof.
  intros Hwc Hlt Hcw Hcw'. unfold split_body.
  cbn [st_work st_workerCount st_currentWorker st_distribution].
  assert ((wc =? 0) = false) as -> by lia.
  rewrite vec_set_ok by lia. cbn [mbind result_bind].
  assert (Hq : 1 <= work / wc) by (apply Z.div_le_lower_bound; lia).
  assert (Hq' : work / wc <= work) by (apply Z.div_le_upper_bound; nia).
  now rewrite !size_t_wrap_small by lia.
Qed.

(** The second loop of the constructor, started with [n] workers left and at
    least as many units (or with none of either), ends after [n] passes with
    the entries [shares work n] written from [currentWorker] on. *)
Lemma split_while_run n : forall dist work cw fuel,
  (n = 0%nat /\ work = 0 \/ (1 <= n)%nat /\ Z.of_nat n <= work) ->
  work < 2 ^ 64 -> 0 <= cw -> cw + Z.of_nat n < 2 ^ 64 ->
  size dist = cw + Z.of_nat n -> (n <= fuel)%nat ->
  while split_cond split_body fuel
    {| st_distribution := dist; st_work := work;
       st_workerCount := Z.of_nat n; st_currentWorker := cw |}
  = Ok {| st_distribution := take (Z.to_nat cw) dist ++ shares work n;
          st_work := 0; st_workerCount := 0;
          st_currentWorker := cw + Z.of_nat n |}.
Proof.
  induction n as [|n IH]; intros dist work cw fuel Hw Hlt Hcw Hsum Hsize Hfuel.
  - destruct Hw as [[_ ->]|[? _]]; [|lia].
    assert (take (Z.to_nat cw) dist = dist) as ->.
    { apply take_ge. unfold size in Hsize. lia. }
    rewrite app_nil_r, Z.add_0_r. now destruct fuel.
  - destruct Hw as [[? _]|[_ Hw]]; [lia|].
    destruct fuel as [|fuel]; [lia|].
    erewrite while_step; [|apply split_cond_true; lia|apply split_body_ok; lia].
    replace (Z.of_nat (S n) - 1) with (Z.of_nat n) by lia.
    rewrite IH.
    + f_equal. f_equal; [|lia].
      change (shares work (S n))
        with (work / Z.of_nat (S n) :: shares (work - work / Z.of_nat (S n)) n).
      replace (Z.to_nat (cw + 1)) with (S (Z.to_nat cw)) by lia.
      assert (Hlen : (Z.to_nat cw < length dist)%nat) by (unfold size in Hsize; lia).
      erewrite take_S_r by (apply list_lookup_insert_eq; lia).
      rewrite take_insert_ge by lia. now rewrite <- app_assoc.
    + destruct n as [|n].
      * left. split; [reflexivity|]. change (Z.of_nat 1) with 1. rewrite Z.div_1_r. lia.
      * right. split; [lia|].
        pose proof (work_after_pass work (Z.of_nat (S (S n))) ltac:(lia)). lia.
    + assert (1 <= work / Z.of_nat (S n)) by (apply Z.div_le_lower_bound; lia). lia.
    + lia.
    + lia.
    + unfold size in *. rewrite length_insert. lia.
    + lia.
Qed.

(** The states of the passes of that loop. *)
Lemma split_while_passes W n : forall dist work cw fuel,
  (1 <= n)%nat -> Z.of_nat n <= work -> work < 2 ^ 64 -> 0 <= cw ->
  cw + Z.of_nat n = W -> W < 2 ^ 64 -> size dist = W -> (n <= fuel)%nat ->
  let passes := while_passes split_cond split_body fuel
    {| st_distribution := dist; st_work := work;
       st_workerCount := Z.of_nat n; st_currentWorker := cw |} in
  length passes = n /\ Forall (pass_ok W) passes.
Proof.
  induction n as [|n IH]; intros dist work cw fuel Hn Hw Hlt Hcw HW HW' Hsize Hfuel; [lia|].
  destruct fuel as [|fuel]; [lia|].
  cbn zeta.
  erewrite while_passes_step; [|apply split_cond_true; lia|apply split_body_ok; lia].
  assert (Hq : 1 <= work / Z.of_nat (S n)) by (apply Z.div_le_lower_bound; lia).
  assert (Hok : pass_ok W {| st_distribution := dist; st_work := work;
       st_workerCount := Z.of_nat (S n); st_currentWorker := cw |}).
  { unfold pass_ok. cbn [st_work st_workerCount st_currentWorker st_distribution]. lia. }
  replace (Z.of_nat (S n) - 1) with (Z.of_nat n) by lia.
  destruct n as [|n].
  - assert (work - work / Z.of_nat 1 = 0) as ->.
    { change (Z.of_nat 1) with 1. rewrite Z.div_1_r. lia. }
    rewrite while_passes_done by reflexivity. split; [reflexivity|]. now constructor.
  - pose proof (work_after_pass work (Z.of_nat (S (S n))) ltac:(lia)).
    edestruct (IH (<[Z.to_nat cw:=work / Z.of_nat (S (S n))]> dist)
                 (work - work / Z.of_nat (S (S n))) (cw + 1) fuel) as [Hl Hf];
      try lia.
    { unfold size in *. rewrite length_insert. lia. }
    cbn zeta in Hl, Hf. split.
    + cbn [length]. now rewrite Hl.
    + constructor; assumption.
Qed.

(** The first loop of the constructor. *)
Lemma fill_ones_run W k :
  (k <= W)%nat ->
  for_range 0 (Z.of_nat k) (fun currentWorker dist => vec_set dist currentWorker 1)
    (replicate W 0)
  = Ok (replicate k 1 ++ replicate (W - k) 0).
Proof.
  induction k as [|k IH]; intros Hk.
  - rewrite for_range_empty by lia. simpl. now rewrite Nat.sub_0_r.
  - replace (Z.of_nat (S k)) with (Z.of_nat k + 1) by lia.
    rewrite for_range_snoc by lia. rewrite IH by lia. cbn [mbind result_bind].
    rewrite vec_set_ok.
    2:{ unfold size. rewrite length_app, !length_replicate. lia. }
    f_equal. rewrite Nat2Z.id.
    rewrite insert_app_r_alt by (rewrite length_replicate; lia).
    rewrite length_replicate, Nat.sub_diag.
    replace (W - k)%nat with (S (W - S k)) by lia. simpl.
    now rewrite cons_middle, app_assoc, <- replicate_S_end.
Qed.

Lemma WorkSplitter_new_ok work workerCount :
  0 <= work < 2 ^ 64 -> 0 <= workerCount < 2 ^ 64 ->
  (workerCount = 0 -> work = 0) ->
  WorkSplitter_new work workerCount
  = Ok {| m_workDistribution := distribution work workerCount |}.
Proof.
  intros Hw Hwc Hz. unfold WorkSplitter_new, distribution.
  destruct (Z.leb_spec work workerCount) as [Hle|Hgt].
  - rewrite <- (Z2Nat.id work) at 1 by lia.
    rewrite fill_ones_run by lia. cbn [mbind result_bind].
    now replace (Z.to_nat workerCount - Z.to_nat work)%nat
      with (Z.to_nat (workerCount - work)) by lia.
  - unfold split_init, split_fuel.
    pose proof (split_while_run (Z.to_nat workerCount)
                  (replicate (Z.to_nat workerCount) 0) work 0
                  (S (Z.to_nat workerCount))) as H.
    rewrite Z2Nat.id in H by lia. rewrite H; try lia.
    + now cbn.
    + unfold size. rewrite length_replicate. lia.
Qed.

Lemma length_distribution work workerCount :
  0 <= work -> 0 <= workerCount ->
  size (distribution work workerCount) = workerCount.
Proof.
  intros Hw Hwc. unfold distribution, size.
  destruct (Z.leb_spec work workerCount).
  - rewrite length_app, !length_replicate. lia.
  - rewrite length_shares. lia.
Qed.

Lemma sum_distribution work workerCount :
  0 <= work -> 0 <= workerCount -> (workerCount = 0 -> work = 0) ->
  sum_Z (distribution work workerCount) = work.
Proof.
  intros Hw Hwc Hz. unfold distribution.
  destruct (Z.leb_spec work workerCount).
  - rewrite sum_Z_app, !sum_Z_replicate. lia.
  - apply sum_shares. lia.
Qed.

Lemma lookup_distribution work workerCount i :
  0 <= work -> 0 <= i < workerCount ->
  distribution work workerCount !! Z.to_nat i
  = Some (if work <=? workerCount then (if i <? work then 1 else 0)
          else share work workerCount i).
Proof.
  intros Hw Hi. unfold distribution.
  destruct (Z.leb_spec work workerCount).
  - destruct (Z.ltb_spec i work).
    + rewrite lookup_app_l by (rewrite length_replicate; lia).
      apply lookup_replicate_2. lia.
    + rewrite lookup_app_r by (rewrite length_replicate; lia).
      apply lookup_replicate_2. rewrite length_replicate. lia.
  - rewrite lookup_shares by lia. now rewrite !Z2Nat.id by lia.
Qed.

Lemma distribution_nonneg work workerCount :
  0 <= work -> 0 <= workerCount ->
  Forall (fun x => 0 <= x) (distribution work workerCount).
Proof.
  intros Hw Hwc. apply Forall_lookup_2. intros n x Hx.
  assert (Hn : Z.of_nat n < workerCount).
  { apply lookup_lt_Some in Hx.
    pose proof (length_distribution work workerCount Hw Hwc). unfold size in *. lia. }
  rewrite <- (Nat2Z.id n), lookup_distribution in Hx by lia.
  injection Hx as <-.
  destruct (Z.leb_spec work workerCount).
  - destruct (Z.of_nat n <? work); lia.
  - pose proof (share_bounds work workerCount (Z.of_nat n) ltac:(lia) ltac:(lia)).
    assert (0 <= work / workerCount) by (apply Z.div_pos; lia). lia.
Qed.

Lemma GetPartWork_ok dist i x :
  0 <= i -> dist !! Z.to_nat i = Some x ->
  GetPartWork {| m_workDistribution := dist |} i = Ok x.
Proof. intros. unfold GetPartWork. cbn. now apply vec_get_ok. Qed.

(** [GetPrevPartWork] is the sum of a prefix of the distribution. *)
Lemma GetPrevPartWork_ok dist k :
  (k <= length dist)%nat -> Forall (fun x => 0 <= x) dist -> sum_Z dist < 2 ^ 64 ->
  GetPrevPartWork {| m_workDistribution := dist |} (Z.of_nat k)
  = Ok (sum_Z (take k dist)).
Proof.
  intros Hk Hpos Hsum. unfold GetPrevPartWork. cbn [m_workDistribution].
  induction k as [|k IH].
  - now rewrite for_range_empty by lia.
  - replace (Z.of_nat (S k)) with (Z.of_nat k + 1) by lia.
    rewrite for_range_snoc by lia. rewrite IH by lia. cbn [mbind result_bind].
    destruct (lookup_lt_is_Some_2 dist k ltac:(lia)) as [x Hx].
    rewrite (vec_at_ok dist (Z.of_nat k) x) by (rewrite ?Nat2Z.id; auto; lia).
    cbn [mbind result_bind]. f_equal.
    pose proof (sum_Z_take_le dist (S k) Hpos) as Hb.
    rewrite (take_S_r _ _ _ Hx), sum_Z_app in Hb |- *.
    change (sum_Z [x]) with (x + 0) in Hb |- *. rewrite Z.add_0_r in Hb |- *.
    apply size_t_wrap_small. lia.
Qed.

(** The bound on the passes of the second loop is never what ends it: a
    pass with no worker left divides by zero first. *)
Lemma split_while_fuel fuel : forall s,
  0 <= st_workerCount s -> (Z.to_nat (st_workerCount s) < fuel)%nat ->
  while split_cond split_body fuel s <> Err OutOfFuel.
Proof.
  induction fuel as [|fuel IH]; intros s Hwc Hfuel; [lia|].
  cbn [while]. destruct (split_cond s); [|discriminate].
  unfold split_body.
  destruct (Z.eqb_spec (st_workerCount s) 0) as [|Hne]; [discriminate|].
  destruct (vec_set _ _ _) as [dist|e] eqn:Hset; cbn [mbind result_bind].
  - apply IH; cbn [st_workerCount]; unfold size_t_wrap.
    + apply Z.mod_pos_bound. lia.
    + pose proof (Z.mod_le (st_workerCount s - 1) (2 ^ 64) ltac:(lia) ltac:(lia)). lia.
  - unfold vec_set in Hset. destruct (bool_decide _); congruence.
Qed.

Lemma for_each_vec_set_fuel (x : Z) indices : forall dist,
  for_each (fun i dist => vec_set dist i x) indices dist <> Err OutOfFuel.
Proof.
  induction indices as [|i indices IH]; intros dist; cbn [for_each]; [discriminate|].
  destruct (vec_set dist i x) as [dist'|e] eqn:E; cbn [mbind result_bind]; [apply IH|].
  unfold vec_set in E. destruct (bool_decide (0 <= i < size dist)); congruence.
Qed.

(** The loop bound of the embedding is never the result of the constructor. *)
Lemma WorkSplitter_new_fuel work workerCount :
  0 <= workerCount -> WorkSplitter_new work workerCount <> Err OutOfFuel.
Proof.
  intros Hwc. unfold WorkSplitter_new. destruct (work <=? workerCount).
  - pose proof (for_each_vec_set_fuel 1 (seqZ 0 (work - 0))
                  (replicate (Z.to_nat workerCount) 0)) as H.
    unfold for_range. destruct (for_each _ _ _); cbn [mbind result_bind]; congruence.
  - pose proof (split_while_fuel (split_fuel workerCount) (split_init work workerCount)
                  Hwc ltac:(unfold split_fuel; cbn; lia)) as H.
    destruct (while _ _ _ _); cbn [mbind result_bind]; congruence.
Qed.

(** With no more units than workers, each of the first [unitCount] workers
    gets one unit and the others none. *)
Theorem WorkSplitter_one_unit_each unitCount workerCount i :
  0 <= unitCount <= workerCount -> workerCount < 2 ^ 64 -> 0 <= i < workerCount ->
  exists ws,
    WorkSplitter_new unitCount workerCount = Ok ws /\
    GetPartWork ws i = Ok (if i <? unitCount then 1 else 0).
Proof.
  intros Hu Hw Hi. eexists. split; [apply WorkSplitter_new_ok; lia|].
  apply GetPartWork_ok; [lia|]. rewrite lookup_distribution by lia.
  now destruct (Z.leb_spec unitCount workerCount); [|lia].
Qed.

Lemma WorkSplitter_one_unit_each_witness :
  exists ws, WorkSplitter_new 2 5 = Ok ws /\ GetPartWork ws 1 = Ok 1.
Proof. apply (WorkSplitter_one_unit_each 2 5 1); lia. Defined.

(** C8: the distribution of a constructed splitter has one entry per
    worker, the entries add up to [unitCount], [GetPrevPartWork] of all the
    workers is [unitCount], and every entry is the floor of
    [unitCount / workerCount] or one more, hence within one unit of the
    quotient, read as an integer or as a fraction. *)
Theorem WorkSplitter_distribution_sums unitCount workerCount :
  0 < unitCount < 2 ^ 64 -> 0 < workerCount < 2 ^ 64 ->
  exists ws,
    WorkSplitter_new unitCount workerCount = Ok ws /\
    size (m_workDistribution ws) = workerCount /\
    sum_Z (m_workDistribution ws) = unitCount /\
    GetPrevPartWork ws workerCount = Ok unitCount /\
    forall i, 0 <= i < workerCount ->
      exists e,
        GetPartWork ws i = Ok e /\
        m_workDistribution ws !! Z.to_nat i = Some e /\
        unitCount / workerCount <= e <= unitCount / workerCount + 1 /\
        Z.abs (e * workerCount - unitCount) <= workerCount.
Proof.
  intros Hu Hw. eexists. split; [apply WorkSplitter_new_ok; lia|].
  cbn [m_workDistribution].
  pose proof (length_distribution unitCount workerCount ltac:(lia) ltac:(lia)) as Hlen.
  pose proof (sum_distribution unitCount workerCount ltac:(lia) ltac:(lia) ltac:(lia)) as Hsum.
  pose proof (distribution_nonneg unitCount workerCount ltac:(lia) ltac:(lia)) as Hpos.
  split; [assumption|]. split; [assumption|]. split.
  - unfold size in Hlen. rewrite <- Hlen at 2.
    rewrite GetPrevPartWork_ok by (auto; lia).
    now rewrite firstn_all, Hsum.
  - intros i Hi.
    pose proof (lookup_distribution unitCount workerCount i ltac:(lia) Hi) as Hl.
    eexists. split; [apply GetPartWork_ok; [lia|exact Hl]|]. split; [exact Hl|].
    pose proof (Z.div_mod unitCount workerCount ltac:(lia)) as Hdm.
    pose proof (Z.mod_pos_bound unitCount workerCount ltac:(lia)) as Hr.
    destruct (Z.leb_spec unitCount workerCount) as [Hle|Hgt].
    + destruct (Z.eq_dec unitCount workerCount) as [->|Hne].
      * rewrite Z.div_same by lia. destruct (Z.ltb_spec i workerCount); lia.
      * rewrite Z.div_small by lia. destruct (Z.ltb_spec i unitCount); lia.
    + pose proof (share_bounds unitCount workerCount i ltac:(lia) ltac:(lia)) as Hb.
      unfold share in *.
      destruct (i <? workerCount - unitCount mod workerCount) eqn:E; nia.
Qed.

Lemma WorkSplitter_distribution_sums_witness :
  exists ws,
    WorkSplitter_new 7 3 = Ok ws /\
    size (m_workDistribution ws) = 3 /\
    sum_Z (m_workDistribution ws) = 7 /\
    GetPrevPartWork ws 3 = Ok 7 /\
    forall i, 0 <= i < 3 ->
      exists e,
        GetPartWork ws i = Ok e /\
        m_workDistribution ws !! Z.to_nat i = Some e /\
        7 / 3 <= e <= 7 / 3 + 1 /\
        Z.abs (e * 3 - 7) <= 3.
Proof. apply (WorkSplitter_distribution_sums 7 3); lia. Defined.

(** C2, as the code has it: with more units than workers the remainder goes
    to the last workers.  A worker with index at least
    [workerCount - unitCount mod workerCount] receives the ceiling of
    [unitCount / workerCount], and a worker before it the floor. *)
Theorem WorkSplitter_remainder_to_last_workers unitCount workerCount i :
  0 < workerCount -> workerCount < unitCount -> unitCount < 2 ^ 64 ->
  0 <= i < workerCount ->
  exists ws,
    WorkSplitter_new unitCount workerCount = Ok ws /\
    (workerCount - unitCount mod workerCount <= i ->
       GetPartWork ws i = Ok (ceil_div unitCount workerCount)) /\
    (i < workerCount - unitCount mod workerCount ->
       GetPartWork ws i = Ok (unitCount / workerCount)).
Proof.
  intros Hw Hu Hlt Hi. eexists. split; [apply WorkSplitter_new_ok; lia|].
  pose proof (lookup_distribution unitCount workerCount i ltac:(lia) Hi) as Hl.
  assert ((unitCount <=? workerCount) = false) as E by lia. rewrite E in Hl.
  pose proof (Z.mod_pos_bound unitCount workerCount ltac:(lia)) as Hr.
  rewrite ceil_div_spec by lia.
  unfold share in *. split; intros Hcase.
  - apply GetPartWork_ok; [lia|]. rewrite Hl. f_equal.
    destruct (i <? workerCount - unitCount mod workerCount) eqn:E';
      destruct (Z.eqb_spec (unitCount mod workerCount) 0); lia.
  - apply GetPartWork_ok; [lia|]. rewrite Hl. f_equal.
    destruct (i <? workerCount - unitCount mod workerCount) eqn:E'; lia.
Qed.

Lemma WorkSplitter_remainder_to_last_workers_witness :
  exists ws,
    WorkSplitter_new 7 3 = Ok ws /\
    GetPartWork ws 2 = Ok 3 /\ ceil_div 7 3 = 3.
Proof.
  destruct (WorkSplitter_remainder_to_last_workers 7 3 2) as (ws & Hnew & Hlast & _);
    try lia.
  exists ws. split; [exact Hnew|]. split; [|reflexivity].
  apply Hlast. vm_compute. discriminate.
Defined.

(** C2, as the claim states it, fails for 7 units and 3 workers: worker 0
    is below [7 mod 3 = 1] and receives 2 units, not the ceiling 3. *)
Lemma WorkSplitter_remainder_to_first_workers_fails :
  ~ (forall unitCount workerCount i,
       0 < workerCount -> workerCount < unitCount -> unitCount < 2 ^ 64 ->
       0 <= i < unitCount mod workerCount ->
       exists ws, WorkSplitter_new unitCount workerCount = Ok ws /\
                  GetPartWork ws i = Ok (ceil_div unitCount workerCount)).
Proof.
  intros H. destruct (H 7 3 0) as (ws & Hnew & Hget); try (compute; intuition congruence).
  vm_compute in Hnew. injection Hnew as <-. vm_compute in Hget. discriminate.
Qed.

(** C9: for [unitCount >= 0] and [workerCount >= 1] the constructor returns
    a splitter (no pass runs out of the loop bound and none is undefined).
    When [unitCount > workerCount], the second loop makes exactly
    [workerCount] passes, and on entry to each of them
    [work / workerCount >= 1], so the pass takes at least one unit off
    [work], and [currentWorker] is an index of the vector. *)
Theorem WorkSplitter_terminates unitCount workerCount :
  0 <= unitCount < 2 ^ 64 -> 1 <= workerCount < 2 ^ 64 ->
  (exists ws, WorkSplitter_new unitCount workerCount = Ok ws /\
              size (m_workDistribution ws) = workerCount) /\
  (workerCount < unitCount ->
   let passes := while_passes split_cond split_body (split_fuel workerCount)
                   (split_init unitCount workerCount) in
   Z.of_nat (length passes) = workerCount /\ Forall (pass_ok workerCount) passes).
Proof.
  intros Hu Hw. split.
  - eexists. split; [apply WorkSplitter_new_ok; lia|].
    apply length_distribution; lia.
  - intros Hgt. unfold split_init, split_fuel.
    pose proof (split_while_passes workerCount (Z.to_nat workerCount)
                  (replicate (Z.to_nat workerCount) 0) unitCount 0
                  (S (Z.to_nat workerCount))) as H.
    rewrite Z2Nat.id in H by lia.
    destruct H as [Hl Hf]; try lia.
    + unfold size. rewrite length_replicate. lia.
    + cbn zeta in *. split; [lia|assumption].
Qed.

Lemma WorkSplitter_terminates_witness :
  (exists ws, WorkSplitter_new 11 4 = Ok ws /\ size (m_workDistribution ws) = 4) /\
  Z.of_nat (length (while_passes split_cond split_body (split_fuel 4) (split_init 11 4)))
  = 4 /\
  Forall (pass_ok 4) (while_passes split_cond split_body (split_fuel 4) (split_init 11 4)).
Proof.
  destruct (WorkSplitter_terminates 11 4) as [Hnew Hpasses]; try lia.
  split; [exact Hnew|]. apply Hpasses. lia.
Defined.

(** ** Calculate_M, sequential *)

Section Calculate_M.
Local Open Scope float_scope.
Variable f : Function.

(** The running maximum stays a number at or above its start, ends at or
    above every quotient that is a number, and is its start or one of the
    quotients. *)
Lemma Calculate_M_loop_spec y : forall M0,
  (0 <=? M0) = true ->
  (M0 <=? Calculate_M_loop f y M0) = true /\
  (forall x, x ∈ ratios f y -> is_number x = true ->
             (x <=? Calculate_M_loop f y M0) = true) /\
  (Calculate_M_loop f y M0 = M0 \/ Calculate_M_loop f y M0 ∈ ratios f y).
Proof.
  induction y as [|seg rest IH]; intros M0 HM0; cbn [Calculate_M_loop].
  - split; [apply leb_refl; eauto using leb_number_r|].
    split; [|now left]. intros x Hx. inversion Hx.
  - set (cur := M_ratio f seg).
    set (M1 := if M0 <? cur then cur else M0).
    assert (HM01 : (M0 <=? M1) = true).
    { subst M1. destruct (M0 <? cur) eqn:E; [now apply ltb_leb|].
      apply leb_refl; eauto using leb_number_r. }
    assert (HM1 : (0 <=? M1) = true) by eauto using leb_trans.
    destruct (IH M1 HM1) as (Hge & Hall & Hin).
    split; [eauto using leb_trans|]. split.
    + intros x Hx Hnum. unfold ratios in Hx. rewrite fmap_cons in Hx.
      apply elem_of_cons in Hx as [->|Hx]; [|now apply Hall].
      apply leb_trans with M1; [|assumption]. fold cur. subst M1.
      destruct (M0 <? cur) eqn:E; [now apply leb_refl|].
      apply not_ltb_leb; eauto using leb_number_r.
    + unfold ratios. rewrite fmap_cons. fold cur. fold (ratios f rest).
      destruct Hin as [->|Hin]; [|right; now apply list_elem_of_further].
      subst M1. destruct (M0 <? cur); [right; apply list_elem_of_here|now left].
Qed.

Lemma Calculate_M_Sequential_nonneg y : (0 <=? Calculate_M_Sequential f y) = true.
Proof.
  unfold Calculate_M_Sequential.
  now destruct (Calculate_M_loop_spec y 0 eq_refl) as (H & _).
Qed.


End Calculate_M.




(** ** Calculate_m *)

Lemma Calculate_m_ok (M x : double) :
  (0 <=? M)%float = true -> (1 <? x)%float = true ->
  Calculate_m M x = Ok (if (M =? 0)%float then 1%float else (x * M)%float).
Proof. intros HM Hx. unfold Calculate_m. now rewrite HM, Hx. Qed.

Lemma Calculate_m_positive (M x : double) :
  (0 <=? M)%float = true -> (1 <? x)%float = true ->
  (0 <? (if M =? 0 then 1 else x * M))%float = true.
Proof.
  intros HM Hx. destruct (leb_zero_cases M HM) as [Hz|Hpos].
  - now rewrite Hz.
  - destruct (M =? 0)%float; [reflexivity|]. now apply mul_positive.
Qed.

(** C7, as the code has it: with [M >= 0] and [r > 1] the call returns 1 when
    [M == 0] and [r * M] otherwise, and the value returned is strictly
    positive; with [M >= 0] or [r > 1] false the assertion fails and no value
    is returned. *)
Theorem Calculate_m_spec (M x : double) :
  ((0 <=? M)%float = true -> (1 <? x)%float = true ->
     Calculate_m M x = Ok (if (M =? 0)%float then 1%float else (x * M)%float) /\
     (0 <? (if (M =? 0)%float then 1 else x * M))%float = true) /\
  ((0 <=? M)%float = false \/ (1 <? x)%float = false ->
     Calculate_m M x = Err AssertionFailed).
Proof.
  split.
  - intros HM Hx. split; [now apply Calculate_m_ok|now apply Calculate_m_positive].
  - unfold Calculate_m. intros [HM|Hx].
    + now rewrite HM.
    + rewrite Hx. now destruct (0 <=? M)%float.
Qed.

Lemma Calculate_m_spec_witness :
  Calculate_m 0.75%float 2%float = Ok 1.5%float /\ (0 <? 1.5)%float = true /\
  Calculate_m (-1)%float 2%float = Err AssertionFailed /\
  Calculate_m 0.75%float 1%float = Err AssertionFailed /\
  Calculate_m nan 2%float = Err AssertionFailed.
Proof.
  destruct (Calculate_m_spec 0.75%float 2%float) as [Hok _].
  destruct (Hok eq_refl eq_refl) as [Hval Hpos].
  split; [exact Hval|]. split; [exact Hpos|].
  split; [apply (Calculate_m_spec (-1)%float 2%float); left; reflexivity|].
  split; [apply (Calculate_m_spec 0.75%float 1%float); right; reflexivity|].
  apply (Calculate_m_spec nan 2%float). left. reflexivity.
Defined.

(** C7, as the claim states it, fails on its last consequence: with
    [M = 2^-1000] and [r = 2] the call returns [m = 2^-999 > 0], and on the
    segment [(0, 2^-1000)], whose ends are in order, the divisor [m * yDif]
    of the characteristic underflows to zero. *)
Lemma Calculate_m_divisor_can_be_zero :
  let seg := {| seg_begin := 0%float; seg_end := 0x1p-1000%float |} in
  exists m,
    (0 <=? 0x1p-1000)%float = true /\ (1 <? 2)%float = true /\
    Calculate_m 0x1p-1000%float 2%float = Ok m /\
    (0 <? m)%float = true /\
    (seg_begin seg <? seg_end seg)%float = true /\
    (m * (seg_end seg - seg_begin seg) =? 0)%float = true.
Proof. exists 0x1p-999%float. vm_compute. repeat split. Qed.

(** ** CalculateIndexOfMaxR, sequential *)

(** C10: on the empty collection the scan returns [(-DBL_MAX, -1)], and
    [-1] is a position of no vector: [y.at(-1)] throws for every [y] whose
    size is a [size_t]. *)
Theorem CalculateIndexOfMaxR_Sequential_empty f m :
  CalculateIndexOfMaxR_Sequential f [] m = ((- DBL_MAX)%float, -1) /\
  forall y : list Segment,
    size y <= SIZE_MAX -> vec_at y (int_to_size_t (-1)) = Err OutOfRange.
Proof.
  split; [reflexivity|]. intros y Hy. apply vec_at_out.
  change (int_to_size_t (-1)) with (2 ^ 64 - 1). unfold SIZE_MAX in Hy. lia.
Qed.

Lemma CalculateIndexOfMaxR_Sequential_empty_witness :
  CalculateIndexOfMaxR_Sequential (fun x => x) [] 1%float = ((- DBL_MAX)%float, -1) /\
  (size (@nil Segment) <= SIZE_MAX ->
   vec_at (@nil Segment) (int_to_size_t (-1)) = Err OutOfRange).
Proof.
  destruct (CalculateIndexOfMaxR_Sequential_empty (fun x => x) 1%float) as [H1 H2].
  split; [exact H1|exact (H2 [])].
Defined.

Section Scan.
Local Open Scope float_scope.
Variables (f : Function) (m : double).

Local Abbreviation scan := (CalculateIndexOfMaxR_loop f m).

Lemma scan_app l1 l2 i acc :
  scan i (l1 ++ l2) acc = scan (i + size l1)%Z l2 (scan i l1 acc).
Proof.
  revert i acc. induction l1 as [|seg l1 IH]; intros i acc.
  - unfold size. cbn. now rewrite Z.add_0_r.
  - cbn [app CalculateIndexOfMaxR_loop]. rewrite IH. f_equal.
    unfold size. cbn [length]. lia.
Qed.

Lemma scan_index l : forall i acc,
  snd (scan i l acc) = snd acc \/ (i <= snd (scan i l acc) < i + size l)%Z.
Proof.
  induction l as [|seg l IH]; intros i acc; cbn [CalculateIndexOfMaxR_loop]; auto.
  unfold size. cbn [length].
  destruct (IH (i + 1)%Z (if fst acc <? characteristic f m seg
                          then (characteristic f m seg, i) else acc)) as [H|H].
  - rewrite H. destruct (fst acc <? _); cbn [snd]; [right; lia|now left].
  - right. unfold size in H. lia.
Qed.

Lemma scan_not_below l : forall i acc (bound : double),
  (fst acc <? bound) = false -> (fst (scan i l acc) <? bound) = false.
Proof.
  induction l as [|seg l IH]; intros i acc bound Hacc; cbn [CalculateIndexOfMaxR_loop]; auto.
  apply IH. destruct (fst acc <? characteristic f m seg) eqn:E; [|assumption].
  cbn [fst]. destruct (characteristic f m seg <? bound) eqn:E'; [|reflexivity].
  now rewrite (ltb_trans _ _ _ E E') in Hacc.
Qed.

(** A scan that starts at index [off + i] with the maximum [G] is the
    scan of the same segments from index [i] with the maximum [L], moved by
    [off] and merged with the earlier maximum [A0], when [G] is [L] moved
    and merged in that way. *)
Lemma scan_merge_gen (off : Z) (A0 : double * Z) l : forall i L,
  is_number (fst L) = true ->
  scan (off + i)%Z l (if fst A0 <? fst L then (fst L, (snd L + off)%Z) else A0)
  = (if fst A0 <? fst (scan i l L)
     then (fst (scan i l L), (snd (scan i l L) + off)%Z) else A0).
Proof.
  induction l as [|seg l IH]; intros i L HL; cbn [CalculateIndexOfMaxR_loop]; auto.
  set (R := characteristic f m seg).
  replace (off + i + 1)%Z with (off + (i + 1))%Z by lia.
  assert (HL' : is_number (fst (if fst L <? R then (R, i) else L)) = true).
  { destruct (fst L <? R) eqn:E; [|assumption]. cbn [fst]. eauto using ltb_number_r. }
  rewrite <- (IH (i + 1)%Z _ HL'). f_equal.
  destruct (fst A0 <? fst L) eqn:EA; cbn [fst snd].
  - destruct (fst L <? R) eqn:EL; cbn [fst snd].
    + rewrite (ltb_trans _ _ _ EA EL). f_equal. lia.
    + now rewrite EA.
  - destruct (fst A0 <? R) eqn:ER.
    + destruct (ltb_cotrans _ (fst L) _ HL ER) as [H|H]; [congruence|].
      rewrite H. cbn [fst snd]. rewrite ER. f_equal. lia.
    + destruct (fst L <? R); cbn [fst snd]; now rewrite ?ER, ?EA.
Qed.

Lemma scan_merge (off : Z) (A0 : double * Z) l :
  (fst A0 <? - DBL_MAX) = false ->
  scan off l A0
  = (if fst A0 <? fst (CalculateIndexOfMaxR_Sequential f l m)
     then (fst (CalculateIndexOfMaxR_Sequential f l m),
           (snd (CalculateIndexOfMaxR_Sequential f l m) + off)%Z)
     else A0).
Proof.
  intros HA. unfold CalculateIndexOfMaxR_Sequential.
  rewrite <- (scan_merge_gen off A0 l 0%Z no_maximum eq_refl).
  cbn [fst no_maximum]. rewrite HA. now rewrite Z.add_0_r.
Qed.

Lemma Sequential_not_below l :
  (fst (CalculateIndexOfMaxR_Sequential f l m) <? - DBL_MAX) = false.
Proof. now apply scan_not_below. Qed.

Lemma Sequential_index l :
  (-1 <= snd (CalculateIndexOfMaxR_Sequential f l m) < size l)%Z.
Proof.
  unfold CalculateIndexOfMaxR_Sequential.
  destruct (scan_index l 0%Z no_maximum) as [H|H].
  - rewrite H. cbn. unfold size. lia.
  - lia.
Qed.
End Scan.

(** ** The blocks of the workers *)

Lemma length_slices d : forall y, length (slices d y) = length d.
Proof. induction d as [|n d IH]; intros y; cbn; auto. Qed.

Lemma concat_slices d : forall y,
  Forall (fun x => 0 <= x) d -> size y <= sum_Z d -> concat (slices d y) = y.
Proof.
  induction d as [|n d IH]; intros y Hpos Hsum; cbn [slices concat].
  - destruct y; [reflexivity|]. unfold size, sum_Z in Hsum. cbn in Hsum. exfalso. lia.
  - inversion Hpos as [|? ? Hn Hd]; subst.
    rewrite IH; [apply take_drop|assumption|].
    unfold size in *. rewrite length_drop.
    change (sum_Z (n :: d)) with (n + sum_Z d) in Hsum.
    pose proof (sum_Z_nonneg d Hd). lia.
Qed.

Lemma prefix_sum_S n d k : prefix_sum (n :: d) (S k) = n + prefix_sum d k.
Proof. reflexivity. Qed.

Lemma prefix_sum_bounds d k :
  Forall (fun x => 0 <= x) d -> 0 <= prefix_sum d k <= sum_Z d.
Proof. apply sum_Z_take_le. Qed.

Lemma prefix_sum_next d k x :
  d !! k = Some x -> prefix_sum d (S k) = prefix_sum d k + x.
Proof.
  intros Hx. unfold prefix_sum. rewrite (take_S_r _ _ _ Hx), sum_Z_app.
  change (sum_Z [x]) with (x + 0). lia.
Qed.

Lemma lookup_slices d : forall y k,
  Forall (fun x => 0 <= x) d -> (k < length d)%nat ->
  slices d y !! k = Some (slice d y k).
Proof.
  induction d as [|n d IH]; intros y k Hpos Hk; [cbn in Hk; lia|].
  inversion Hpos as [|? ? Hn Hd]; subst.
  destruct k as [|k]; cbn [slices].
  - reflexivity.
  - change ((?x :: ?l) !! S k) with (l !! k).
    rewrite IH by (auto; cbn in Hk; lia). f_equal. unfold slice.
    rewrite prefix_sum_S. change ((n :: d) !!! S k) with (d !!! k).
    rewrite drop_drop. do 2 f_equal.
    pose proof (prefix_sum_bounds d k Hd). lia.
Qed.

(** The segments before block [k] are as many as the units of the workers
    before worker [k]. *)
Lemma size_before_slice d : forall y k,
  Forall (fun x => 0 <= x) d -> sum_Z d <= size y -> (k <= length d)%nat ->
  size (concat (take k (slices d y))) = prefix_sum d k.
Proof.
  induction d as [|n d IH]; intros y k Hpos Hsum Hk.
  - cbn in Hk. now replace k with 0%nat by lia.
  - inversion Hpos as [|? ? Hn Hd]; subst.
    change (sum_Z (n :: d)) with (n + sum_Z d) in Hsum.
    pose proof (sum_Z_nonneg d Hd).
    destruct k as [|k]; [reflexivity|].
    cbn [slices take concat]. rewrite prefix_sum_S.
    unfold size in *. rewrite length_app, length_take, Nat2Z.inj_add.
    rewrite IH; [lia|assumption| |cbn in Hk; lia].
    rewrite length_drop. lia.
Qed.

Lemma slices_fmap d y :
  Forall (fun x => 0 <= x) d -> slices d y = slice d y <$> seq 0 (length d).
Proof.
  intros Hpos. apply list_eq. intros k.
  destruct (decide (k < length d)%nat) as [Hk|Hk].
  - rewrite lookup_slices by auto. rewrite list_lookup_fmap, lookup_seq_lt by lia.
    reflexivity.
  - rewrite !lookup_ge_None_2; auto.
    + rewrite length_fmap, length_seq. lia.
    + rewrite length_slices. lia.
Qed.

(** ** max_element over the workers' maxima is the scan of the whole vector *)

Section Gather.
Local Open Scope float_scope.
Variables (f : Function) (m : double).

Local Abbreviation local := (fun l => CalculateIndexOfMaxR_Sequential f l m).

Lemma max_element_from_scan (ls : list (list Segment)) : forall ls2 ls1 lg rec,
  ls = ls1 ++ ls2 ->
  (local <$> ls1) !! lg = Some rec ->
  CalculateIndexOfMaxR_Sequential f (concat ls1) m
  = (fst rec, (snd rec + size (concat (take lg ls)))%Z) ->
  exists k : nat,
    fst (max_element_from first_less (Z.of_nat lg, rec)
           (Z.of_nat (length ls1)) (local <$> ls2)) = Z.of_nat k /\
    (local <$> ls) !! k
    = Some (snd (max_element_from first_less (Z.of_nat lg, rec)
                   (Z.of_nat (length ls1)) (local <$> ls2))) /\
    CalculateIndexOfMaxR_Sequential f (concat ls) m
    = (fst (local (ls !!! k)), (snd (local (ls !!! k)) + size (concat (take k ls)))%Z).
Proof.
  induction ls2 as [|l ls2 IH]; intros ls1 lg rec Hls Hrec Hscan.
  - rewrite app_nil_r in Hls. subst ls1. cbn [fmap list_fmap max_element_from fst snd].
    exists lg. split; [reflexivity|]. split; [assumption|].
    rewrite Hscan. rewrite list_lookup_fmap in Hrec.
    destruct (ls !! lg) as [l|] eqn:El; [|discriminate]. injection Hrec as <-.
    now rewrite (list_lookup_total_correct _ _ _ El).
  - rewrite fmap_cons. cbn [max_element_from snd].
    assert (Hls' : ls = (ls1 ++ [l]) ++ ls2) by (now rewrite <- app_assoc).
    assert (Hlen : (Z.of_nat (length ls1) + 1)%Z = Z.of_nat (length (ls1 ++ [l])))
      by (rewrite length_app; cbn; lia).
    rewrite Hlen.
    assert (Hnext : CalculateIndexOfMaxR_Sequential f (concat (ls1 ++ [l])) m
                    = if fst rec <? fst (local l)
                      then (fst (local l),
                            (snd (local l) + size (concat (take (length ls1) ls)))%Z)
                      else (fst rec, (snd rec + size (concat (take lg ls)))%Z)).
    { rewrite concat_app. cbn [concat]. rewrite app_nil_r.
      unfold CalculateIndexOfMaxR_Sequential at 1. rewrite scan_app.
      fold (CalculateIndexOfMaxR_Sequential f (concat ls1) m).
      rewrite scan_merge by apply Sequential_not_below.
      rewrite Hscan. cbn [fst snd]. rewrite Z.add_0_l.
      now rewrite Hls, take_app_length. }
    cbn beta in Hnext.
    destruct (first_less rec (CalculateIndexOfMaxR_Sequential f l m)) eqn:E;
      unfold first_less in E; rewrite E in Hnext.
    + apply (IH (ls1 ++ [l]) (length ls1) (local l) Hls').
      * rewrite fmap_app. rewrite lookup_app_r by (rewrite length_fmap; lia).
        rewrite length_fmap, Nat.sub_diag. reflexivity.
      * exact Hnext.
    + apply (IH (ls1 ++ [l]) lg rec Hls').
      * rewrite fmap_app. now apply lookup_app_l_Some.
      * exact Hnext.
Qed.

(** The record [std::max_element] selects among the maxima of the blocks
    [ls], with the size of the blocks before it added to its index, is the
    result of the scan of all the blocks in a row. *)
Lemma max_element_scan (ls : list (list Segment)) :
  ls <> [] ->
  exists k : nat,
    max_element first_less (local <$> ls) = Z.of_nat k /\
    (k < length ls)%nat /\
    CalculateIndexOfMaxR_Sequential f (concat ls) m
    = (fst (local (ls !!! k)), (snd (local (ls !!! k)) + size (concat (take k ls)))%Z).
Proof.
  destruct ls as [|l0 ls']; [congruence|]. intros _.
  rewrite fmap_cons. cbn [max_element].
  destruct (max_element_from_scan (l0 :: ls') ls' [l0] 0%nat (local l0))
    as (k & Hk & Hlook & Hscan).
  - reflexivity.
  - reflexivity.
  - cbn [concat take]. rewrite app_nil_r. unfold size. cbn [length].
    rewrite Z.add_0_r. now destruct (CalculateIndexOfMaxR_Sequential f l0 m).
  - exists k. split; [exact Hk|]. split; [|exact Hscan].
    apply lookup_lt_Some in Hlook. now rewrite length_fmap in Hlook.
Qed.
End Gather.

(** ** Calculate_M, parallel *)

Section MaxMerge.
Local Open Scope float_scope.
Variable f : Function.

Lemma Calculate_M_loop_app l1 l2 M :
  Calculate_M_loop f (l1 ++ l2) M = Calculate_M_loop f l2 (Calculate_M_loop f l1 M).
Proof. revert M. induction l1 as [|seg l1 IH]; intros M; cbn; auto. Qed.

(** The running maximum started at [MPI_MAX M0 L] is [MPI_MAX] of [M0] and
    the running maximum started at [L]. *)
Lemma Calculate_M_loop_merge (M0 : double) l : forall L,
  is_number L = true ->
  Calculate_M_loop f l (MPI_MAX M0 L) = MPI_MAX M0 (Calculate_M_loop f l L).
Proof.
  induction l as [|seg l IH]; intros L HL; cbn [Calculate_M_loop]; auto.
  set (cur := M_ratio f seg).
  assert (HL' : is_number (if L <? cur then cur else L) = true).
  { destruct (L <? cur) eqn:E; eauto using ltb_number_r. }
  rewrite <- (IH _ HL'). f_equal. unfold MPI_MAX.
  destruct (M0 <? L) eqn:EA.
  - destruct (L <? cur) eqn:EL.
    + now rewrite (ltb_trans _ _ _ EA EL).
    + now rewrite EA.
  - destruct (M0 <? cur) eqn:ER.
    + destruct (ltb_cotrans _ L _ HL ER) as [H|H]; [congruence|].
      now rewrite H, ER.
    + destruct (L <? cur); now rewrite ?ER, ?EA.
Qed.

Lemma Calculate_M_Sequential_app l1 l2 :
  Calculate_M_Sequential f (l1 ++ l2)
  = MPI_MAX (Calculate_M_Sequential f l1) (Calculate_M_Sequential f l2).
Proof.
  unfold Calculate_M_Sequential at 1 3. rewrite Calculate_M_loop_app.
  rewrite <- (Calculate_M_loop_merge _ l2 0 eq_refl). f_equal.
  unfold MPI_MAX. fold (Calculate_M_Sequential f l1).
  now rewrite (leb_not_ltb _ _ (Calculate_M_Sequential_nonneg f l1)).
Qed.
End MaxMerge.

(** ** CalculateIndexOfMaxR, parallel *)

Lemma MPI_Recv_app {A} (l1 l2 : mailbox A) rank :
  MPI_Recv (l1 ++ l2) rank
  = match MPI_Recv l1 rank with Ok msg => Ok msg | Err _ => MPI_Recv l2 rank end.
Proof.
  induction l1 as [|[dest msg] l1 IH]; cbn [app MPI_Recv]; [reflexivity|].
  now destruct (dest =? rank).
Qed.

Lemma outbox_S d y c :
  outbox d y (S c)
  = outbox d y c ++ (if d !!! S c =? 0 then [] else [(Z.of_nat (S c), slice d y (S c))]).
Proof.
  unfold outbox. rewrite seq_S, bind_app. f_equal.
  cbn [mbind list_bind]. change (1 + c)%nat with (S c). now rewrite app_nil_r.
Qed.

Lemma MPI_Recv_outbox_later d y c k :
  (c < k)%nat -> MPI_Recv (outbox d y c) (Z.of_nat k) = Err Deadlock.
Proof.
  induction c as [|c IH]; intros Hk; [reflexivity|].
  rewrite outbox_S, MPI_Recv_app, IH by lia.
  destruct (d !!! S c =? 0); [reflexivity|]. cbn [MPI_Recv].
  now destruct (Z.eqb_spec (Z.of_nat (S c)) (Z.of_nat k)); [lia|].
Qed.

(** A process with work receives its own block. *)
Lemma MPI_Recv_outbox d y c k :
  (1 <= k <= c)%nat -> d !!! k <> 0 ->
  MPI_Recv (outbox d y c) (Z.of_nat k) = Ok (slice d y k).
Proof.
  induction c as [|c IH]; intros Hk Hwork; [lia|].
  rewrite outbox_S, MPI_Recv_app.
  destruct (decide (k = S c)) as [->|Hne].
  - rewrite MPI_Recv_outbox_later by lia.
    destruct (Z.eqb_spec (d !!! S c) 0); [contradiction|]. cbn [MPI_Recv].
    now rewrite Z.eqb_refl.
  - now rewrite IH by lia.
Qed.

Section Parallel.
Variables (f : Function) (m : double) (y : list Segment) (d : list Z).
Hypothesis d_nonneg : Forall (fun x => 0 <= x) d.
Hypothesis d_sum : sum_Z d = size y.
Hypothesis d_size : 1 <= size d <= INT_MAX.
Hypothesis y_size : size y <= INT_MAX.

Local Abbreviation ws := {| m_workDistribution := d |}.
Local Abbreviation procCount := (size d).

Lemma GetPartWork_worker k :
  (k < length d)%nat -> GetPartWork ws (int_to_size_t (Z.of_nat k)) = Ok (d !!! k).
Proof.
  intros Hk. unfold INT_MAX, size in *. rewrite int_to_size_t_small by lia.
  apply GetPartWork_ok; [lia|]. rewrite Nat2Z.id.
  now apply list_lookup_lookup_total_lt.
Qed.

Lemma worker_bounds k :
  (k < length d)%nat ->
  0 <= d !!! k /\ 0 <= prefix_sum d k /\ prefix_sum d k + d !!! k <= size y.
Proof.
  intros Hk.
  pose proof (list_lookup_lookup_total_lt d k Hk) as Hx.
  pose proof (prefix_sum_next d k _ Hx) as Hnext.
  pose proof (prefix_sum_bounds d k d_nonneg).
  pose proof (prefix_sum_bounds d (S k) d_nonneg).
  pose proof (Forall_lookup_1 _ _ _ _ d_nonneg Hx). cbn beta in *. lia.
Qed.

Lemma segment_block_worker k :
  (k < length d)%nat -> d !!! k <> 0 ->
  segment_block y (prefix_sum d k) (d !!! k) = Ok (slice d y k).
Proof.
  intros Hk Hwork. destruct (worker_bounds k Hk) as (H1 & H2 & H3).
  unfold segment_block.
  destruct (lookup_lt_is_Some_2 y (Z.to_nat (prefix_sum d k))) as [seg Hseg].
  { unfold size in *. lia. }
  rewrite (vec_at_ok _ _ _ H2 Hseg). cbn [mbind result_bind].
  now destruct (Z.leb_spec (prefix_sum d k + d !!! k) (size y)); [|lia].
Qed.

(** The coordinator's sends (lines 232-242) all succeed. *)
Lemma CalculateIndexOfMaxR_sends_run c :
  (c < length d)%nat ->
  CalculateIndexOfMaxR_sends ws y (1 + Z.of_nat c) (d !!! 0%nat)
  = Ok (prefix_sum d (S c), outbox d y c).
Proof.
  unfold CalculateIndexOfMaxR_sends. induction c as [|c IH]; intros Hc.
  - rewrite for_range_empty by lia. do 2 f_equal.
    rewrite (prefix_sum_next d 0 (d !!! 0%nat)) by now apply list_lookup_lookup_total_lt.
    reflexivity.
  - replace (1 + Z.of_nat (S c)) with (1 + Z.of_nat c + 1) by lia.
    rewrite for_range_snoc by lia. rewrite IH by lia. cbn [mbind result_bind].
    replace (1 + Z.of_nat c) with (Z.of_nat (S c)) by lia.
    rewrite GetPartWork_worker by lia. cbn [mbind result_bind].
    destruct (worker_bounds (S c) Hc) as (H1 & H2 & H3).
    rewrite (prefix_sum_next d (S c) (d !!! S c))
      by now apply list_lookup_lookup_total_lt.
    rewrite outbox_S. unfold INT_MAX in *.
    destruct (Z.eqb_spec (d !!! S c) 0) as [Hz|Hnz]; cbn [mbind result_bind].
    + rewrite app_nil_r. now rewrite size_t_wrap_small by lia.
    + rewrite segment_block_worker by auto. cbn [mbind result_bind].
      now rewrite size_t_wrap_small by lia.
Qed.

Hypothesis ws_new : WorkSplitter_new (size y) (int_to_size_t procCount) = Ok ws.

(** Every process ends up with its own block in [localY]. *)
Lemma CalculateIndexOfMaxR_localY_worker k :
  (k < length d)%nat ->
  CalculateIndexOfMaxR_localY procCount (Z.of_nat k) y = Ok (slice d y k).
Proof.
  intros Hk. unfold CalculateIndexOfMaxR_localY.
  rewrite ws_new. cbn [mbind result_bind].
  rewrite GetPartWork_worker by assumption. cbn [mbind result_bind].
  assert (Hsends : CalculateIndexOfMaxR_sends ws y procCount (d !!! 0%nat)
                   = Ok (prefix_sum d (length d), outbox d y (length d - 1))).
  { pose proof (CalculateIndexOfMaxR_sends_run (length d - 1)) as H.
    unfold size in *.
    replace (1 + Z.of_nat (length d - 1)) with (Z.of_nat (length d)) in H by lia.
    replace (S (length d - 1)) with (length d) in H by lia.
    apply H. lia. }
  destruct (worker_bounds k Hk) as (H1 & H2 & H3).
  destruct k as [|k].
  - cbn [Z.of_nat Z.eqb]. rewrite Hsends. cbn [mbind result_bind].
    unfold segment_prefix.
    change (prefix_sum d 0) with 0 in H3.
    destruct (Z.leb_spec (d !!! 0%nat) (size y)); [|lia].
    unfold slice. now rewrite drop_0.
  - destruct (Z.eqb_spec (Z.of_nat (S k)) 0); [lia|].
    destruct (Z.eqb_spec (d !!! S k) 0) as [Hz|Hnz].
    + unfold slice. now rewrite Hz.
    + change (int_to_size_t 0) with (int_to_size_t (Z.of_nat 0)).
      rewrite GetPartWork_worker by lia. cbn [mbind result_bind].
      rewrite Hsends. cbn [mbind result_bind snd].
      apply MPI_Recv_outbox; [lia|assumption].
Qed.

Local Abbreviation local := (fun k => CalculateIndexOfMaxR_Sequential f (slice d y k) m).

Lemma CalculateIndexOfMaxR_local_worker k :
  (k < length d)%nat ->
  CalculateIndexOfMaxR_local procCount (Z.of_nat k) f y m = Ok (local k).
Proof.
  intros Hk. unfold CalculateIndexOfMaxR_local.
  now rewrite CalculateIndexOfMaxR_localY_worker.
Qed.

(** The coordinator's receives (lines 263-268) fill the slots of the
    processes served. *)
Lemma CalculateIndexOfMaxR_gather_run c :
  (c < length d)%nat ->
  for_range 1 (1 + Z.of_nat c)
    (fun procNum results =>
       workForProc ← GetPartWork ws (int_to_size_t procNum);
       if workForProc =? 0 then Ok results
       else
         received ← CalculateIndexOfMaxR_local procCount procNum f y m;
         vec_at_set results (int_to_size_t procNum) received)
    (local 0%nat :: replicate (length d - 1) no_maximum)
  = Ok ((local <$> seq 0 (S c)) ++ replicate (length d - 1 - c) no_maximum).
Proof.
  induction c as [|c IH]; intros Hc.
  - rewrite for_range_empty by lia. now rewrite Nat.sub_0_r.
  - replace (1 + Z.of_nat (S c)) with (1 + Z.of_nat c + 1) by lia.
    rewrite for_range_snoc by lia. rewrite IH by lia. cbn [mbind result_bind].
    replace (1 + Z.of_nat c) with (Z.of_nat (S c)) by lia.
    rewrite GetPartWork_worker by lia. cbn [mbind result_bind].
    rewrite (seq_S (S c) 0), fmap_app. cbn [fmap list_fmap plus].
    replace (length d - 1 - c)%nat with (S (length d - 1 - S c)) by lia.
    cbn [replicate]. rewrite <- app_assoc. cbn [app].
    destruct (Z.eqb_spec (d !!! S c) 0) as [Hz|Hnz].
    + do 3 f_equal. unfold slice. now rewrite Hz.
    + rewrite CalculateIndexOfMaxR_local_worker by lia. cbn [mbind result_bind].
      unfold INT_MAX, size in *. rewrite int_to_size_t_small by lia.
      rewrite vec_at_set_ok.
      2:{ unfold size. rewrite length_app, length_fmap, length_seq. cbn [length].
          rewrite length_replicate. lia. }
      f_equal. rewrite Nat2Z.id.
      rewrite insert_app_r_alt by (rewrite length_fmap, length_seq; lia).
      now rewrite length_fmap, length_seq, Nat.sub_diag.
Qed.

(** On the coordinator the parallel form returns what the sequential form
    returns on the whole vector. *)
Lemma CalculateIndexOfMaxR_Parallel_coordinator :
  CalculateIndexOfMaxR_Parallel procCount 0 f y m
  = Ok (CalculateIndexOfMaxR_Sequential f y m).
Proof.
  assert (Hlen : (1 <= length d)%nat) by (unfold size in *; lia).
  unfold CalculateIndexOfMaxR_Parallel. rewrite ws_new. cbn [mbind result_bind].
  pose proof (CalculateIndexOfMaxR_local_worker 0 ltac:(lia)) as H0.
  change (Z.of_nat 0) with 0 in H0. rewrite H0. cbn [mbind result_bind Z.eqb].
  rewrite vec_at_set_ok by (unfold size in *; rewrite length_replicate; lia).
  cbn [mbind result_bind]. unfold CalculateIndexOfMaxR_gather.
  pose proof (CalculateIndexOfMaxR_gather_run (length d - 1) ltac:(lia)) as Hg.
  unfold size in *.
  replace (1 + Z.of_nat (length d - 1)) with (Z.of_nat (length d)) in Hg by lia.
  replace (S (length d - 1)) with (length d) in Hg by lia.
  rewrite Nat.sub_diag, app_nil_r in Hg.
  replace (<[Z.to_nat 0:=local 0%nat]> (replicate (Z.to_nat (Z.of_nat (length d))) no_maximum))
    with (local 0%nat :: replicate (length d - 1) no_maximum).
  2:{ rewrite Nat2Z.id. destruct (length d); [lia|]. cbn. now rewrite Nat.sub_0_r. }
  rewrite Hg. cbn [mbind result_bind].
  assert (Hres : local <$> seq 0 (length d)
                 = (fun l => CalculateIndexOfMaxR_Sequential f l m) <$> slices d y).
  { rewrite slices_fmap by assumption. now rewrite <- list_fmap_compose. }
  rewrite Hres.
  destruct (max_element_scan f m (slices d y)) as (k & Hk & Hklen & Hscan).
  { intros Hnil. apply (f_equal length) in Hnil. rewrite length_slices in Hnil.
    cbn in Hnil. lia. }
  rewrite length_slices in Hklen.
  rewrite Hk.
  rewrite (vec_at_ok _ (Z.of_nat k) (local k)); [|lia|].
  2:{ rewrite Nat2Z.id, <- Hres, list_lookup_fmap, lookup_seq_lt by lia. reflexivity. }
  cbn [mbind result_bind].
  rewrite GetPrevPartWork_ok; [|lia|assumption|unfold INT_MAX in *; lia].
  cbn [mbind result_bind]. f_equal.
  rewrite concat_slices in Hscan by (auto; unfold size; lia).
  rewrite size_before_slice in Hscan by (auto; unfold size; lia).
  rewrite (list_lookup_total_correct _ _ _ (lookup_slices d y k d_nonneg Hklen)) in Hscan.
  rewrite Hscan. cbn [fst snd]. f_equal.
  fold (prefix_sum d k).
  pose proof (Sequential_index f m (slice d y k)) as Hloc.
  pose proof (Sequential_index f m y) as Hglob. rewrite Hscan in Hglob. cbn [snd] in Hglob.
  pose proof (prefix_sum_bounds d k d_nonneg) as Hpre.
  set (a := snd (CalculateIndexOfMaxR_Sequential f (slice d y k) m)) in *.
  set (b := prefix_sum d k) in *. unfold INT_MAX, size in *.
  unfold size_t_to_int, size_t_wrap, int_to_size_t.
  rewrite Z.add_mod_idemp_l by lia.
  destruct (Z.le_gt_cases 0 (a + b)).
  - rewrite (Z.mod_small (a + b)) by lia. rewrite Z.mod_small by lia. lia.
  - replace (a + b) with (-1) by lia. reflexivity.
Qed.
(** The same for [Calculate_M]: the sends of lines 123-130 succeed, every
    process has its block, and the reduction over the processes is the
    maximum over the whole vector. *)
Lemma Calculate_M_sends_run c :
  (c < length d)%nat ->
  Calculate_M_sends ws y (1 + Z.of_nat c) = Ok (outbox d y c).
Proof.
  unfold Calculate_M_sends. induction c as [|c IH]; intros Hc.
  - now rewrite for_range_empty by lia.
  - replace (1 + Z.of_nat (S c)) with (1 + Z.of_nat c + 1) by lia.
    rewrite for_range_snoc by lia. rewrite IH by lia. cbn [mbind result_bind].
    replace (1 + Z.of_nat c) with (Z.of_nat (S c)) by lia.
    rewrite GetPartWork_worker by lia. cbn [mbind result_bind].
    rewrite outbox_S.
    destruct (Z.eqb_spec (d !!! S c) 0) as [Hz|Hnz].
    + now rewrite app_nil_r.
    + unfold INT_MAX, size in *. rewrite int_to_size_t_small by lia.
      rewrite GetPrevPartWork_ok by (auto; lia). cbn [mbind result_bind].
      fold (prefix_sum d (S c)).
      now rewrite segment_block_worker by auto.
Qed.

Lemma Calculate_M_localY_worker k :
  (k < length d)%nat ->
  Calculate_M_localY procCount (Z.of_nat k) y = Ok (slice d y k).
Proof.
  intros Hk. unfold Calculate_M_localY.
  rewrite ws_new. cbn [mbind result_bind].
  rewrite GetPartWork_worker by assumption. cbn [mbind result_bind].
  assert (Hsends : Calculate_M_sends ws y procCount = Ok (outbox d y (length d - 1))).
  { pose proof (Calculate_M_sends_run (length d - 1)) as H.
    unfold size in *.
    replace (1 + Z.of_nat (length d - 1)) with (Z.of_nat (length d)) in H by lia.
    apply H. lia. }
  destruct (worker_bounds k Hk) as (H1 & H2 & H3).
  destruct k as [|k].
  - cbn [Z.of_nat Z.eqb]. rewrite Hsends. cbn [mbind result_bind].
    unfold segment_prefix.
    change (prefix_sum d 0) with 0 in H3.
    destruct (Z.leb_spec (d !!! 0%nat) (size y)); [|lia].
    unfold slice. now rewrite drop_0.
  - destruct (Z.eqb_spec (Z.of_nat (S k)) 0); [lia|].
    destruct (Z.eqb_spec (d !!! S k) 0) as [Hz|Hnz].
    + unfold slice. now rewrite Hz.
    + rewrite Hsends. cbn [mbind result_bind].
      apply MPI_Recv_outbox; [lia|assumption].
Qed.

Lemma Calculate_M_local_worker k :
  (k < length d)%nat ->
  Calculate_M_local procCount (Z.of_nat k) f y
  = Ok (Calculate_M_Sequential f (slice d y k)).
Proof.
  intros Hk. unfold Calculate_M_local. now rewrite Calculate_M_localY_worker.
Qed.

Lemma Calculate_M_reduce_run c :
  (c < length d)%nat ->
  for_range 1 (1 + Z.of_nat c)
    (fun procNum acc =>
       M ← Calculate_M_local procCount procNum f y; Ok (MPI_MAX acc M))
    (Calculate_M_Sequential f (slice d y 0))
  = Ok (Calculate_M_Sequential f (concat (take (S c) (slices d y)))).
Proof.
  induction c as [|c IH]; intros Hc.
  - rewrite for_range_empty by lia.
    rewrite (take_S_r _ _ _ (lookup_slices d y 0 d_nonneg Hc)).
    rewrite take_0. cbn [app concat]. now rewrite app_nil_r.
  - replace (1 + Z.of_nat (S c)) with (1 + Z.of_nat c + 1) by lia.
    rewrite for_range_snoc by lia. rewrite IH by lia. cbn [mbind result_bind].
    replace (1 + Z.of_nat c) with (Z.of_nat (S c)) by lia.
    rewrite Calculate_M_local_worker by lia. cbn [mbind result_bind].
    rewrite (take_S_r _ (S c) _ (lookup_slices d y (S c) d_nonneg Hc)).
    rewrite concat_app. cbn [concat]. rewrite app_nil_r.
    now rewrite Calculate_M_Sequential_app.
Qed.

Lemma Calculate_M_Parallel_coordinator :
  Calculate_M_Parallel procCount f y = Ok (Calculate_M_Sequential f y).
Proof.
  assert (Hlen : (1 <= length d)%nat) by (unfold size in *; lia).
  unfold Calculate_M_Parallel.
  pose proof (Calculate_M_local_worker 0 ltac:(lia)) as H0.
  change (Z.of_nat 0) with 0 in H0. rewrite H0. cbn [mbind result_bind].
  pose proof (Calculate_M_reduce_run (length d - 1) ltac:(lia)) as Hr.
  unfold size in *.
  replace (1 + Z.of_nat (length d - 1)) with (Z.of_nat (length d)) in Hr by lia.
  replace (S (length d - 1)) with (length d) in Hr by lia.
  rewrite Hr. f_equal.
  rewrite <- (length_slices d y), firstn_all.
  now rewrite concat_slices by (auto; unfold size; lia).
Qed.
End Parallel.

(** What the sequential scan returns: no characteristic is above the value,
    and the index is [-1] with the value [-DBL_MAX], or the position of a
    segment whose characteristic is the value. *)
Lemma scan_maximum f m l : forall pre acc,
  (forall seg, seg ∈ pre -> (fst acc <? characteristic f m seg)%float = false) ->
  (acc = no_maximum \/
   exists seg, 0 <= snd acc /\ pre !! Z.to_nat (snd acc) = Some seg /\
               characteristic f m seg = fst acc) ->
  let res := CalculateIndexOfMaxR_loop f m (size pre) l acc in
  (forall seg, seg ∈ pre ++ l -> (fst res <? characteristic f m seg)%float = false) /\
  (res = no_maximum \/
   exists seg, 0 <= snd res /\ (pre ++ l) !! Z.to_nat (snd res) = Some seg /\
               characteristic f m seg = fst res).
Proof.
  induction l as [|s l IH]; intros pre acc Hup Hat; cbn zeta.
  - rewrite app_nil_r. cbn. auto.
  - cbn [CalculateIndexOfMaxR_loop].
    replace (size pre + 1) with (size (pre ++ [s]))
      by (unfold size; rewrite length_app; cbn; lia).
    rewrite (cons_middle s pre l), app_assoc.
    apply IH.
    + intros seg Hseg. apply elem_of_app in Hseg as [Hseg|Hseg].
      * destruct (fst acc <? characteristic f m s)%float eqn:E; [|now apply Hup].
        cbn [fst].
        destruct (characteristic f m s <? characteristic f m seg)%float eqn:E';
          [|reflexivity].
        pose proof (ltb_trans _ _ _ E E') as Ht. now rewrite (Hup seg Hseg) in Ht.
      * apply list_elem_of_singleton in Hseg as ->.
        destruct (fst acc <? characteristic f m s)%float eqn:E; [|assumption].
        apply ltb_irrefl.
    + destruct (fst acc <? characteristic f m s)%float eqn:E.
      * right. exists s. cbn [fst snd]. unfold size.
        split; [lia|]. split; [|reflexivity].
        rewrite Nat2Z.id. now rewrite lookup_app_r, Nat.sub_diag by lia.
      * destruct Hat as [->|(seg & H0 & Hl & Hc)]; [now left|].
        right. exists seg. split; [assumption|]. split; [|assumption].
        now apply lookup_app_l_Some.
Qed.

Lemma Sequential_maximum f y m :
  let res := CalculateIndexOfMaxR_Sequential f y m in
  (forall seg, seg ∈ y -> (fst res <? characteristic f m seg)%float = false) /\
  (res = no_maximum \/
   exists seg, 0 <= snd res /\ y !! Z.to_nat (snd res) = Some seg /\
               characteristic f m seg = fst res).
Proof.
  apply (scan_maximum f m y [] no_maximum).
  - intros seg Hseg. inversion Hseg.
  - now left.
Qed.

Lemma CalculateIndexOfMaxR_Parallel_ok f y m procCount :
  1 <= procCount <= INT_MAX -> size y <= INT_MAX ->
  CalculateIndexOfMaxR_Parallel procCount 0 f y m
  = Ok (CalculateIndexOfMaxR_Sequential f y m).
Proof.
  intros Hp Hy. unfold INT_MAX, size in *.
  pose proof (length_distribution (size y) procCount ltac:(unfold size; lia) ltac:(lia))
    as Hlen.
  pose proof (CalculateIndexOfMaxR_Parallel_coordinator f m y
                (distribution (size y) procCount)) as H.
  rewrite Hlen in H. apply H.
  - apply distribution_nonneg; unfold size; lia.
  - apply sum_distribution; unfold size; lia.
  - unfold INT_MAX. lia.
  - unfold INT_MAX, size. lia.
  - rewrite int_to_size_t_small by lia.
    apply WorkSplitter_new_ok; unfold size; lia.
Qed.

(** C1: for every collection [y], every count of processes and every [m],
    the parallel selector returns on the coordinator, and so leaves on every
    process after the broadcast, the pair the sequential selector returns on
    the whole of [y].  That pair holds a value no characteristic is above,
    with the position in [y] of a segment that has it (or [-1] when no
    characteristic is above [-DBL_MAX]). *)
Theorem CalculateIndexOfMaxR_Parallel_is_Sequential f y m procCount :
  1 <= procCount <= INT_MAX -> size y <= INT_MAX ->
  CalculateIndexOfMaxR_Parallel procCount 0 f y m
  = Ok (CalculateIndexOfMaxR_Sequential f y m) /\
  CalculateIndexOfMaxR (Parallel procCount) f y m
  = CalculateIndexOfMaxR Sequential f y m /\
  (forall seg, seg ∈ y ->
     (fst (CalculateIndexOfMaxR_Sequential f y m) <? characteristic f m seg)%float = false) /\
  (CalculateIndexOfMaxR_Sequential f y m = no_maximum \/
   exists seg,
     0 <= snd (CalculateIndexOfMaxR_Sequential f y m) /\
     y !! Z.to_nat (snd (CalculateIndexOfMaxR_Sequential f y m)) = Some seg /\
     characteristic f m seg = fst (CalculateIndexOfMaxR_Sequential f y m)).
Proof.
  intros Hp Hy.
  pose proof (CalculateIndexOfMaxR_Parallel_ok f y m procCount Hp Hy) as Hpar.
  split; [exact Hpar|]. split; [exact Hpar|]. apply Sequential_maximum.
Qed.

Lemma CalculateIndexOfMaxR_Parallel_is_Sequential_witness :
  let f : Function := fun x => ((x - 2) * (x - 2))%float in
  let y := [ {| seg_begin := 0%float; seg_end := 1%float |};
             {| seg_begin := 1%float; seg_end := 2%float |};
             {| seg_begin := 2%float; seg_end := 5%float |};
             {| seg_begin := 5%float; seg_end := 5.5%float |};
             {| seg_begin := 5.5%float; seg_end := 7%float |} ] in
  CalculateIndexOfMaxR_Parallel 3 0 f y 3%float = Ok (0x1.5555555555556p+0%float, 1) /\
  CalculateIndexOfMaxR_Sequential f y 3%float = (0x1.5555555555556p+0%float, 1).
Proof.
  intros f y.
  destruct (CalculateIndexOfMaxR_Parallel_is_Sequential f y 3%float 3) as (H & _).
  - unfold INT_MAX. lia.
  - unfold INT_MAX. vm_compute. discriminate.
  - split; [rewrite H|]; vm_compute; reflexivity.
Defined.

(** ** One pass of GetMin *)

Section Pass.
Local Open Scope float_scope.
Variables (policy : ExecutionPolicy) (f : Function) (epsilon : double).

Lemma winning_segment_position y m index seg :
  winning_segment policy f y = Ok (m, index, seg) ->
  (0 <= int_to_size_t index < size y)%Z /\
  y !! Z.to_nat (int_to_size_t index) = Some seg.
Proof.
  unfold winning_segment.
  destruct (Calculate_M policy f y) as [M|]; cbn [mbind result_bind]; [|discriminate].
  destruct (Calculate_m M r) as [m'|]; cbn [mbind result_bind]; [|discriminate].
  destruct (CalculateIndexOfMaxR policy f y m') as [res|];
    cbn [mbind result_bind]; [|discriminate].
  destruct (vec_at y (int_to_size_t (snd res))) as [seg'|] eqn:Hat;
    cbn [mbind result_bind]; [|discriminate].
  intros [= <- <- <-]. now apply vec_at_inv.
Qed.

(** The pass returns [f(end)] when the winning segment is shorter than
    [epsilon]. *)
Lemma GetMin_pass_return y m index seg :
  winning_segment policy f y = Ok (m, index, seg) ->
  (seg_end seg - seg_begin seg <? epsilon) = true ->
  GetMin_pass policy f epsilon y = Ok (Return (f (seg_end seg))).
Proof.
  intros Hwin Hlen. unfold GetMin_pass. rewrite Hwin. cbn [mbind result_bind].
  now rewrite Hlen.
Qed.

(** Otherwise it goes on with the winning segment refined. *)
Lemma GetMin_pass_next y m index seg :
  winning_segment policy f y = Ok (m, index, seg) ->
  (seg_end seg - seg_begin seg <? epsilon) = false ->
  GetMin_pass policy f epsilon y
  = Ok (Next (refine y (Z.to_nat (int_to_size_t index)) seg (new_point f m seg))).
Proof.
  intros Hwin Hlen. unfold GetMin_pass. rewrite Hwin. cbn [mbind result_bind].
  rewrite Hlen.
  destruct (winning_segment_position y m index seg Hwin) as [Hpos Hseg].
  apply lookup_lt_Some in Hseg as Hlt.
  rewrite (vec_at_ok _ _ seg) by (try lia; now apply lookup_app_l_Some).
  cbn [mbind result_bind].
  rewrite vec_at_set_ok by (unfold size in *; rewrite length_app; lia).
  cbn [mbind result_bind]. unfold refine.
  now rewrite insert_app_l by assumption.
Qed.

Lemma GetMin_pass_error y e :
  winning_segment policy f y = Err e -> GetMin_pass policy f epsilon y = Err e.
Proof. intros Hwin. unfold GetMin_pass. now rewrite Hwin. Qed.

(** A pass that goes on is a pass on a winning segment that is not
    shorter than [epsilon]. *)
Lemma GetMin_pass_next_inv y y' :
  GetMin_pass policy f epsilon y = Ok (Next y') ->
  exists m index seg,
    winning_segment policy f y = Ok (m, index, seg) /\
    (seg_end seg - seg_begin seg <? epsilon) = false /\
    y !! Z.to_nat (int_to_size_t index) = Some seg /\
    y' = refine y (Z.to_nat (int_to_size_t index)) seg (new_point f m seg).
Proof.
  intros Hpass.
  destruct (winning_segment policy f y) as [[[m index] seg]|e] eqn:Hwin.
  - exists m, index, seg.
    destruct (seg_end seg - seg_begin seg <? epsilon) eqn:Hlen.
    + rewrite (GetMin_pass_return _ _ _ _ Hwin Hlen) in Hpass. discriminate.
    + rewrite (GetMin_pass_next _ _ _ _ Hwin Hlen) in Hpass.
      injection Hpass as <-.
      destruct (winning_segment_position y m index seg Hwin) as [_ Hseg]. auto.
  - rewrite (GetMin_pass_error _ _ Hwin) in Hpass. discriminate.
Qed.

Lemma length_refine y i seg yn : length (refine y i seg yn) = S (length y).
Proof. unfold refine. rewrite length_app, length_insert. cbn. lia. Qed.

Lemma segments_at_S k y y' :
  GetMin_pass policy f epsilon y = Ok (Next y') ->
  segments_at policy f epsilon (S k) y = segments_at policy f epsilon k y'.
Proof. intros H. cbn [segments_at]. now rewrite H. Qed.

Lemma segments_at_last k : forall y y',
  segments_at policy f epsilon (S k) y = Some y' ->
  exists yk, segments_at policy f epsilon k y = Some yk /\
             GetMin_pass policy f epsilon yk = Ok (Next y').
Proof.
  induction k as [|k IH]; intros y y' H.
  - cbn [segments_at] in H |- *.
    destruct (GetMin_pass policy f epsilon y) as [[v|y1]|e] eqn:E; try discriminate.
    injection H as <-. eauto.
  - cbn [segments_at] in H.
    destruct (GetMin_pass policy f epsilon y) as [[v|y1]|e] eqn:E; try discriminate.
    destruct (IH y1 y' H) as (yk & Hk & Hp).
    exists yk. split; [|assumption]. now rewrite (segments_at_S _ _ _ E).
Qed.

Lemma length_segments_at k : forall y y',
  segments_at policy f epsilon k y = Some y' -> length y' = (length y + k)%nat.
Proof.
  induction k as [|k IH]; intros y y' H.
  - injection H as <-. lia.
  - cbn [segments_at] in H.
    destruct (GetMin_pass policy f epsilon y) as [[v|y1]|e] eqn:E; try discriminate.
    rewrite (IH y1 y' H).
    destruct (GetMin_pass_next_inv y y1 E) as (m & index & seg & _ & _ & _ & ->).
    rewrite length_refine. lia.
Qed.

(** The loop that never meets a short winning segment nor an error makes
    all its passes and returns NaN. *)
Lemma GetMin_loop_exhausted n : forall i y,
  (forall k yk, (k < n)%nat -> segments_at policy f epsilon k y = Some yk ->
     exists m index seg,
       winning_segment policy f yk = Ok (m, index, seg) /\
       (seg_end seg - seg_begin seg <? epsilon) = false) ->
  GetMin_loop policy f epsilon n i y = (Ok NAN, (i + Z.of_nat n)%Z) /\
  exists yn, segments_at policy f epsilon n y = Some yn.
Proof.
  induction n as [|n IH]; intros i y Hgo.
  - cbn. rewrite Z.add_0_r. eauto.
  - destruct (Hgo 0%nat y ltac:(lia) eq_refl) as (m & index & seg & Hwin & Hlen).
    pose proof (GetMin_pass_next y m index seg Hwin Hlen) as Hpass.
    cbn [GetMin_loop segments_at]. rewrite Hpass.
    destruct (IH (i + 1)%Z
                (refine y (Z.to_nat (int_to_size_t index)) seg (new_point f m seg)))
      as [Hloop Hseg].
    + intros k yk Hk Hat. apply (Hgo (S k) yk ltac:(lia)).
      now rewrite (segments_at_S _ _ _ Hpass).
    + rewrite Hloop. split; [|assumption]. f_equal. lia.
Qed.

(** The loop leaves with [iterationIndex] at its bound only by returning
    NaN: a pass that returns or throws leaves it below. *)
Lemma GetMin_loop_index n : forall i y,
  (i <= snd (GetMin_loop policy f epsilon n i y) <= i + Z.of_nat n)%Z /\
  (snd (GetMin_loop policy f epsilon n i y) = (i + Z.of_nat n)%Z ->
   fst (GetMin_loop policy f epsilon n i y) = Ok NAN).
Proof.
  induction n as [|n IH]; intros i y; cbn [GetMin_loop].
  - cbn. split; [lia|auto].
  - destruct (GetMin_pass policy f epsilon y) as [[v|y1]|e]; cbn [fst snd].
    + split; lia.
    + destruct (IH (i + 1)%Z y1) as [Hb Hn]. split; [lia|].
      intros H. apply Hn. lia.
    + split; lia.
Qed.
End Pass.

(** ** Partitions of the interval *)

Section Partition.
Local Open Scope float_scope.






End Partition.

(** ** The two policies agree *)

Lemma Calculate_M_Parallel_ok f y procCount :
  1 <= procCount <= INT_MAX -> size y <= INT_MAX ->
  Calculate_M_Parallel procCount f y = Ok (Calculate_M_Sequential f y).
Proof.
  intros Hp Hy. unfold INT_MAX, size in *.
  pose proof (length_distribution (size y) procCount ltac:(unfold size; lia) ltac:(lia))
    as Hlen.
  pose proof (Calculate_M_Parallel_coordinator f y
                (distribution (size y) procCount)) as H.
  rewrite Hlen in H. apply H.
  - apply distribution_nonneg; unfold size; lia.
  - apply sum_distribution; unfold size; lia.
  - unfold INT_MAX. lia.
  - unfold INT_MAX, size. lia.
  - rewrite int_to_size_t_small by lia.
    apply WorkSplitter_new_ok; unfold size; lia.
Qed.

Section Policies.
Local Open Scope float_scope.
Variables (policy : ExecutionPolicy) (f : Function) (epsilon : double).
Hypothesis policy_valid : policy_ok policy.

Lemma Calculate_M_policy y :
  (size y <= INT_MAX)%Z -> Calculate_M policy f y = Ok (Calculate_M_Sequential f y).
Proof.
  intros Hy. destruct policy as [|procCount]; [reflexivity|].
  now apply Calculate_M_Parallel_ok.
Qed.

Lemma CalculateIndexOfMaxR_policy y m :
  (size y <= INT_MAX)%Z ->
  CalculateIndexOfMaxR policy f y m = Ok (CalculateIndexOfMaxR_Sequential f y m).
Proof.
  intros Hy. destruct policy as [|procCount]; [reflexivity|].
  now apply CalculateIndexOfMaxR_Parallel_ok.
Qed.

(** In the loop the assertions of [Calculate_m] hold: [M] is a maximum
    started at 0 and [r] is 2. *)
Lemma Calculate_m_in_loop y :
  Calculate_m (Calculate_M_Sequential f y) r
  = Ok (if Calculate_M_Sequential f y =? 0 then 1 else r * Calculate_M_Sequential f y).
Proof.
  apply Calculate_m_ok; [apply Calculate_M_Sequential_nonneg|reflexivity].
Qed.

Lemma winning_segment_policy y :
  (size y <= INT_MAX)%Z ->
  winning_segment policy f y
  = (let M := Calculate_M_Sequential f y in
     let m := if M =? 0 then 1 else r * M in
     let index := snd (CalculateIndexOfMaxR_Sequential f y m) in
     seg ← vec_at y (int_to_size_t index); Ok (m, index, seg)).
Proof.
  intros Hy. unfold winning_segment.
  rewrite Calculate_M_policy by assumption. cbn [mbind result_bind].
  rewrite Calculate_m_in_loop. cbn [mbind result_bind].
  now rewrite CalculateIndexOfMaxR_policy by assumption.
Qed.
End Policies.

Lemma winning_segment_Sequential f y :
  winning_segment Sequential f y
  = (let M := Calculate_M_Sequential f y in
     let m := if (M =? 0)%float then 1%float else (r * M)%float in
     let index := snd (CalculateIndexOfMaxR_Sequential f y m) in
     seg ← vec_at y (int_to_size_t index); Ok (m, index, seg)).
Proof.
  unfold winning_segment. cbn [Calculate_M CalculateIndexOfMaxR mbind result_bind].
  now rewrite Calculate_m_in_loop.
Qed.

Lemma GetMin_pass_policy policy f epsilon y :
  policy_ok policy -> size y <= INT_MAX ->
  GetMin_pass policy f epsilon y = GetMin_pass Sequential f epsilon y.
Proof.
  intros Hp Hy. unfold GetMin_pass.
  now rewrite (winning_segment_policy policy f Hp y Hy),
              (winning_segment_policy Sequential f I y Hy).
Qed.

Lemma GetMin_loop_policy policy f epsilon n : forall i y,
  policy_ok policy -> size y + Z.of_nat n <= INT_MAX ->
  GetMin_loop policy f epsilon n i y = GetMin_loop Sequential f epsilon n i y.
Proof.
  induction n as [|n IH]; intros i y Hp Hy; [reflexivity|].
  cbn [GetMin_loop]. rewrite GetMin_pass_policy by (auto; lia).
  destruct (GetMin_pass Sequential f epsilon y) as [[v|y1]|e] eqn:E; try reflexivity.
  apply IH; [assumption|].
  destruct (GetMin_pass_next_inv _ _ _ _ _ E) as (m & index & seg & _ & _ & _ & ->).
  unfold size in *. rewrite length_refine. lia.
Qed.

(** The reduction of the parallel [Calculate_M] leaves on the coordinator
    the value the sequential form returns, bit for bit and for every count
    of processes. *)
Theorem Calculate_M_Parallel_is_Sequential f y procCount :
  1 <= procCount <= INT_MAX -> size y <= INT_MAX ->
  Calculate_M_Parallel procCount f y = Ok (Calculate_M_Sequential f y) /\
  Calculate_M (Parallel procCount) f y = Calculate_M Sequential f y.
Proof.
  intros Hp Hy. pose proof (Calculate_M_Parallel_ok f y procCount Hp Hy) as H.
  split; exact H.
Qed.

Lemma Calculate_M_Parallel_is_Sequential_witness :
  let f : Function := fun x => ((x - 2) * (x - 2))%float in
  let y := [ {| seg_begin := 0%float; seg_end := 1%float |};
             {| seg_begin := 1%float; seg_end := 2%float |};
             {| seg_begin := 2%float; seg_end := 5%float |};
             {| seg_begin := 5%float; seg_end := 5.5%float |};
             {| seg_begin := 5.5%float; seg_end := 7%float |} ] in
  Calculate_M_Parallel 3 f y = Ok 8.5%float /\
  Calculate_M_Sequential f y = 8.5%float.
Proof.
  intros f y.
  destruct (Calculate_M_Parallel_is_Sequential f y 3) as (H & _).
  - unfold INT_MAX. lia.
  - unfold INT_MAX. vm_compute. discriminate.
  - split; [rewrite H|]; vm_compute; reflexivity.
Defined.

(** The parallel and the sequential entry points return the same result. *)
Theorem GetMinParallel_is_GetMinSequential procCount f a b epsilon :
  1 <= procCount <= INT_MAX ->
  GetMinParallel procCount f a b epsilon = GetMinSequential f a b epsilon.
Proof.
  intros Hp. unfold GetMinParallel, GetMinSequential, GetMin, GetMin_run.
  rewrite GetMin_loop_policy; [reflexivity|exact Hp|].
  unfold size, maxIterationCount, INT_MAX. cbn [length]. lia.
Qed.

Lemma GetMinParallel_is_GetMinSequential_witness :
  GetMinParallel 3 zero_function 0%float 1%float 2%float
  = GetMinSequential zero_function 0%float 1%float 2%float.
Proof. apply GetMinParallel_is_GetMinSequential. unfold INT_MAX. lia. Defined.

(** ** GetMin *)

(** The examples: on [tight_segment] with the constant function 0 the new
    point rounds to the start of the segment, so every pass appends
    [point_segment] and changes nothing else. *)
Section Stalled.
Local Open Scope float_scope.

Lemma ltb_nan x : (x <? nan) = false.
Proof.
  destruct (x <? nan) eqn:E; [|reflexivity].
  apply ltb_number_r in E. discriminate.
Qed.

Lemma Calculate_M_loop_points k M :
  Calculate_M_loop zero_function (replicate k point_segment) M = M.
Proof.
  induction k as [|k IH]; [reflexivity|]. cbn [replicate Calculate_M_loop].
  change (M_ratio zero_function point_segment) with nan.
  now rewrite ltb_nan.
Qed.

Lemma CalculateIndexOfMaxR_loop_points k : forall i acc,
  CalculateIndexOfMaxR_loop zero_function 1 i (replicate k point_segment) acc = acc.
Proof.
  induction k as [|k IH]; intros i acc; [reflexivity|].
  cbn [replicate CalculateIndexOfMaxR_loop].
  change (characteristic zero_function 1 point_segment) with nan.
  now rewrite ltb_nan.
Qed.

Lemma winning_segment_stalled k :
  winning_segment Sequential zero_function (tight_segment :: replicate k point_segment)
  = Ok (1, 0%Z, tight_segment).
Proof.
  rewrite winning_segment_Sequential.
  assert (HM : Calculate_M_Sequential zero_function
                 (tight_segment :: replicate k point_segment) = 0).
  { unfold Calculate_M_Sequential. cbn [Calculate_M_loop].
    change (M_ratio zero_function tight_segment) with 0.
    change (0 <? 0) with false. apply Calculate_M_loop_points. }
  cbn zeta. rewrite HM. change (0 =? 0) with true. cbn iota.
  unfold CalculateIndexOfMaxR_Sequential. cbn [CalculateIndexOfMaxR_loop].
  change (characteristic zero_function 1 tight_segment) with 0x1p-52.
  change (fst no_maximum <? 0x1p-52) with true. cbn iota.
  rewrite CalculateIndexOfMaxR_loop_points. reflexivity.
Qed.

Lemma GetMin_pass_stalled k :
  GetMin_pass Sequential zero_function 0x1p-60 (tight_segment :: replicate k point_segment)
  = Ok (Next (tight_segment :: replicate (S k) point_segment)).
Proof.
  rewrite (GetMin_pass_next _ _ _ _ _ _ _ (winning_segment_stalled k)) by reflexivity.
  unfold refine. change (new_point zero_function 1 tight_segment) with 1.
  change (Z.to_nat (int_to_size_t 0)) with 0%nat.
  change {| seg_begin := 1; seg_end := seg_end tight_segment |} with tight_segment.
  change {| seg_begin := seg_begin tight_segment; seg_end := 1 |} with point_segment.
  cbn [insert list_insert app]. now rewrite <- replicate_S_end.
Qed.

Lemma segments_at_stalled k : forall j,
  segments_at Sequential zero_function 0x1p-60 k
    (tight_segment :: replicate j point_segment)
  = Some (tight_segment :: replicate (j + k) point_segment).
Proof.
  induction k as [|k IH]; intros j.
  - now rewrite Nat.add_0_r.
  - rewrite (segments_at_S _ _ _ _ _ _ (GetMin_pass_stalled j)), IH.
    do 3 f_equal. lia.
Qed.
End Stalled.

(** C4, as the code has it.  A pass whose winning segment is shorter than
    [epsilon] ends the loop with [f(end)].  With [epsilon] above [b - a] the
    call ends in its first pass: it returns [f(b)] when the characteristic of
    [[a, b]] is above [-DBL_MAX], and otherwise no segment wins, the index
    is [-1] and [y.at(-1)] throws. *)
Theorem GetMin_returns_f_end policy f epsilon :
  (forall y m index seg remaining iterationIndex,
     winning_segment policy f y = Ok (m, index, seg) ->
     (seg_end seg - seg_begin seg <? epsilon)%float = true ->
     GetMin_loop policy f epsilon (S remaining) iterationIndex y
     = (Ok (f (seg_end seg)), iterationIndex)) /\
  (forall a b,
     policy_ok policy -> (b - a <? epsilon)%float = true ->
     GetMin_run policy f a b epsilon
     = (if (- DBL_MAX <? characteristic f (first_m f a b)
                           {| seg_begin := a; seg_end := b |})%float
        then Ok (f b) else Err OutOfRange, 0)).
Proof.
  split.
  - intros y m index seg remaining i Hwin Hlen. cbn [GetMin_loop].
    now rewrite (GetMin_pass_return _ _ _ _ _ _ _ Hwin Hlen).
  - intros a b Hp Hlen. unfold GetMin_run.
    assert (Z.to_nat maxIterationCount = S (Z.to_nat (maxIterationCount - 1))) as ->
      by (unfold maxIterationCount; lia).
    cbn [GetMin_loop].
    set (ab := {| seg_begin := a; seg_end := b |}).
    pose proof (winning_segment_policy policy f Hp [ab]
                  ltac:(unfold size, INT_MAX; cbn; lia)) as Hwin.
    cbn zeta in Hwin.
    change (if (Calculate_M_Sequential f [ab] =? 0)%float
            then 1%float else (r * Calculate_M_Sequential f [ab])%float)
      with (first_m f a b) in Hwin.
    unfold CalculateIndexOfMaxR_Sequential in Hwin. cbn [CalculateIndexOfMaxR_loop] in Hwin.
    change (fst no_maximum) with (- DBL_MAX)%float in Hwin.
    destruct (- DBL_MAX <? characteristic f (first_m f a b) ab)%float.
    + cbn [snd] in Hwin. change (int_to_size_t 0) with 0 in Hwin.
      rewrite (vec_at_ok [ab] 0 ab) in Hwin by (reflexivity || lia).
      cbn [mbind result_bind] in Hwin.
      now rewrite (GetMin_pass_return _ _ _ _ _ _ _ Hwin Hlen).
    + change (int_to_size_t (snd no_maximum)) with (2 ^ 64 - 1) in Hwin.
      rewrite vec_at_out in Hwin by (unfold size; cbn [length]; lia).
      cbn [mbind result_bind] in Hwin.
      now rewrite (GetMin_pass_error _ _ _ _ _ Hwin).
Qed.

Lemma GetMin_returns_f_end_witness :
  GetMin_run Sequential (fun x => (x * x)%float) 1%float 3%float 4%float
  = (Ok 9%float, 0).
Proof.
  destruct (GetMin_returns_f_end Sequential (fun x => (x * x)%float) 4%float) as [_ H].
  rewrite (H 1%float 3%float I eq_refl). reflexivity.
Defined.

(** C4, as the claim states it, fails for the constant function [2^1023]
    on [[0, 1]] with [epsilon = 2]: the sum [f(b) + f(a)] overflows, the
    characteristic is minus infinity, no segment wins and the call throws
    instead of returning [f(b)] or [f(a)]. *)
Lemma GetMin_first_pass_throws :
  let f : Function := fun _ => 0x1p+1023%float in
  (0 <? 1)%float = true /\ (1 - 0 <? 2)%float = true /\
  GetMin Sequential f 0%float 1%float 2%float = Err OutOfRange /\
  GetMin Sequential f 0%float 1%float 2%float <> Ok (f 1%float) /\
  GetMin Sequential f 0%float 1%float 2%float <> Ok (f 0%float).
Proof. vm_compute. repeat split; discriminate. Qed.

(* ================================================================= *)
(** * Further properties *)

(** ** The work splitter: bounds and blocks *)

Lemma GetPrevPartWork_wrap dist k :
  (k <= length dist)%nat ->
  GetPrevPartWork {| m_workDistribution := dist |} (Z.of_nat k)
  = Ok (size_t_wrap (sum_Z (take k dist))).
Proof.
  intros Hk. unfold GetPrevPartWork. cbn [m_workDistribution].
  induction k as [|k IH].
  - now rewrite for_range_empty by lia.
  - replace (Z.of_nat (S k)) with (Z.of_nat k + 1) by lia.
    rewrite for_range_snoc by lia. rewrite IH by lia. cbn [mbind result_bind].
    destruct (lookup_lt_is_Some_2 dist k ltac:(lia)) as [x Hx].
    rewrite (vec_at_ok dist (Z.of_nat k) x) by (rewrite ?Nat2Z.id; auto; lia).
    cbn [mbind result_bind]. f_equal.
    rewrite (take_S_r _ _ _ Hx), sum_Z_app.
    change (sum_Z [x]) with (x + 0). rewrite Z.add_0_r.
    unfold size_t_wrap. now rewrite Z.add_mod_idemp_l by lia.
Qed.

Lemma GetPrevPartWork_past dist n :
  size dist < n -> GetPrevPartWork {| m_workDistribution := dist |} n = Err OutOfRange.
Proof.
  intros Hn. unfold size in Hn.
  pose proof (GetPrevPartWork_wrap dist (length dist) ltac:(lia)) as Hall.
  unfold GetPrevPartWork in *. cbn [m_workDistribution] in *.
  unfold for_range in *. rewrite Z.sub_0_r in *.
  replace n with (Z.of_nat (length dist) + (n - Z.of_nat (length dist))) by lia.
  rewrite seqZ_app by lia. rewrite for_each_app, Hall. cbn [mbind result_bind].
  rewrite (seqZ_cons _ (n - Z.of_nat (length dist))) by lia. cbn [for_each].
  rewrite vec_at_out by (unfold size; lia). reflexivity.
Qed.

(** [GetPrevPartWork(n)] adds up the first [n] entries, modulo 2^64, for
    every [n] up to the number of workers, the sum of all the entries for
    [n] equal to it; for a larger [n] the checked access [at] throws. *)
Theorem GetPrevPartWork_bounds ws n :
  (0 <= n <= size (m_workDistribution ws) ->
   GetPrevPartWork ws n
   = Ok (size_t_wrap (sum_Z (take (Z.to_nat n) (m_workDistribution ws))))) /\
  (size (m_workDistribution ws) < n -> GetPrevPartWork ws n = Err OutOfRange).
Proof.
  destruct ws as [dist]. cbn [m_workDistribution]. split.
  - intros Hn. rewrite <- (Z2Nat.id n) at 1 by lia.
    apply GetPrevPartWork_wrap. unfold size in Hn. lia.
  - apply GetPrevPartWork_past.
Qed.

Lemma GetPrevPartWork_bounds_witness :
  GetPrevPartWork {| m_workDistribution := [2; 2; 3] |} 2 = Ok 4 /\
  GetPrevPartWork {| m_workDistribution := [2; 2; 3] |} 3 = Ok 7 /\
  GetPrevPartWork {| m_workDistribution := [2; 2; 3] |} 4 = Err OutOfRange.
Proof.
  pose proof (GetPrevPartWork_bounds {| m_workDistribution := [2; 2; 3] |}) as H.
  split; [|split].
  - apply (proj1 (H 2)). unfold size. cbn [length m_workDistribution]. lia.
  - apply (proj1 (H 3)). unfold size. cbn [length m_workDistribution]. lia.
  - apply (proj2 (H 4)). unfold size. cbn [length m_workDistribution]. lia.
Defined.

(** With no worker the constructor has nothing to do for no work, and
    divides by zero in its first pass for any work. *)
Theorem WorkSplitter_no_worker work :
  WorkSplitter_new 0 0 = Ok {| m_workDistribution := [] |} /\
  (0 < work -> WorkSplitter_new work 0 = Err UndefinedBehaviour).
Proof.
  split; [reflexivity|]. intros Hw. unfold WorkSplitter_new.
  destruct (Z.leb_spec work 0) as [|_]; [lia|].
  unfold split_fuel, split_init. cbn [Z.to_nat while].
  rewrite split_cond_true by lia. reflexivity.
Qed.

Lemma WorkSplitter_no_worker_witness :
  WorkSplitter_new 5 0 = Err UndefinedBehaviour.
Proof. apply (WorkSplitter_no_worker 5). lia. Defined.

Lemma sum_Z_take_S (d : list Z) k x :
  d !! k = Some x -> sum_Z (take (S k) d) = sum_Z (take k d) + x.
Proof.
  intros Hx. rewrite (take_S_r _ _ _ Hx), sum_Z_app.
  change (sum_Z [x]) with (x + 0). lia.
Qed.

(** The blocks of the workers follow one another with no gap: the block of
    worker [k] starts where [GetPrevPartWork(k)] says, has
    [GetPartWork(k)] units, the next one starts right after it, and none
    reaches past the work. *)
Theorem WorkSplitter_blocks_adjacent unitCount workerCount k :
  0 <= unitCount < 2 ^ 64 -> 1 <= workerCount < 2 ^ 64 -> 0 <= k < workerCount ->
  exists ws first count,
    WorkSplitter_new unitCount workerCount = Ok ws /\
    GetPrevPartWork ws 0 = Ok 0 /\
    GetPrevPartWork ws k = Ok first /\
    GetPartWork ws k = Ok count /\
    GetPrevPartWork ws (k + 1) = Ok (first + count) /\
    0 <= first /\ 0 <= count /\ first + count <= unitCount.
Proof.
  intros Hu Hw Hk.
  set (d := distribution unitCount workerCount).
  pose proof (length_distribution unitCount workerCount ltac:(lia) ltac:(lia)) as Hlen.
  pose proof (sum_distribution unitCount workerCount ltac:(lia) ltac:(lia) ltac:(lia)) as Hsum.
  pose proof (distribution_nonneg unitCount workerCount ltac:(lia) ltac:(lia)) as Hpos.
  fold d in Hlen, Hsum, Hpos. unfold size in Hlen.
  destruct (lookup_lt_is_Some_2 d (Z.to_nat k) ltac:(lia)) as [x Hx].
  exists {| m_workDistribution := d |}, (sum_Z (take (Z.to_nat k) d)), x.
  pose proof (sum_Z_take_le d (Z.to_nat k) Hpos).
  pose proof (sum_Z_take_le d (S (Z.to_nat k)) Hpos) as Hnext.
  rewrite (sum_Z_take_S _ _ _ Hx) in Hnext.
  pose proof (Forall_lookup_1 _ _ _ _ Hpos Hx) as Hx0. cbn beta in Hx0.
  split; [apply WorkSplitter_new_ok; lia|].
  split; [apply (GetPrevPartWork_ok d 0); [lia|assumption|lia]|].
  split; [rewrite <- (Z2Nat.id k) at 1 by lia; apply GetPrevPartWork_ok; [lia|assumption|lia]|].
  split; [apply GetPartWork_ok; [lia|assumption]|].
  split; [|lia].
  replace (k + 1) with (Z.of_nat (S (Z.to_nat k))) by lia.
  rewrite GetPrevPartWork_ok by (auto; lia).
  now rewrite (sum_Z_take_S _ _ _ Hx).
Qed.

Lemma WorkSplitter_blocks_adjacent_witness :
  exists ws first count,
    WorkSplitter_new 7 3 = Ok ws /\
    GetPrevPartWork ws 0 = Ok 0 /\
    GetPrevPartWork ws 1 = Ok first /\
    GetPartWork ws 1 = Ok count /\
    GetPrevPartWork ws (1 + 1) = Ok (first + count) /\
    0 <= first /\ 0 <= count /\ first + count <= 7.
Proof. apply (WorkSplitter_blocks_adjacent 7 3 1); lia. Defined.

Lemma sum_take_distribution unitCount workerCount k :
  0 <= unitCount -> 1 <= workerCount -> (k <= Z.to_nat workerCount)%nat ->
  sum_Z (take k (distribution unitCount workerCount))
  = (if unitCount <=? workerCount then Z.min (Z.of_nat k) unitCount
     else Z.of_nat k * (unitCount / workerCount)
          + Z.max 0 (Z.of_nat k - (workerCount - unitCount mod workerCount))).
Proof.
  intros Hu Hw Hk.
  pose proof (Z.mod_pos_bound unitCount workerCount ltac:(lia)).
  induction k as [|k IH].
  - change (sum_Z (take 0 (distribution unitCount workerCount))) with 0.
    change (Z.of_nat 0) with 0. destruct (unitCount <=? workerCount); lia.
  - pose proof (lookup_distribution unitCount workerCount (Z.of_nat k) Hu ltac:(lia)) as Hx.
    rewrite Nat2Z.id in Hx. rewrite (sum_Z_take_S _ _ _ Hx), IH by lia.
    unfold share.
    destruct (Z.leb_spec unitCount workerCount).
    + destruct (Z.ltb_spec (Z.of_nat k) unitCount); lia.
    + destruct (Z.ltb_spec (Z.of_nat k) (workerCount - unitCount mod workerCount)); nia.
Qed.

(** The block of worker [k] starts at [min k unitCount] when there are no
    more units than workers, and otherwise after [k] blocks of
    [unitCount / workerCount] units and one more unit for each of the
    workers before [k] that are among the last [unitCount mod workerCount]. *)
Theorem GetPrevPartWork_closed_form unitCount workerCount k :
  0 <= unitCount < 2 ^ 64 -> 1 <= workerCount < 2 ^ 64 -> 0 <= k <= workerCount ->
  exists ws,
    WorkSplitter_new unitCount workerCount = Ok ws /\
    GetPrevPartWork ws k
    = Ok (if unitCount <=? workerCount then Z.min k unitCount
          else k * (unitCount / workerCount)
               + Z.max 0 (k - (workerCount - unitCount mod workerCount))).
Proof.
  intros Hu Hw Hk. eexists. split; [apply WorkSplitter_new_ok; lia|].
  pose proof (length_distribution unitCount workerCount ltac:(lia) ltac:(lia)) as Hlen.
  unfold size in Hlen.
  rewrite <- (Z2Nat.id k) at 1 by lia.
  rewrite GetPrevPartWork_ok.
  - rewrite sum_take_distribution by lia. now rewrite Z2Nat.id by lia.
  - lia.
  - apply distribution_nonneg; lia.
  - rewrite sum_distribution; lia.
Qed.

Lemma GetPrevPartWork_closed_form_witness :
  exists ws, WorkSplitter_new 11 4 = Ok ws /\ GetPrevPartWork ws 3 = Ok 8.
Proof. apply (GetPrevPartWork_closed_form 11 4 3); lia. Defined.

(** ** Segments that cannot win

    A segment whose ends are the same double, or one of whose ends is NaN,
    has NaN for its quotient and for its characteristic. *)

Lemma SFsub_diag s : SF64sub s s = S754_zero false \/ SF64sub s s = S754_nan.
Proof.
  destruct s as [[]|[]| |sx mx ex]; cbn; auto.
  left. now rewrite Z.sub_diag.
Qed.

Lemma SFnot_number s : SFeqb s s = false -> s = S754_nan.
Proof. sf_order. Qed.

Lemma SFcharacteristic_point sm sx sz sk :
  SF64sub
    (SF64add (SF64mul sm (SF64sub sx sx))
       (SF64div (SF64mul (SF64sub sz sz) (SF64sub sz sz)) (SF64mul sm (SF64sub sx sx))))
    sk
  = S754_nan.
Proof.
  destruct (SFsub_diag sx) as [-> | ->], (SFsub_diag sz) as [-> | ->];
    destruct sm as [[]|[]| |[] ? ?]; reflexivity.
Qed.

Lemma SFratio_point sx sz :
  SFabs (SF64div (SF64sub sz sz) (SF64sub sx sx)) = S754_nan.
Proof.
  destruct (SFsub_diag sx) as [-> | ->], (SFsub_diag sz) as [-> | ->]; reflexivity.
Qed.

Lemma SFcharacteristic_nan sm sa sb s1 sk :
  sa = S754_nan \/ sb = S754_nan ->
  SF64sub (SF64add (SF64mul sm (SF64sub sb sa)) (SF64div s1 (SF64mul sm (SF64sub sb sa)))) sk
  = S754_nan.
Proof.
  intros [-> | ->].
  - replace (SF64sub sb S754_nan) with S754_nan by now destruct sb as [[]|[]| |].
    replace (SF64mul sm S754_nan) with S754_nan by now destruct sm as [[]|[]| |].
    reflexivity.
  - cbn [SF64sub SFsub].
    replace (SF64mul sm S754_nan) with S754_nan by now destruct sm as [[]|[]| |].
    reflexivity.
Qed.

Lemma SFratio_nan sa sb s1 :
  sa = S754_nan \/ sb = S754_nan -> SFabs (SF64div s1 (SF64sub sb sa)) = S754_nan.
Proof.
  intros [-> | ->].
  - replace (SF64sub sb S754_nan) with S754_nan by now destruct sb as [[]|[]| |].
    now destruct s1 as [[]|[]| |].
  - cbn [SF64sub SFsub]. now destruct s1 as [[]|[]| |].
Qed.

Section Degenerate.
Local Open Scope float_scope.
Variable f : Function.

Lemma not_number_nan x : is_number x = false -> x = nan.
Proof.
  unfold is_number. rewrite FloatAxioms.eqb_spec. intros H.
  apply Prim2SF_inj. now rewrite (SFnot_number _ H).
Qed.

Lemma characteristic_point m seg :
  seg_begin seg = seg_end seg -> characteristic f m seg = nan.
Proof.
  intros H. apply Prim2SF_inj. unfold characteristic. rewrite H. cbn zeta.
  rewrite sub_spec, add_spec, div_spec, !mul_spec, !sub_spec.
  apply SFcharacteristic_point.
Qed.

Lemma M_ratio_point seg : seg_begin seg = seg_end seg -> M_ratio f seg = nan.
Proof.
  intros H. apply Prim2SF_inj. unfold M_ratio. rewrite H. cbn zeta.
  rewrite abs_spec, div_spec, !sub_spec. apply SFratio_point.
Qed.

Lemma characteristic_nan m seg :
  is_number (seg_begin seg) = false \/ is_number (seg_end seg) = false ->
  characteristic f m seg = nan.
Proof.
  intros H. apply Prim2SF_inj. unfold characteristic. cbn zeta.
  rewrite sub_spec, add_spec, div_spec, !(mul_spec m), !(sub_spec (seg_end seg)).
  apply SFcharacteristic_nan.
  destruct H as [H|H]; apply not_number_nan in H; rewrite H; auto.
Qed.

Lemma M_ratio_nan seg :
  is_number (seg_begin seg) = false \/ is_number (seg_end seg) = false ->
  M_ratio f seg = nan.
Proof.
  intros H. apply Prim2SF_inj. unfold M_ratio. cbn zeta.
  rewrite abs_spec, div_spec, !(sub_spec (seg_end seg)).
  apply SFratio_nan.
  destruct H as [H|H]; apply not_number_nan in H; rewrite H; auto.
Qed.
End Degenerate.

Lemma SFltb_leb_false a x c :
  SFltb a x = true -> SFltb a c = false -> SFleb x c = false.
Proof. sf_order. Qed.

Lemma SFleb_false_ltb x c : SFleb x c = false -> SFltb x c = false.
Proof. sf_order. Qed.

Section First.
Local Open Scope float_scope.
Variables (f : Function) (m : double).

Lemma ltb_leb_false a x c : (a <? x) = true -> (a <? c) = false -> (x <=? c) = false.
Proof. rewrite !ltb_spec, leb_spec. apply SFltb_leb_false. Qed.

Lemma leb_false_ltb x c : (x <=? c) = false -> (x <? c) = false.
Proof. rewrite ltb_spec, leb_spec. apply SFleb_false_ltb. Qed.

Lemma scanned_step pre acc seg :
  scanned f m pre acc ->
  scanned f m (pre ++ [seg])
    (if fst acc <? characteristic f m seg
     then (characteristic f m seg, size pre) else acc).
Proof.
  intros [Hmax Hacc].
  destruct (fst acc <? characteristic f m seg) eqn:E.
  - split; cbn [fst snd].
    + intros seg' [Hin | ->%list_elem_of_singleton]%elem_of_app.
      * apply leb_false_ltb, (ltb_leb_false (fst acc)); auto.
      * apply ltb_irrefl.
    + right. unfold size. rewrite length_app, Nat2Z.id. cbn [length].
      split; [lia|]. split; [|split].
      * destruct Hacc as [-> | (_ & Hlow & _)]; [exact E|].
        exact (ltb_trans _ _ _ Hlow E).
      * exists seg. split; [|reflexivity].
        rewrite lookup_app_r by lia. now rewrite Nat.sub_diag.
      * intros j seg' Hj Hseg'. rewrite lookup_app_l in Hseg' by lia.
        apply (ltb_leb_false (fst acc)); [exact E|].
        apply Hmax. eapply list_elem_of_lookup_2; eauto.
  - split.
    + intros seg' [Hin | ->%list_elem_of_singleton]%elem_of_app; auto.
    + destruct Hacc as [-> | (Hidx & Hlow & (seg' & Hseg' & Hval) & Hfirst)]; [now left|].
      right. unfold size in *. rewrite length_app. cbn [length].
      split; [lia|]. split; [exact Hlow|]. split.
      * exists seg'. split; [|exact Hval]. rewrite lookup_app_l by lia. exact Hseg'.
      * intros j seg'' Hj Hseg''. rewrite lookup_app_l in Hseg'' by lia. eauto.
Qed.

Lemma scanned_loop l : forall pre acc,
  scanned f m pre acc ->
  scanned f m (pre ++ l) (CalculateIndexOfMaxR_loop f m (size pre) l acc).
Proof.
  induction l as [|seg l IH]; intros pre acc H.
  - now rewrite app_nil_r.
  - cbn [CalculateIndexOfMaxR_loop]. cbn zeta.
    pose proof (IH (pre ++ [seg]) _ (scanned_step pre acc seg H)) as Hnext.
    rewrite <- app_assoc in Hnext. cbn [app] in Hnext.
    replace (size (pre ++ [seg])) with (size pre + 1)%Z in Hnext
      by (unfold size; rewrite length_app; cbn [length]; lia).
    exact Hnext.
Qed.

Lemma scanned_Sequential y : scanned f m y (CalculateIndexOfMaxR_Sequential f y m).
Proof.
  apply (scanned_loop y [] no_maximum). split; [|now left].
  intros seg Hin. inversion Hin.
Qed.
End First.


Section Winner.
Local Open Scope float_scope.
Variables (policy : ExecutionPolicy) (f : Function).
Hypothesis policy_valid : policy_ok policy.

Lemma winning_segment_inv y m index seg :
  (size y <= INT_MAX)%Z ->
  winning_segment policy f y = Ok (m, index, seg) ->
  Calculate_m (Calculate_M_Sequential f y) r = Ok m /\
  CalculateIndexOfMaxR_Sequential f y m = (characteristic f m seg, index) /\
  (0 <= index < size y)%Z /\
  y !! Z.to_nat index = Some seg /\
  (- DBL_MAX <? characteristic f m seg) = true.
Proof.
  intros Hy Hwin. rewrite winning_segment_policy in Hwin by assumption.
  cbn zeta in Hwin. rewrite Calculate_m_in_loop.
  set (m' := if Calculate_M_Sequential f y =? 0 then 1
             else r * Calculate_M_Sequential f y) in *.
  destruct (scanned_Sequential f m' y) as [_ Hres].
  destruct (vec_at y _) as [seg'|] eqn:Hat; [|discriminate].
  cbn [mbind result_bind] in Hwin. injection Hwin as <- <- <-.
  apply vec_at_inv in Hat as [Hidx Hseg].
  destruct Hres as [Hres | (Hpos & Hlow & (seg & Hseg' & Hval) & _)].
  - rewrite Hres in Hidx. exfalso. revert Hidx Hy.
    change (int_to_size_t (snd no_maximum)) with (2 ^ 64 - 1)%Z.
    unfold INT_MAX. lia.
  - rewrite int_to_size_t_small in Hseg by (unfold INT_MAX in Hy; lia).
    rewrite Hseg' in Hseg. injection Hseg as ->.
    repeat split; try assumption; try lia.
    + rewrite Hval. now destruct (CalculateIndexOfMaxR_Sequential f y m').
    + now rewrite Hval.
Qed.

Lemma winning_segment_error y e :
  (size y <= INT_MAX)%Z ->
  winning_segment policy f y = Err e ->
  e = OutOfRange /\
  exists m, Calculate_m (Calculate_M_Sequential f y) r = Ok m /\
            CalculateIndexOfMaxR_Sequential f y m = no_maximum /\
            forall seg, seg ∈ y -> (- DBL_MAX <? characteristic f m seg) = false.
Proof.
  intros Hy Hwin. rewrite winning_segment_policy in Hwin by assumption.
  cbn zeta in Hwin. rewrite Calculate_m_in_loop.
  set (m' := if Calculate_M_Sequential f y =? 0 then 1
             else r * Calculate_M_Sequential f y) in *.
  destruct (scanned_Sequential f m' y) as [Hmax Hres].
  destruct Hres as [Hres | (Hpos & _ & (seg & Hseg & _) & _)].
  - rewrite Hres in Hwin, Hmax.
    rewrite vec_at_out in Hwin.
    + injection Hwin as <-. split; [reflexivity|]. exists m'. auto.
    + change (int_to_size_t (snd no_maximum)) with (2 ^ 64 - 1)%Z.
      unfold INT_MAX in Hy. lia.
  - rewrite int_to_size_t_small in Hwin by (unfold INT_MAX in Hy; lia).
    rewrite (vec_at_ok y _ seg) in Hwin by (assumption || lia). discriminate.
Qed.

Lemma GetMin_pass_error_inv epsilon y e :
  GetMin_pass policy f epsilon y = Err e -> winning_segment policy f y = Err e.
Proof.
  intros Hpass. destruct (winning_segment policy f y) as [[[m index] seg]|e'] eqn:Hwin.
  - destruct (seg_end seg - seg_begin seg <? epsilon) eqn:Hlen.
    + rewrite (GetMin_pass_return _ _ _ _ _ _ _ Hwin Hlen) in Hpass. discriminate.
    + rewrite (GetMin_pass_next _ _ _ _ _ _ _ Hwin Hlen) in Hpass. discriminate.
  - rewrite (GetMin_pass_error _ _ _ _ _ Hwin) in Hpass. now injection Hpass as ->.
Qed.

Lemma GetMin_loop_error epsilon n : forall i y e,
  (size y + Z.of_nat n <= INT_MAX)%Z ->
  fst (GetMin_loop policy f epsilon n i y) = Err e ->
  e = OutOfRange /\
  exists (k : nat) yk m,
    (k < n)%nat /\
    snd (GetMin_loop policy f epsilon n i y) = (i + Z.of_nat k)%Z /\
    segments_at policy f epsilon k y = Some yk /\
    Calculate_m (Calculate_M_Sequential f yk) r = Ok m /\
    forall seg, seg ∈ yk -> (- DBL_MAX <? characteristic f m seg) = false.
Proof.
  induction n as [|n IH]; intros i y e Hy Hloop; [discriminate|].
  cbn [GetMin_loop] in *.
  destruct (GetMin_pass policy f epsilon y) as [[v|y']|e'] eqn:Hpass.
  - discriminate.
  - destruct (GetMin_pass_next_inv _ _ _ _ _ Hpass) as (m & index & seg & _ & _ & _ & Hy').
    destruct (IH (i + 1)%Z y' e) as (He & k & yk & mk & Hk & Hidx & Hat & Hm & Hall);
      [|assumption|].
    { rewrite Hy'. unfold size in *. rewrite length_refine. lia. }
    split; [assumption|]. exists (S k), yk, mk.
    split; [lia|]. split; [rewrite Hidx; lia|].
    split; [|auto]. now rewrite (segments_at_S _ _ _ _ _ _ Hpass).
  - cbn [fst snd] in *. injection Hloop as ->.
    apply GetMin_pass_error_inv in Hpass.
    destruct (winning_segment_error y e ltac:(lia) Hpass) as (He & m & Hm & _ & Hall).
    split; [assumption|]. exists 0%nat, y, m.
    split; [lia|]. split; [lia|]. auto.
Qed.
End Winner.

(** Both selectors break a tie towards the lowest position. *)
Theorem CalculateIndexOfMaxR_first_of_the_greatest policy f y m :
  policy_ok policy -> size y <= INT_MAX ->
  exists res,
    CalculateIndexOfMaxR policy f y m = Ok res /\
    (forall seg, seg ∈ y -> (fst res <? characteristic f m seg)%float = false) /\
    (res = no_maximum \/
     0 <= snd res < size y /\
     (- DBL_MAX <? fst res)%float = true /\
     (exists seg, y !! Z.to_nat (snd res) = Some seg /\
                  characteristic f m seg = fst res) /\
     (forall j seg, (j < Z.to_nat (snd res))%nat -> y !! j = Some seg ->
                    (fst res <=? characteristic f m seg)%float = false)).
Proof.
  intros Hp Hy. exists (CalculateIndexOfMaxR_Sequential f y m).
  split; [now apply CalculateIndexOfMaxR_policy|].
  apply scanned_Sequential.
Qed.

Lemma CalculateIndexOfMaxR_first_of_the_greatest_witness :
  let y := [ {| seg_begin := 0%float; seg_end := 1%float |};
             {| seg_begin := 1%float; seg_end := 3%float |};
             {| seg_begin := 3%float; seg_end := 5%float |} ] in
  characteristic zero_function 1%float {| seg_begin := 1%float; seg_end := 3%float |}
  = characteristic zero_function 1%float {| seg_begin := 3%float; seg_end := 5%float |} /\
  CalculateIndexOfMaxR (Parallel 2) zero_function y 1%float = Ok (2%float, 1) /\
  exists res,
    CalculateIndexOfMaxR (Parallel 2) zero_function y 1%float = Ok res /\
    (forall seg, seg ∈ y -> (fst res <? characteristic zero_function 1%float seg)%float = false) /\
    (res = no_maximum \/
     0 <= snd res < size y /\
     (- DBL_MAX <? fst res)%float = true /\
     (exists seg, y !! Z.to_nat (snd res) = Some seg /\
                  characteristic zero_function 1%float seg = fst res) /\
     (forall j seg, (j < Z.to_nat (snd res))%nat -> y !! j = Some seg ->
                    (fst res <=? characteristic zero_function 1%float seg)%float = false)).
Proof.
  intros y. split; [reflexivity|]. split; [vm_compute; reflexivity|].
  apply CalculateIndexOfMaxR_first_of_the_greatest.
  - unfold policy_ok, INT_MAX. lia.
  - unfold size, INT_MAX. cbn [length y]. lia.
Defined.

(** A segment whose two ends are the same double is skipped by both
    scans. *)
Theorem zero_length_segment_is_skipped f y1 seg y2 :
  seg_begin seg = seg_end seg ->
  Calculate_M_Sequential f (y1 ++ seg :: y2) = Calculate_M_Sequential f (y1 ++ y2) /\
  forall m, snd (CalculateIndexOfMaxR_Sequential f (y1 ++ seg :: y2) m) <> size y1.
Proof.
  intros Hseg. split.
  - unfold Calculate_M_Sequential. rewrite !Calculate_M_loop_app.
    cbn [Calculate_M_loop]. now rewrite (M_ratio_point f seg Hseg), ltb_nan.
  - intros m Hidx.
    destruct (scanned_Sequential f m (y1 ++ seg :: y2))
      as [_ [Hres | (_ & Hlow & (seg' & Hseg' & Hval) & _)]].
    + rewrite Hres in Hidx. unfold size in Hidx. cbn [snd no_maximum] in Hidx. lia.
    + rewrite Hidx in Hseg'. unfold size in Hseg'. rewrite Nat2Z.id in Hseg'.
      rewrite lookup_app_r, Nat.sub_diag in Hseg' by lia. injection Hseg' as <-.
      rewrite <- Hval, (characteristic_point f m seg Hseg) in Hlow. discriminate.
Qed.

Lemma zero_length_segment_is_skipped_witness :
  let f : Function := fun x => (x * x)%float in
  let y1 := [ {| seg_begin := 0%float; seg_end := 1%float |} ] in
  let seg := {| seg_begin := 1%float; seg_end := 1%float |} in
  let y2 := [ {| seg_begin := 1%float; seg_end := 3%float |} ] in
  Calculate_M_Sequential f (y1 ++ seg :: y2) = Calculate_M_Sequential f (y1 ++ y2) /\
  forall m, snd (CalculateIndexOfMaxR_Sequential f (y1 ++ seg :: y2) m) <> size y1.
Proof. intros f y1 seg y2. now apply zero_length_segment_is_skipped. Defined.

(** The segment the loop of [GetMin] works on has a characteristic above
    [-DBL_MAX]; its two ends are never the same double and neither is
    NaN. *)
Theorem winning_segment_has_length policy f y m index seg :
  policy_ok policy -> size y <= INT_MAX ->
  winning_segment policy f y = Ok (m, index, seg) ->
  y !! Z.to_nat index = Some seg /\
  (- DBL_MAX <? characteristic f m seg)%float = true /\
  seg_begin seg <> seg_end seg /\
  is_number (seg_begin seg) = true /\ is_number (seg_end seg) = true.
Proof.
  intros Hp Hy Hwin.
  destruct (winning_segment_inv policy f Hp y m index seg Hy Hwin)
    as (_ & _ & _ & Hseg & Hlow).
  split; [assumption|]. split; [assumption|]. split; [|split].
  - intros Heq. rewrite (characteristic_point f m seg Heq) in Hlow. discriminate.
  - destruct (is_number (seg_begin seg)) eqn:E; [reflexivity|].
    rewrite (characteristic_nan f m seg (or_introl E)) in Hlow. discriminate.
  - destruct (is_number (seg_end seg)) eqn:E; [reflexivity|].
    rewrite (characteristic_nan f m seg (or_intror E)) in Hlow. discriminate.
Qed.

Lemma winning_segment_has_length_witness :
  let y := tight_segment :: replicate 3 point_segment in
  y !! Z.to_nat 0 = Some tight_segment /\
  (- DBL_MAX <? characteristic zero_function 1%float tight_segment)%float = true /\
  seg_begin tight_segment <> seg_end tight_segment /\
  is_number (seg_begin tight_segment) = true /\ is_number (seg_end tight_segment) = true.
Proof.
  intros y.
  apply (winning_segment_has_length Sequential zero_function y 1%float 0 tight_segment).
  - exact I.
  - unfold size, INT_MAX. cbn [length y replicate]. lia.
  - apply winning_segment_stalled.
Defined.

(** In the loop of [GetMin] the assertions of [Calculate_m] never fail. *)
Theorem Calculate_m_never_fails_in_loop policy f y :
  policy_ok policy -> size y <= INT_MAX ->
  exists M m,
    Calculate_M policy f y = Ok M /\
    (0 <=? M)%float = true /\
    Calculate_m M r = Ok m /\
    (0 <? m)%float = true.
Proof.
  intros Hp Hy. exists (Calculate_M_Sequential f y). eexists.
  split; [now apply Calculate_M_policy|].
  split; [apply Calculate_M_Sequential_nonneg|].
  split; [apply Calculate_m_in_loop|].
  apply Calculate_m_positive; [apply Calculate_M_Sequential_nonneg|reflexivity].
Qed.

Lemma Calculate_m_never_fails_in_loop_witness :
  exists M m,
    Calculate_M (Parallel 2) (fun x => (x * x)%float)
      [ {| seg_begin := 0%float; seg_end := 1%float |};
        {| seg_begin := 1%float; seg_end := 3%float |} ] = Ok M /\
    (0 <=? M)%float = true /\
    Calculate_m M r = Ok m /\
    (0 <? m)%float = true.
Proof.
  apply Calculate_m_never_fails_in_loop.
  - unfold policy_ok, INT_MAX. lia.
  - unfold size, INT_MAX. cbn [length]. lia.
Defined.

(** ** What ends a call of [GetMin] *)

Lemma GetMin_run_first_error policy f a b epsilon e :
  winning_segment policy f [{| seg_begin := a; seg_end := b |}] = Err e ->
  GetMin_run policy f a b epsilon = (Err e, 0).
Proof.
  intros Hwin. unfold GetMin_run.
  assert (Z.to_nat maxIterationCount = S (Z.to_nat (maxIterationCount - 1))) as ->
    by (unfold maxIterationCount; lia).
  cbn [GetMin_loop]. now rewrite (GetMin_pass_error _ _ _ _ _ Hwin).
Qed.

Lemma winning_segment_none policy f y :
  policy_ok policy -> size y <= INT_MAX ->
  (forall m seg, seg ∈ y -> characteristic f m seg = nan) ->
  winning_segment policy f y = Err OutOfRange.
Proof.
  intros Hp Hy Hnan.
  destruct (winning_segment policy f y) as [[[m index] seg]|e] eqn:Hwin.
  - destruct (winning_segment_inv policy f Hp y m index seg Hy Hwin)
      as (_ & _ & _ & Hseg & Hlow).
    rewrite (Hnan m seg) in Hlow by (eapply list_elem_of_lookup_2; eauto).
    discriminate.
  - now destruct (winning_segment_error policy f Hp y e Hy Hwin) as [-> _].
Qed.

Lemma GetMin_loop_nan_epsilon policy f n : forall i y,
  policy_ok policy -> size y + Z.of_nat n <= INT_MAX ->
  GetMin_loop policy f nan n i y = (Ok NAN, i + Z.of_nat n) \/
  exists k, i <= k < i + Z.of_nat n /\
            GetMin_loop policy f nan n i y = (Err OutOfRange, k).
Proof.
  induction n as [|n IH]; intros i y Hp Hy.
  - left. cbn [GetMin_loop]. f_equal. lia.
  - cbn [GetMin_loop].
    destruct (winning_segment policy f y) as [[[m index] seg]|e] eqn:Hwin.
    + rewrite (GetMin_pass_next _ _ _ _ _ _ _ Hwin (ltb_nan _)).
      destruct (IH (i + 1) (refine y (Z.to_nat (int_to_size_t index)) seg
                              (new_point f m seg)) Hp) as [H | (k & Hk & H)].
      * unfold size in *. rewrite length_refine. lia.
      * left. rewrite H. f_equal. lia.
      * right. exists k. split; [lia|exact H].
    + rewrite (GetMin_pass_error _ _ _ _ _ Hwin).
      destruct (winning_segment_error policy f Hp y e ltac:(lia) Hwin) as [-> _].
      right. exists i. split; [lia|reflexivity].
Qed.

(** With NaN for [epsilon] no pass ever returns: the call goes through all
    its passes and returns NaN, unless a pass throws. *)
Theorem GetMin_nan_epsilon policy f a b :
  policy_ok policy ->
  GetMin_run policy f a b nan = (Ok NAN, maxIterationCount) \/
  exists k, 0 <= k < maxIterationCount /\
            GetMin_run policy f a b nan = (Err OutOfRange, k).
Proof.
  intros Hp. unfold GetMin_run.
  destruct (GetMin_loop_nan_epsilon policy f (Z.to_nat maxIterationCount) 0
              [{| seg_begin := a; seg_end := b |}] Hp) as [H | (k & Hk & H)].
  - unfold size, maxIterationCount, INT_MAX. cbn [length]. lia.
  - left. rewrite H. f_equal.
  - right. exists k. split; [|exact H]. unfold maxIterationCount in *. lia.
Qed.

Lemma GetMin_nan_epsilon_witness :
  GetMin_run (Parallel 4) (fun x => (x * x)%float) 0%float 1%float nan
  = (Ok NAN, maxIterationCount) \/
  exists k, 0 <= k < maxIterationCount /\
            GetMin_run (Parallel 4) (fun x => (x * x)%float) 0%float 1%float nan
            = (Err OutOfRange, k).
Proof. apply GetMin_nan_epsilon. unfold policy_ok, INT_MAX. lia. Defined.

(** On an interval of no length ([a] and [b] the same double) no segment
    wins and the call throws in its first pass, whatever the function and
    [epsilon]. *)
Theorem GetMin_point_interval_throws policy f a epsilon :
  policy_ok policy ->
  GetMin_run policy f a a epsilon = (Err OutOfRange, 0) /\
  GetMin policy f a a epsilon = Err OutOfRange.
Proof.
  intros Hp.
  assert (GetMin_run policy f a a epsilon = (Err OutOfRange, 0)) as H.
  { apply GetMin_run_first_error, winning_segment_none; [assumption| |].
    - unfold size, INT_MAX. cbn [length]. lia.
    - intros m seg ->%list_elem_of_singleton. now apply characteristic_point. }
  split; [assumption|]. unfold GetMin. now rewrite H.
Qed.

Lemma GetMin_point_interval_throws_witness :
  GetMin_run Sequential (fun x => (x * x)%float) 3%float 3%float 0.5%float
  = (Err OutOfRange, 0) /\
  GetMin Sequential (fun x => (x * x)%float) 3%float 3%float 0.5%float = Err OutOfRange.
Proof. apply GetMin_point_interval_throws. exact I. Defined.

(** With NaN for [a] or for [b] no segment wins and the call throws in its
    first pass. *)
Theorem GetMin_nan_bound_throws policy f a b epsilon :
  policy_ok policy ->
  is_number a = false \/ is_number b = false ->
  GetMin_run policy f a b epsilon = (Err OutOfRange, 0) /\
  GetMin policy f a b epsilon = Err OutOfRange.
Proof.
  intros Hp Hnan.
  assert (GetMin_run policy f a b epsilon = (Err OutOfRange, 0)) as H.
  { apply GetMin_run_first_error, winning_segment_none; [assumption| |].
    - unfold size, INT_MAX. cbn [length]. lia.
    - intros m seg ->%list_elem_of_singleton. now apply characteristic_nan. }
  split; [assumption|]. unfold GetMin. now rewrite H.
Qed.

Lemma GetMin_nan_bound_throws_witness :
  GetMin_run Sequential (fun x => (x * x)%float) 0%float nan 0.5%float
  = (Err OutOfRange, 0) /\
  GetMin Sequential (fun x => (x * x)%float) 0%float nan 0.5%float = Err OutOfRange.
Proof. apply GetMin_nan_bound_throws; [exact I|right; reflexivity]. Defined.

(** ** The processes of the parallel scans *)

Lemma size_slice d y k :
  Forall (fun x => 0 <= x) d -> sum_Z d = size y -> (k < length d)%nat ->
  size (slice d y k) = d !!! k.
Proof.
  intros Hpos Hsum Hk. destruct (worker_bounds y d Hpos Hsum k Hk) as (H1 & H2 & H3).
  unfold slice, size in *. rewrite length_take, length_drop. lia.
Qed.

Lemma distribution_of_processes procCount (y : list Segment) :
  1 <= procCount <= INT_MAX -> size y <= INT_MAX ->
  let d := distribution (size y) procCount in
  size d = procCount /\
  Forall (fun x => 0 <= x) d /\
  sum_Z d = size y /\
  WorkSplitter_new (size y) procCount = Ok {| m_workDistribution := d |} /\
  WorkSplitter_new (size y) (int_to_size_t (size d)) = Ok {| m_workDistribution := d |}.
Proof.
  intros Hp Hy d. unfold INT_MAX in *.
  assert (0 <= size y) by (unfold size; lia).
  assert (Hlen : size d = procCount) by (apply length_distribution; lia).
  assert (Hnew : WorkSplitter_new (size y) procCount = Ok {| m_workDistribution := d |})
    by (apply WorkSplitter_new_ok; lia).
  split; [assumption|].
  split; [apply distribution_nonneg; lia|].
  split; [apply sum_distribution; lia|].
  split; [assumption|].
  now rewrite Hlen, int_to_size_t_small by lia.
Qed.

(** The two parallel scans hand the same blocks to the processes: process
    [rank] works on [GetPartWork(rank)] segments, the blocks follow one
    another in the order of the ranks, and together they are the whole
    collection, each segment once. *)
Theorem processes_share_the_collection procCount y :
  1 <= procCount <= INT_MAX -> size y <= INT_MAX ->
  exists ws blocks,
    WorkSplitter_new (size y) procCount = Ok ws /\
    size blocks = procCount /\
    concat blocks = y /\
    forall rank block,
      0 <= rank -> blocks !! Z.to_nat rank = Some block ->
      GetPartWork ws rank = Ok (size block) /\
      Calculate_M_localY procCount rank y = Ok block /\
      CalculateIndexOfMaxR_localY procCount rank y = Ok block.
Proof.
  intros Hp Hy.
  destruct (distribution_of_processes procCount y Hp Hy) as (Hlen & Hpos & Hsum & Hnew & Hnew').
  set (d := distribution (size y) procCount) in *.
  assert (Hd : 1 <= size d <= INT_MAX) by lia.
  exists {| m_workDistribution := d |}, (slices d y).
  split; [exact Hnew|].
  split; [unfold size in *; now rewrite length_slices|].
  split; [apply concat_slices; [assumption|lia]|].
  intros rank block Hrank Hblock.
  apply lookup_lt_Some in Hblock as Hlt. rewrite length_slices in Hlt.
  rewrite lookup_slices in Hblock by assumption. injection Hblock as <-.
  remember (Z.to_nat rank) as k eqn:Hk. assert (rank = Z.of_nat k) as -> by lia.
  split; [|split].
  - rewrite size_slice by assumption.
    pose proof (GetPartWork_worker y d Hd k Hlt) as H.
    rewrite int_to_size_t_small in H by (unfold size, INT_MAX in *; lia). exact H.
  - rewrite <- Hlen. now apply Calculate_M_localY_worker.
  - rewrite <- Hlen. now apply CalculateIndexOfMaxR_localY_worker.
Qed.

Lemma processes_share_the_collection_witness :
  let y := [ {| seg_begin := 0%float; seg_end := 1%float |};
             {| seg_begin := 1%float; seg_end := 2%float |};
             {| seg_begin := 2%float; seg_end := 5%float |};
             {| seg_begin := 5%float; seg_end := 5.5%float |};
             {| seg_begin := 5.5%float; seg_end := 7%float |} ] in
  exists ws blocks,
    WorkSplitter_new (size y) 3 = Ok ws /\
    size blocks = 3 /\
    concat blocks = y /\
    forall rank block,
      0 <= rank -> blocks !! Z.to_nat rank = Some block ->
      GetPartWork ws rank = Ok (size block) /\
      Calculate_M_localY 3 rank y = Ok block /\
      CalculateIndexOfMaxR_localY 3 rank y = Ok block.
Proof.
  intros y. apply processes_share_the_collection.
  - unfold INT_MAX. lia.
  - unfold size, INT_MAX. cbn [length y]. lia.
Defined.

(** A process other than the coordinator receives its block, scans it,
    and returns the empty pair [(0, 0)] whatever the segments are: the
    result of the scan is on the coordinator only. *)
Theorem CalculateIndexOfMaxR_Parallel_worker procCount rank f y m :
  1 <= procCount <= INT_MAX -> size y <= INT_MAX -> 1 <= rank < procCount ->
  exists block,
    CalculateIndexOfMaxR_localY procCount rank y = Ok block /\
    CalculateIndexOfMaxR_local procCount rank f y m
    = Ok (CalculateIndexOfMaxR_Sequential f block m) /\
    CalculateIndexOfMaxR_Parallel procCount rank f y m = Ok (0%float, 0).
Proof.
  intros Hp Hy Hrank.
  destruct (distribution_of_processes procCount y Hp Hy) as (Hlen & Hpos & Hsum & Hnew' & Hnew).
  set (d := distribution (size y) procCount) in *.
  assert (Hd : 1 <= size d <= INT_MAX) by lia.
  assert (Hlt : (Z.to_nat rank < length d)%nat) by (unfold size in Hlen; lia).
  exists (slice d y (Z.to_nat rank)).
  pose proof (CalculateIndexOfMaxR_localY_worker y d Hpos Hsum Hd Hy Hnew _ Hlt) as HlocalY.
  pose proof (CalculateIndexOfMaxR_local_worker f m y d Hpos Hsum Hd Hy Hnew _ Hlt) as Hlocal.
  rewrite Z2Nat.id, Hlen in HlocalY, Hlocal by lia.
  split; [assumption|]. split; [assumption|].
  unfold CalculateIndexOfMaxR_Parallel.
  rewrite Hlen in Hnew. rewrite Hnew, Hlocal. cbn [mbind result_bind].
  destruct (Z.eqb_spec rank 0); [lia|reflexivity].
Qed.

Lemma CalculateIndexOfMaxR_Parallel_worker_witness :
  let f : Function := fun x => ((x - 2) * (x - 2))%float in
  let y := [ {| seg_begin := 0%float; seg_end := 1%float |};
             {| seg_begin := 1%float; seg_end := 2%float |};
             {| seg_begin := 2%float; seg_end := 5%float |};
             {| seg_begin := 5%float; seg_end := 5.5%float |};
             {| seg_begin := 5.5%float; seg_end := 7%float |} ] in
  exists block,
    CalculateIndexOfMaxR_localY 3 2 y = Ok block /\
    CalculateIndexOfMaxR_local 3 2 f y 3%float
    = Ok (CalculateIndexOfMaxR_Sequential f block 3%float) /\
    CalculateIndexOfMaxR_Parallel 3 2 f y 3%float = Ok (0%float, 0).
Proof.
  intros f y. apply CalculateIndexOfMaxR_Parallel_worker.
  - unfold INT_MAX. lia.
  - unfold size, INT_MAX. cbn [length y]. lia.
  - lia.
Defined.

(** ** The order of the segments *)

Lemma SFabs_equal x y :
  SFltb (SFabs x) (SFabs y) = false -> SFltb (SFabs y) (SFabs x) = false ->
  SFeqb (SFabs x) (SFabs x) = true -> SFeqb (SFabs y) (SFabs y) = true ->
  SFabs x = SFabs y.
Proof. sf_order. Qed.

Section Order.
Local Open Scope float_scope.
Variable f : Function.

Lemma abs_equal x y :
  (abs x <? abs y) = false -> (abs y <? abs x) = false ->
  is_number (abs x) = true -> is_number (abs y) = true ->
  abs x = abs y.
Proof.
  unfold is_number. rewrite !ltb_spec, !FloatAxioms.eqb_spec, !abs_spec.
  intros H1 H2 H3 H4. apply Prim2SF_inj. rewrite !abs_spec.
  now apply SFabs_equal.
Qed.

Lemma ltb_asym x y : (x <? y) = true -> (y <? x) = false.
Proof.
  intros H. destruct (y <? x) eqn:E; [|reflexivity].
  pose proof (ltb_trans _ _ _ H E) as Hxx. now rewrite ltb_irrefl in Hxx.
Qed.

Lemma running_maximum_swap M x y :
  let step M c := if M <? c then c else M in
  step (step M (abs x)) (abs y) = step (step M (abs y)) (abs x).
Proof.
  cbn zeta.
  destruct (M <? abs x) eqn:Hx; destruct (M <? abs y) eqn:Hy; rewrite ?Hx, ?Hy.
  - destruct (abs x <? abs y) eqn:Hxy.
    + now rewrite (ltb_asym _ _ Hxy).
    + destruct (abs y <? abs x) eqn:Hyx; [reflexivity|].
      apply abs_equal; eauto using ltb_number_r.
  - destruct (abs x <? abs y) eqn:Hxy; [|reflexivity].
    now rewrite (ltb_trans _ _ _ Hx Hxy) in Hy.
  - destruct (abs y <? abs x) eqn:Hyx; [|reflexivity].
    now rewrite (ltb_trans _ _ _ Hy Hyx) in Hx.
  - reflexivity.
Qed.

Lemma Calculate_M_loop_Permutation y y' :
  y ≡ₚ y' -> forall M, Calculate_M_loop f y M = Calculate_M_loop f y' M.
Proof.
  induction 1 as [|seg y y' _ IH|s1 s2 y|y1 y2 y3 _ IH1 _ IH2]; intros M.
  - reflexivity.
  - cbn [Calculate_M_loop]. apply IH.
  - cbn [Calculate_M_loop]. cbn zeta. f_equal. unfold M_ratio.
    apply running_maximum_swap.
  - now rewrite IH1.
Qed.
End Order.

(** [Calculate_M] does not depend on the order in which the collection
    holds its segments. *)
Theorem Calculate_M_order_independent policy f y y' :
  policy_ok policy -> size y <= INT_MAX -> y ≡ₚ y' ->
  Calculate_M policy f y = Calculate_M policy f y' /\
  Calculate_M_Sequential f y = Calculate_M_Sequential f y'.
Proof.
  intros Hp Hy Hperm.
  assert (Hseq : Calculate_M_Sequential f y = Calculate_M_Sequential f y')
    by now apply Calculate_M_loop_Permutation.
  split; [|assumption].
  rewrite !Calculate_M_policy; try assumption.
  - now rewrite Hseq.
  - unfold size in *. now rewrite <- (Permutation_length Hperm).
Qed.

Lemma Calculate_M_order_independent_witness :
  let f : Function := fun x => (x * x)%float in
  let s1 := {| seg_begin := 0%float; seg_end := 1%float |} in
  let s2 := {| seg_begin := 1%float; seg_end := 3%float |} in
  let s3 := {| seg_begin := 3%float; seg_end := 3.5%float |} in
  Calculate_M (Parallel 2) f [s1; s2; s3] = Calculate_M (Parallel 2) f [s3; s1; s2] /\
  Calculate_M_Sequential f [s1; s2; s3] = Calculate_M_Sequential f [s3; s1; s2].
Proof.
  intros f s1 s2 s3. apply Calculate_M_order_independent.
  - unfold policy_ok, INT_MAX. lia.
  - unfold size, INT_MAX. cbn [length]. lia.
  - symmetry. apply (Permutation_cons_append [s1; s2] s3).
Defined.


(** [MPI_Reduce] may combine the values of the processes in any order and
    grouping.  On the values the sequential [Calculate_M] returns for the
    blocks, [MPI_MAX] gives the value for the blocks put together, and it
    is commutative and associative. *)
Theorem MPI_MAX_on_estimates f l1 l2 l3 :
  let M := Calculate_M_Sequential f in
  MPI_MAX (M l1) (M l2) = M (l1 ++ l2) /\
  MPI_MAX (M l1) (M l2) = MPI_MAX (M l2) (M l1) /\
  MPI_MAX (MPI_MAX (M l1) (M l2)) (M l3) = MPI_MAX (M l1) (MPI_MAX (M l2) (M l3)).
Proof.
  cbn zeta. split; [|split].
  - now rewrite Calculate_M_Sequential_app.
  - rewrite <- !Calculate_M_Sequential_app.
    apply Calculate_M_loop_Permutation, Permutation_app_comm.
  - rewrite <- !Calculate_M_Sequential_app. now rewrite app_assoc.
Qed.

(** ** The outcomes of [GetMin] *)

Lemma winning_segment_no_maximum policy f y m :
  policy_ok policy -> size y <= INT_MAX ->
  Calculate_m (Calculate_M_Sequential f y) r = Ok m ->
  (forall seg, seg ∈ y -> (- DBL_MAX <? characteristic f m seg)%float = false) ->
  winning_segment policy f y = Err OutOfRange.
Proof.
  intros Hp Hy Hm Hnone.
  destruct (winning_segment policy f y) as [[[m' index] seg]|e] eqn:Hwin.
  - destruct (winning_segment_inv policy f Hp y m' index seg Hy Hwin)
      as (Hm' & _ & _ & Hseg & Hlow).
    rewrite Hm in Hm'. injection Hm' as <-.
    rewrite Hnone in Hlow by (eapply list_elem_of_lookup_2; eauto). discriminate.
  - now destruct (winning_segment_error policy f Hp y e Hy Hwin) as [-> _].
Qed.

Lemma GetMin_loop_throws policy f epsilon e k : forall n i y yk,
  (k < n)%nat ->
  segments_at policy f epsilon k y = Some yk ->
  winning_segment policy f yk = Err e ->
  GetMin_loop policy f epsilon n i y = (Err e, i + Z.of_nat k).
Proof.
  induction k as [|k IH]; intros n i y yk Hk Hat Hwin.
  - injection Hat as ->. destruct n as [|n]; [lia|]. cbn [GetMin_loop].
    rewrite (GetMin_pass_error _ _ _ _ _ Hwin). f_equal. lia.
  - destruct n as [|n]; [lia|]. cbn [GetMin_loop segments_at] in *.
    destruct (GetMin_pass policy f epsilon y) as [[v|y']|e']; try discriminate.
    rewrite (IH n (i + 1) y' yk) by (assumption || lia). f_equal. lia.
Qed.

Lemma GetMin_loop_value policy f epsilon n : forall i y v j,
  GetMin_loop policy f epsilon n i y = (Ok v, j) ->
  j = i + Z.of_nat n /\ v = NAN \/
  exists (k : nat) yk m index seg,
    (k < n)%nat /\ j = i + Z.of_nat k /\
    segments_at policy f epsilon k y = Some yk /\
    winning_segment policy f yk = Ok (m, index, seg) /\
    (seg_end seg - seg_begin seg <? epsilon)%float = true /\
    v = f (seg_end seg).
Proof.
  induction n as [|n IH]; intros i y v j Hloop; cbn [GetMin_loop] in Hloop.
  - injection Hloop as <- <-. left. split; [lia|reflexivity].
  - destruct (GetMin_pass policy f epsilon y) as [[v'|y']|e] eqn:Hpass.
    + injection Hloop as <- <-. right.
      destruct (winning_segment policy f y) as [[[m index] seg]|e] eqn:Hwin.
      * destruct (seg_end seg - seg_begin seg <? epsilon)%float eqn:Hlen.
        -- rewrite (GetMin_pass_return _ _ _ _ _ _ _ Hwin Hlen) in Hpass.
           injection Hpass as <-. exists 0%nat, y, m, index, seg.
           repeat split; auto; lia.
        -- rewrite (GetMin_pass_next _ _ _ _ _ _ _ Hwin Hlen) in Hpass. discriminate.
      * rewrite (GetMin_pass_error _ _ _ _ _ Hwin) in Hpass. discriminate.
    + destruct (IH _ _ _ _ Hloop) as [[-> ->] | (k & yk & m & index & seg & Hk & -> & Hat & H)].
      * left. split; [lia|reflexivity].
      * right. exists (S k), yk, m, index, seg.
        split; [lia|]. split; [lia|]. split; [|exact H].
        now rewrite (segments_at_S _ _ _ _ _ _ Hpass).
    + discriminate.
Qed.

(** The only error of [GetMin] is the exception of [y.at(-1)]: a call
    fails only by throwing [std::out_of_range], in the first pass in which
    no segment has a characteristic above [-DBL_MAX]; and it does throw in
    such a pass. *)
Theorem GetMin_throws_only_out_of_range policy f a b epsilon :
  policy_ok policy ->
  (forall e,
     GetMin policy f a b epsilon = Err e ->
     e = OutOfRange /\
     exists (k : nat) yk m,
       (k < Z.to_nat maxIterationCount)%nat /\
       snd (GetMin_run policy f a b epsilon) = Z.of_nat k /\
       segments_at policy f epsilon k [{| seg_begin := a; seg_end := b |}] = Some yk /\
       Calculate_m (Calculate_M_Sequential f yk) r = Ok m /\
       forall seg, seg ∈ yk -> (- DBL_MAX <? characteristic f m seg)%float = false) /\
  (forall (k : nat) yk m,
     (k < Z.to_nat maxIterationCount)%nat ->
     segments_at policy f epsilon k [{| seg_begin := a; seg_end := b |}] = Some yk ->
     Calculate_m (Calculate_M_Sequential f yk) r = Ok m ->
     (forall seg, seg ∈ yk -> (- DBL_MAX <? characteristic f m seg)%float = false) ->
     GetMin_run policy f a b epsilon = (Err OutOfRange, Z.of_nat k)).
Proof.
  intros Hp. split.
  - intros e Herr. unfold GetMin, GetMin_run in *.
    destruct (GetMin_loop_error policy f Hp epsilon (Z.to_nat maxIterationCount) 0
                [{| seg_begin := a; seg_end := b |}] e) as (He & k & yk & m & H);
      [unfold size, maxIterationCount, INT_MAX; cbn [length]; lia|assumption|].
    split; [assumption|]. exists k, yk, m. rewrite Z.add_0_l in H. exact H.
  - intros k yk m Hk Hat Hm Hnone. unfold GetMin_run.
    rewrite (GetMin_loop_throws policy f epsilon OutOfRange k _ 0 _ yk Hk Hat);
      [reflexivity|].
    apply (winning_segment_no_maximum policy f yk m); try assumption.
    apply length_segments_at in Hat. unfold size. rewrite Hat.
    unfold maxIterationCount, INT_MAX in *. cbn [length]. lia.
Qed.

Lemma GetMin_throws_only_out_of_range_witness :
  let f : Function := fun _ => 0x1p+1023%float in
  GetMin Sequential f 0%float 1%float 0.5%float = Err OutOfRange /\
  exists (k : nat) yk m,
    (k < Z.to_nat maxIterationCount)%nat /\
    snd (GetMin_run Sequential f 0%float 1%float 0.5%float) = Z.of_nat k /\
    segments_at Sequential f 0.5%float k [{| seg_begin := 0%float; seg_end := 1%float |}]
    = Some yk /\
    Calculate_m (Calculate_M_Sequential f yk) r = Ok m /\
    forall seg, seg ∈ yk -> (- DBL_MAX <? characteristic f m seg)%float = false.
Proof.
  intros f.
  assert (H : GetMin Sequential f 0%float 1%float 0.5%float = Err OutOfRange)
    by (vm_compute; reflexivity).
  split; [exact H|].
  exact (proj2 (proj1 (GetMin_throws_only_out_of_range Sequential f 0%float 1%float
                         0.5%float I) OutOfRange H)).
Defined.

(** A value returned before the bound on the passes is [f] at the end of
    the winning segment of that pass, a segment shorter than [epsilon]
    whose end is a number; the value returned at the bound is NaN.  (A
    value returned before the bound can be NaN too, when [f] is.) *)
Theorem GetMin_value policy f a b epsilon v j :
  policy_ok policy ->
  GetMin_run policy f a b epsilon = (Ok v, j) ->
  j = maxIterationCount /\ v = NAN \/
  0 <= j < maxIterationCount /\
  exists yk m index seg,
    segments_at policy f epsilon (Z.to_nat j) [{| seg_begin := a; seg_end := b |}]
    = Some yk /\
    winning_segment policy f yk = Ok (m, index, seg) /\
    yk !! Z.to_nat index = Some seg /\
    (seg_end seg - seg_begin seg <? epsilon)%float = true /\
    v = f (seg_end seg) /\
    is_number (seg_end seg) = true.
Proof.
  intros Hp Hrun. unfold GetMin_run in Hrun.
  destruct (GetMin_loop_value _ _ _ _ _ _ _ _ Hrun)
    as [[-> ->] | (k & yk & m & index & seg & Hk & -> & Hat & Hwin & Hlen & ->)].
  - left. split; [|reflexivity]. unfold maxIterationCount. lia.
  - right. split; [unfold maxIterationCount in *; lia|].
    exists yk, m, index, seg. rewrite Z.add_0_l, Nat2Z.id.
    assert (Hy : size yk <= INT_MAX).
    { apply length_segments_at in Hat. unfold size. rewrite Hat.
      unfold maxIterationCount, INT_MAX in *. cbn [length]. lia. }
    destruct (winning_segment_inv policy f Hp yk m index seg Hy Hwin)
      as (_ & _ & _ & Hseg & Hlow).
    repeat split; try assumption.
    destruct (is_number (seg_end seg)) eqn:E; [reflexivity|].
    rewrite (characteristic_nan f m seg (or_intror E)) in Hlow. discriminate.
Qed.

Lemma GetMin_value_witness :
  let f : Function := fun x => (x * x)%float in
  GetMin_run Sequential f 1%float 3%float 4%float = (Ok 9%float, 0) /\
  (0 = maxIterationCount /\ 9%float = NAN \/
   0 <= 0 < maxIterationCount /\
   exists yk m index seg,
     segments_at Sequential f 4%float (Z.to_nat 0) [{| seg_begin := 1%float; seg_end := 3%float |}]
     = Some yk /\
     winning_segment Sequential f yk = Ok (m, index, seg) /\
     yk !! Z.to_nat index = Some seg /\
     (seg_end seg - seg_begin seg <? 4)%float = true /\
     9%float = f (seg_end seg) /\
     is_number (seg_end seg) = true).
Proof.
  intros f.
  assert (H : GetMin_run Sequential f 1%float 3%float 4%float = (Ok 9%float, 0))
    by (vm_compute; reflexivity).
  split; [exact H|].
  exact (GetMin_value Sequential f 1%float 3%float 4%float 9%float 0 I H).
Defined.

(** ** Workers without work *)

Lemma distribution_idle work workerCount i :
  0 <= work -> 1 <= workerCount -> 0 <= i < workerCount ->
  exists e, distribution work workerCount !! Z.to_nat i = Some e /\
            0 <= e /\ (e = 0 <-> work <= i).
Proof.
  intros Hu Hw Hi. eexists. split; [apply lookup_distribution; lia|].
  destruct (Z.leb_spec work workerCount).
  - destruct (Z.ltb_spec i work); lia.
  - pose proof (share_bounds work workerCount i ltac:(lia) ltac:(lia)) as [Hlow _].
    pose proof (Z.div_le_lower_bound work workerCount 1 ltac:(lia) ltac:(lia)). lia.
Qed.

(** A worker is left without work exactly when there are not enough units
    to reach it: worker [i] gets no unit if and only if
    [unitCount <= i]. *)
Theorem WorkSplitter_idle_workers unitCount workerCount i :
  0 <= unitCount < 2 ^ 64 -> 1 <= workerCount < 2 ^ 64 -> 0 <= i < workerCount ->
  exists ws e,
    WorkSplitter_new unitCount workerCount = Ok ws /\
    GetPartWork ws i = Ok e /\
    (e = 0 <-> unitCount <= i).
Proof.
  intros Hu Hw Hi.
  destruct (distribution_idle unitCount workerCount i) as (e & He & _ & Hidle); try lia.
  exists {| m_workDistribution := distribution unitCount workerCount |}, e.
  split; [apply WorkSplitter_new_ok; lia|].
  split; [apply GetPartWork_ok; [lia|assumption]|assumption].
Qed.

Lemma WorkSplitter_idle_workers_witness :
  exists ws e,
    WorkSplitter_new 2 5 = Ok ws /\ GetPartWork ws 2 = Ok e /\ (e = 0 <-> 2 <= 2).
Proof. apply (WorkSplitter_idle_workers 2 5 2); lia. Defined.

(** ** The messages of the coordinator *)

Lemma destinations_outbox (y : list Segment) procCount (c : nat) :
  1 <= procCount -> Z.of_nat c < procCount ->
  (outbox (distribution (size y) procCount) y c).*1
  = seqZ 1 (Z.min (size y) (Z.of_nat c + 1) - 1).
Proof.
  intros Hp Hc. induction c as [|c IH].
  - cbn. rewrite seqZ_nil; [reflexivity|]. unfold size. lia.
  - rewrite outbox_S, fmap_app, IH by lia.
    destruct (distribution_idle (size y) procCount (Z.of_nat (S c)))
      as (e & He & He0 & Hidle); try (unfold size; lia).
    rewrite Nat2Z.id in He. rewrite (list_lookup_total_correct _ _ _ He).
    destruct (Z.eqb_spec e 0) as [Hz|Hz].
    + rewrite app_nil_r. f_equal. lia.
    + cbn [fmap list_fmap fst].
      replace (Z.min (size y) (Z.of_nat (S c) + 1) - 1)
        with ((Z.min (size y) (Z.of_nat c + 1) - 1) + 1) by lia.
      rewrite seqZ_app by lia. f_equal.
      rewrite (seqZ_cons _ 1) by lia. rewrite seqZ_nil by lia. f_equal. lia.
Qed.

(** In both parallel scans the coordinator sends the same messages: one
    block to each of the processes [1, 2, ...] that has work, in the order
    of the ranks, these being the processes below
    [min (y.size(), procCount)]; and the running offset [distributedWork]
    ends at [y.size()]. *)
Theorem coordinator_messages procCount y :
  1 <= procCount <= INT_MAX -> size y <= INT_MAX ->
  exists ws workForThisProc sent,
    WorkSplitter_new (size y) procCount = Ok ws /\
    GetPartWork ws 0 = Ok workForThisProc /\
    Calculate_M_sends ws y procCount = Ok sent /\
    CalculateIndexOfMaxR_sends ws y procCount workForThisProc = Ok (size y, sent) /\
    sent.*1 = seqZ 1 (Z.min (size y) procCount - 1).
Proof.
  intros Hp Hy.
  destruct (distribution_of_processes procCount y Hp Hy) as (Hlen & Hpos & Hsum & Hnew & _).
  set (d := distribution (size y) procCount) in *.
  assert (Hd : 1 <= size d <= INT_MAX) by lia.
  set (c := (length d - 1)%nat).
  assert (Hc : (c < length d)%nat) by (unfold size in Hd; lia).
  assert (Hpc : 1 + Z.of_nat c = procCount) by (unfold size in *; lia).
  exists {| m_workDistribution := d |}, (d !!! 0%nat), (outbox d y c).
  split; [exact Hnew|]. split; [|split; [|split]].
  - apply (GetPartWork_worker y d Hd 0). unfold size in Hd. lia.
  - rewrite <- Hpc. now apply Calculate_M_sends_run.
  - rewrite <- Hpc at 1. rewrite CalculateIndexOfMaxR_sends_run by assumption.
    do 2 f_equal. unfold prefix_sum.
    replace (S c) with (length d) by lia. now rewrite firstn_all.
  - unfold d. rewrite destinations_outbox by lia. do 2 f_equal. lia.
Qed.

Lemma coordinator_messages_witness :
  let y := [ {| seg_begin := 0%float; seg_end := 1%float |};
             {| seg_begin := 1%float; seg_end := 2%float |};
             {| seg_begin := 2%float; seg_end := 5%float |} ] in
  exists ws workForThisProc sent,
    WorkSplitter_new (size y) 5 = Ok ws /\
    GetPartWork ws 0 = Ok workForThisProc /\
    Calculate_M_sends ws y 5 = Ok sent /\
    CalculateIndexOfMaxR_sends ws y 5 workForThisProc = Ok (size y, sent) /\
    sent.*1 = seqZ 1 (Z.min (size y) 5 - 1).
Proof.
  intros y. apply coordinator_messages.
  - unfold INT_MAX. lia.
  - unfold size, INT_MAX. cbn [length y]. lia.
Defined.

(** ** The ends of the segments *)

Lemma insert_app_Permutation {A} (l : list A) i x v :
  l !! i = Some x -> <[i := v]> l ++ [x] ≡ₚ v :: l.
Proof.
  intros Hx. rewrite <- (take_drop_middle l i x Hx) at 2.
  rewrite insert_take_drop by (eapply lookup_lt_Some; eauto).
  rewrite <- app_assoc. cbn [app].
  rewrite <- !Permutation_middle. now rewrite app_nil_r.
Qed.

Lemma ends_refine y i seg yn :
  y !! i = Some seg ->
  seg_end <$> refine y i seg yn = (seg_end <$> y) ++ [yn] /\
  seg_begin <$> refine y i seg yn ≡ₚ yn :: (seg_begin <$> y).
Proof.
  intros Hseg. unfold refine. rewrite !fmap_app, !list_fmap_insert. cbn [fmap list_fmap].
  split.
  - f_equal. apply list_insert_id. now rewrite list_lookup_fmap, Hseg.
  - apply insert_app_Permutation. now rewrite list_lookup_fmap, Hseg.
Qed.

Lemma segments_at_chain policy f a b epsilon k : forall y,
  segments_at policy f epsilon k [{| seg_begin := a; seg_end := b |}] = Some y ->
  exists pts,
    length pts = k /\
    seg_end <$> y = b :: pts /\
    seg_begin <$> y ≡ₚ a :: pts.
Proof.
  induction k as [|k IH]; intros y Hat.
  - injection Hat as <-. exists []. repeat split; reflexivity.
  - destruct (segments_at_last _ _ _ _ _ _ Hat) as (yk & Hk & Hpass).
    destruct (IH yk Hk) as (pts & Hlen & Hends & Hbegins).
    destruct (GetMin_pass_next_inv _ _ _ _ _ Hpass) as (m & index & seg & _ & _ & Hseg & ->).
    destruct (ends_refine yk _ seg (new_point f m seg) Hseg) as [He Hb].
    exists (pts ++ [new_point f m seg]).
    split; [rewrite length_app; cbn [length]; lia|].
    split; [now rewrite He, Hends|].
    rewrite Hb, Hbegins. rewrite (Permutation_cons_append (a :: pts)). reflexivity.
Qed.

(** Whatever the rounding does to the new points, the collection keeps
    the shape of a chain from [a] to [b]: after [k] passes there are [k]
    points such that the ends of the segments are [b] and these points, in
    the order of the passes, and the begins are [a] and the same points.
    So every new point is the end of one segment and the begin of one
    segment, [b] is the end of the first segment and [a] is a begin. *)
Theorem GetMin_keeps_a_chain policy f a b epsilon k y :
  segments_at policy f epsilon k [{| seg_begin := a; seg_end := b |}] = Some y ->
  exists pts,
    length pts = k /\
    seg_end <$> y = b :: pts /\
    seg_begin <$> y ≡ₚ a :: pts.
Proof. apply segments_at_chain. Qed.

Lemma GetMin_keeps_a_chain_witness :
  exists pts,
    length pts = 2%nat /\
    seg_end <$> [ {| seg_begin := 3%float; seg_end := 4%float |};
                  {| seg_begin := 0%float; seg_end := 2%float |};
                  {| seg_begin := 2%float; seg_end := 3%float |} ] = 4%float :: pts /\
    seg_begin <$> [ {| seg_begin := 3%float; seg_end := 4%float |};
                    {| seg_begin := 0%float; seg_end := 2%float |};
                    {| seg_begin := 2%float; seg_end := 3%float |} ] ≡ₚ 0%float :: pts.
Proof.
  apply (GetMin_keeps_a_chain Sequential zero_function 0%float 4%float 0.5%float 2).
  vm_compute. reflexivity.
Defined.






(** ** Runs that do not converge *)

Lemma GetMin_loop_not_converged policy f epsilon n : forall i y,
  policy_ok policy -> size y + Z.of_nat n <= INT_MAX ->
  (forall (k : nat) yk m index seg,
     (k < n)%nat ->
     segments_at policy f epsilon k y = Some yk ->
     winning_segment policy f yk = Ok (m, index, seg) ->
     (seg_end seg - seg_begin seg <? epsilon)%float = false) ->
  GetMin_loop policy f epsilon n i y = (Ok NAN, i + Z.of_nat n) /\
  (exists yn, segments_at policy f epsilon n y = Some yn) /\
  (forall (k : nat) yk,
     (k < n)%nat -> segments_at policy f epsilon k y = Some yk ->
     exists m index seg, winning_segment policy f yk = Ok (m, index, seg))
  \/
  exists (k : nat) yk m,
    (k < n)%nat /\
    segments_at policy f epsilon k y = Some yk /\
    Calculate_m (Calculate_M_Sequential f yk) r = Ok m /\
    (forall seg, seg ∈ yk -> (- DBL_MAX <? characteristic f m seg)%float = false) /\
    GetMin_loop policy f epsilon n i y = (Err OutOfRange, i + Z.of_nat k).
Proof.
  induction n as [|n IH]; intros i y Hp Hy Hlong.
  - left. cbn [GetMin_loop segments_at]. split; [f_equal; lia|].
    split; [eauto|]. intros k yk Hk. lia.
  - cbn [GetMin_loop].
    destruct (winning_segment policy f y) as [[[m index] seg]|e] eqn:Hwin.
    + pose proof (Hlong 0%nat y m index seg ltac:(lia) eq_refl Hwin) as Hlen.
      pose proof (GetMin_pass_next _ _ _ _ _ _ _ Hwin Hlen) as Hpass.
      rewrite Hpass.
      set (y' := refine y (Z.to_nat (int_to_size_t index)) seg (new_point f m seg)) in *.
      destruct (IH (i + 1) y' Hp) as [(Hloop & Hend & Hall) | (k & yk & mk & Hk & Hat & Hm & Hnone & Hloop)].
      * unfold y', size in *. rewrite length_refine. lia.
      * intros k yk mk ik sk Hk Hat. apply (Hlong (S k)); [lia|].
        now rewrite (segments_at_S _ _ _ _ _ _ Hpass).
      * left. split; [rewrite Hloop; f_equal; lia|].
        split; [now rewrite (segments_at_S _ _ _ _ _ _ Hpass)|].
        intros [|k] yk Hk Hat.
        -- injection Hat as <-. eauto.
        -- rewrite (segments_at_S _ _ _ _ _ _ Hpass) in Hat. apply (Hall k); [lia|assumption].
      * right. exists (S k), yk, mk.
        split; [lia|]. split; [now rewrite (segments_at_S _ _ _ _ _ _ Hpass)|].
        split; [assumption|]. split; [assumption|]. rewrite Hloop. f_equal. lia.
    + rewrite (GetMin_pass_error _ _ _ _ _ Hwin).
      destruct (winning_segment_error policy f Hp y e ltac:(lia) Hwin)
        as (-> & m & Hm & _ & Hnone).
      right. exists 0%nat, y, m. repeat split; auto; try lia. f_equal. lia.
Qed.

(** C5, as the code has it.  On an input on which no winning segment is
    shorter than [epsilon] in any of the 100000 passes, the call ends in one
    of two ways: it makes exactly 100000 passes and returns NaN, which is
    what happens when a segment wins in every pass; or it throws
    [std::out_of_range] in the first pass in which no segment has a
    characteristic above [-DBL_MAX].  And whenever the loop leaves with the
    pass count at its bound, what it returns is NaN. *)
Theorem GetMin_without_convergence policy f a b epsilon :
  (policy_ok policy ->
   (forall (k : nat) yk m index seg,
      (k < Z.to_nat maxIterationCount)%nat ->
      segments_at policy f epsilon k [{| seg_begin := a; seg_end := b |}] = Some yk ->
      winning_segment policy f yk = Ok (m, index, seg) ->
      (seg_end seg - seg_begin seg <? epsilon)%float = false) ->
   GetMin_run policy f a b epsilon = (Ok NAN, maxIterationCount) /\
   (exists y,
      segments_at policy f epsilon (Z.to_nat maxIterationCount)
        [{| seg_begin := a; seg_end := b |}] = Some y) /\
   (forall (k : nat) yk,
      (k < Z.to_nat maxIterationCount)%nat ->
      segments_at policy f epsilon k [{| seg_begin := a; seg_end := b |}] = Some yk ->
      exists m index seg, winning_segment policy f yk = Ok (m, index, seg))
   \/
   exists (k : nat) yk m,
     (k < Z.to_nat maxIterationCount)%nat /\
     segments_at policy f epsilon k [{| seg_begin := a; seg_end := b |}] = Some yk /\
     Calculate_m (Calculate_M_Sequential f yk) r = Ok m /\
     (forall seg, seg ∈ yk -> (- DBL_MAX <? characteristic f m seg)%float = false) /\
     GetMin_run policy f a b epsilon = (Err OutOfRange, Z.of_nat k)) /\
  ((forall (k : nat) yk,
      (k < Z.to_nat maxIterationCount)%nat ->
      segments_at policy f epsilon k [{| seg_begin := a; seg_end := b |}] = Some yk ->
      exists m index seg,
        winning_segment policy f yk = Ok (m, index, seg) /\
        (seg_end seg - seg_begin seg <? epsilon)%float = false) ->
   GetMin_run policy f a b epsilon = (Ok NAN, maxIterationCount) /\
   GetMin policy f a b epsilon = Ok NAN) /\
  (snd (GetMin_run policy f a b epsilon) = maxIterationCount ->
   GetMin policy f a b epsilon = Ok NAN).
Proof.
  split; [|split].
  - intros Hp Hlong. unfold GetMin_run.
    assert (Hsize : size [{| seg_begin := a; seg_end := b |}]
                    + Z.of_nat (Z.to_nat maxIterationCount) <= INT_MAX)
      by (unfold size, maxIterationCount, INT_MAX; cbn [length]; lia).
    destruct (GetMin_loop_not_converged policy f epsilon (Z.to_nat maxIterationCount) 0
                [{| seg_begin := a; seg_end := b |}] Hp Hsize Hlong)
      as [(H1 & H2 & H3) | (k & yk & m & Hk & Hat & Hm & Hnone & Hloop)].
    + left. split; [|auto]. rewrite H1. reflexivity.
    + right. exists k, yk, m. rewrite Hloop, Z.add_0_l. auto.
  - intros Hgo. unfold GetMin, GetMin_run.
    destruct (GetMin_loop_exhausted policy f epsilon (Z.to_nat maxIterationCount) 0 _ Hgo)
      as [Hloop _].
    rewrite Hloop. rewrite Z2Nat.id by (unfold maxIterationCount; lia). auto.
  - unfold GetMin, GetMin_run. intros Hidx.
    apply GetMin_loop_index. rewrite Hidx.
    rewrite Z2Nat.id by (unfold maxIterationCount; lia). reflexivity.
Qed.

Lemma GetMin_without_convergence_witness :
  GetMin_run Sequential zero_function 1%float 0x1.0000000000001p+0%float 0x1p-60%float
  = (Ok NAN, maxIterationCount) /\
  GetMin Sequential zero_function 1%float 0x1.0000000000001p+0%float 0x1p-60%float
  = Ok NAN.
Proof.
  destruct (GetMin_without_convergence Sequential zero_function
              1%float 0x1.0000000000001p+0%float 0x1p-60%float) as (_ & H & _).
  apply H. intros k yk _ Hat.
  change [{| seg_begin := 1%float; seg_end := 0x1.0000000000001p+0%float |}]
    with (tight_segment :: replicate 0 point_segment) in Hat.
  rewrite (segments_at_stalled k 0) in Hat. injection Hat as <-.
  exists 1%float, 0, tight_segment.
  split; [apply winning_segment_stalled|reflexivity].
Defined.

(** C5, as the claim states it, fails for the constant function [2^1023]
    on [[0, 1]] with [epsilon = 0.5]: no winning segment is ever shorter
    than [epsilon], for no segment wins; the sum [f(b) + f(a)] overflows,
    the characteristic is minus infinity, and the call throws in its first
    pass instead of making 100000 passes and returning NaN. *)
Lemma GetMin_throws_before_the_bound :
  let f : Function := fun _ => 0x1p+1023%float in
  (forall (k : nat) yk m index seg,
     (k < Z.to_nat maxIterationCount)%nat ->
     segments_at Sequential f 0.5%float k [{| seg_begin := 0%float; seg_end := 1%float |}]
     = Some yk ->
     winning_segment Sequential f yk = Ok (m, index, seg) ->
     (seg_end seg - seg_begin seg <? 0.5)%float = false) /\
  GetMin_run Sequential f 0%float 1%float 0.5%float = (Err OutOfRange, 0) /\
  GetMin Sequential f 0%float 1%float 0.5%float <> Ok NAN /\
  snd (GetMin_run Sequential f 0%float 1%float 0.5%float) <> maxIterationCount.
Proof.
  intros f. split; [|split; [|split]].
  - intros [|k] yk m index seg _ Hat Hwin.
    + injection Hat as <-. vm_compute in Hwin. discriminate.
    + vm_compute in Hat. discriminate.
  - vm_compute. reflexivity.
  - vm_compute. discriminate.
  - vm_compute. discriminate.
Qed.
